(** * PROXY-protocol interception: a shallow embedding of [src/index.ts]

    The development models the per-connection closure built by
    [connectionListener] (the overridden [socket.emit], [onReadable],
    [restore] and [destroy]), the header decoder wrapper [isHeaderCompleted],
    [defineSocketProperties] and the option merge of the default export;
    then the getters of a TLS socket, the listeners and the socket registry
    of a wrapped server ([replaceListeners]) and the object the default
    export returns.

    The package [proxy-protocol-js] is an external dependency: its three entry
    points used by the source are the fields of the record [Decoder]. *)

From stdpp Require Import base option list gmap strings pretty.
From Stdlib Require Import ZArith Lia Strings.Byte Strings.Ascii.

Open Scope Z_scope.

(** ** JavaScript values and Buffer operations *)

(** A node [Buffer] is a sequence of bytes. *)
Abbreviation Buffer := (list byte).

Inductive JsVal : Type :=
  | VUndefined
  | VString (s : string)
  | VNumber (n : Z).

(** [Buffer.from(str)] for an ASCII string. *)
Definition Buffer_from (s : string) : Buffer := String.list_byte_of_string s.

(** [a.equals(b)]: byte-wise equality of two buffers. *)
Fixpoint equals (a b : Buffer) : bool :=
  match a, b with
  | [], [] => true
  | x :: a', y :: b' => Byte.eqb x y && equals a' b'
  | _, _ => false
  end.

(** [buf.slice(start, end)] for [0 <= start <= end]; both ends are clamped to
    the length of the buffer. *)
Definition slice (buf : Buffer) (start end_ : nat) : Buffer :=
  take (end_ - start)%nat (drop start buf).

(** [buf.slice(start)] where [start] is a JavaScript number; [None] stands for
    [NaN], which [slice] coerces to 0. *)
Definition slice_from (buf : Buffer) (start : option Z) : Buffer :=
  match start with
  | Some n => drop (Z.to_nat n) buf
  | None => buf
  end.

(** [buf.indexOf(b)]: index of the first occurrence; [None] is JavaScript's -1. *)
Fixpoint indexOf (buf : Buffer) (b : byte) : option nat :=
  match buf with
  | [] => None
  | x :: rest => if Byte.eqb x b then Some 0%nat else S <$> indexOf rest b
  end.

(** [buf[i]] as a number; [None] is [undefined] (index out of range). *)
Definition byte_at (buf : Buffer) (i : nat) : option Z :=
  (fun b => Z.of_N (Byte.to_N b)) <$> buf !! i.

(** [buf.toString('ascii')]: node clears the high bit of every byte. *)
Definition toString_ascii (buf : Buffer) : string :=
  String.string_of_list_ascii
    (map (fun b => ascii_of_N (N.land (Byte.to_N b) 127)) buf).

Definition CR : byte := x0d.
Definition LF : byte := x0a.

(** ** [ProtocolError] (src/errors/ProtocolError.ts) *)

Record ProtocolError : Type := mkProtocolError {
  message : string;
  header : option string;
}.

Definition new_ProtocolError (msg : string) : ProtocolError :=
  {| message := msg; header := None |}.

Definition set_header (e : ProtocolError) (h : string) : ProtocolError :=
  {| message := message e; header := Some h |}.

(** ** Options *)

Record ProxyOptions : Type := mkProxyOptions {
  strict : bool;
  ignoreStrictExceptions : bool;
  overrideRemote : bool;
  timeout : option Z;
}.

(** [Partial<ProxyOptions>]: every field may be absent. *)
Record PartialProxyOptions : Type := mkPartialProxyOptions {
  p_strict : option bool;
  p_ignoreStrictExceptions : option bool;
  p_overrideRemote : option bool;
  p_timeout : option Z;
}.

Definition defaults : ProxyOptions :=
  {| strict := true;
     ignoreStrictExceptions := false;
     overrideRemote := true;
     timeout := None |}.

(** [{...base, ...over}]: a field present in [over] replaces the one of [base]. *)
Definition spread (base : ProxyOptions) (over : PartialProxyOptions) : ProxyOptions :=
  {| strict := default (strict base) (p_strict over);
     ignoreStrictExceptions :=
       default (ignoreStrictExceptions base) (p_ignoreStrictExceptions over);
     overrideRemote := default (overrideRemote base) (p_overrideRemote over);
     timeout := match p_timeout over with
                | Some t => Some t
                | None => timeout base
                end |}.

(** [const options = {...defaults, ..._options}] of the default export;
    [_options] itself is optional, and spreading [undefined] adds nothing. *)
Definition merge_options (_options : option PartialProxyOptions) : ProxyOptions :=
  match _options with
  | Some o => spread defaults o
  | None => defaults
  end.

(** ** Headers and the external decoder *)

Record ProxyHeaders : Type := mkProxyHeaders {
  remoteAddress : string;
  remotePort : Z;
  localAddress : string;
  localPort : Z;
}.

Definition v1Header : Buffer := Buffer_from "PROXY".
Definition v2Header : Buffer :=
  [x0d; x0a; x0d; x0a; x00; x0d; x0a; x51; x55; x49; x54; x0a].

(** The values [ProxyProtocolIdentifier.identify] is compared against, and
    [OtherVersion] for any value that is none of the three. *)
Inductive ProxyProtocolVersion : Type := V1 | V2 | NOT | OtherVersion.

Record Peer : Type := mkPeer { ipAddress : string; port : Z }.

Record V1ProxyProtocol : Type := mkV1 { source : Peer; destination : Peer }.

(** [info.proxyAddress] of a parsed v2 header: an [IPv4ProxyAddress] with its
    two [address] arrays and two ports, or an address of another class. *)
Inductive ProxyAddress : Type :=
  | IPv4ProxyAddress (sourceAddress : list Z) (sourcePort : Z)
                     (destinationAddress : list Z) (destinationPort : Z)
  | OtherProxyAddress.

Record V2ProxyProtocol : Type := mkV2 { proxyAddress : ProxyAddress }.

(** The three entry points of [proxy-protocol-js] the source calls.
    [parseV1 buf] stands for [V1ProxyProtocol.parse(buf.toString())] and
    [parseV2 buf] for [V2ProxyProtocol.parse(buf)]; [None] covers a thrown
    exception and, for v1, a [null] result (on which [mapV1ProxyInfo] throws):
    both end in the [catch] branch of the caller. *)
Record Decoder : Type := mkDecoder {
  identify : Buffer -> ProxyProtocolVersion;
  parseV1 : Buffer -> option V1ProxyProtocol;
  parseV2 : Buffer -> option V2ProxyProtocol;
}.

Definition mapV1ProxyInfo (info : V1ProxyProtocol) : ProxyHeaders :=
  {| localAddress := ipAddress (destination info);
     localPort := port (destination info);
     remoteAddress := ipAddress (source info);
     remotePort := port (source info) |}.

(** [address.join('.')] on an array of numbers. *)
Definition join_dot (address : list Z) : string :=
  String.concat "." (map pretty address).

Definition mapV2ProxyInfo (info : V2ProxyProtocol) : option ProxyHeaders :=
  match proxyAddress info with
  | IPv4ProxyAddress sa sp da dp =>
      Some {| localAddress := join_dot da;
              localPort := dp;
              remoteAddress := join_dot sa;
              remotePort := sp |}
  | OtherProxyAddress => None
  end.

(** [buf[15] + buf[14] * 256]; [None] is [NaN] (a byte is missing). *)
Definition addrLength (buf : Buffer) : option Z :=
  match byte_at buf 15, byte_at buf 14 with
  | Some lo, Some hi => Some (lo + hi * 256)
  | _, _ => None
  end.

Definition isHeaderCompleted (d : Decoder) (buf : Buffer)
  : bool * option ProxyHeaders * Buffer :=
  match identify d buf with
  | V1 =>
      match indexOf buf CR with
      | None => (true, None, buf)
      | Some endOfBufferIndex =>
          match parseV1 d buf with
          | Some proxyInfo =>
              (true, Some (mapV1ProxyInfo proxyInfo),
               slice_from buf (Some (Z.of_nat endOfBufferIndex + 2)))
          | None => (true, None, buf)
          end
      end
  | V2 =>
      match parseV2 d buf with
      | Some proxyInfo =>
          (true, mapV2ProxyInfo proxyInfo,
           slice_from buf ((fun n => 16 + n) <$> addrLength buf))
      | None => (true, None, buf)
      end
  | NOT => (true, None, buf)
  | OtherVersion => (false, None, buf)
  end.

(** ** Properties defined on the socket *)

(** The descriptor [defineProperty] installs: a getter and no setter. The
    getters of this file are constant closures, so [get] is their value. *)
Record Descriptor : Type := mkDescriptor {
  enumerable : bool;
  configurable : bool;
  get : JsVal;
}.

Definition defineProperty (target : gmap string Descriptor)
    (propertyName : string) (getter : JsVal) : gmap string Descriptor :=
  <[propertyName := {| enumerable := false; configurable := true; get := getter |}]>
    target.

(** [Object.entries(socketParams)], in insertion order. *)
Definition socketParams (proxyInfo : ProxyHeaders) : list (string * JsVal) :=
  [ ("clientAddress", VString (remoteAddress proxyInfo));
    ("proxyAddress", VString (localAddress proxyInfo));
    ("clientPort", VNumber (remotePort proxyInfo));
    ("proxyPort", VNumber (localPort proxyInfo)) ].

Definition defineSocketProperties (socket : gmap string Descriptor)
    (proxyInfo : ProxyHeaders) (overrideRemote : bool) : gmap string Descriptor :=
  let socket :=
    foldl (fun s entry => defineProperty s entry.1 entry.2) socket
          (socketParams proxyInfo) in
  if overrideRemote then
    defineProperty
      (defineProperty socket "remoteAddress" (VString (remoteAddress proxyInfo)))
      "remotePort" (VNumber (remotePort proxyInfo))
  else socket.

(** ** The connection: socket state and the closure of [connectionListener] *)

(** An emitted event [[event, ...rest]]. *)
Record Event : Type := mkEvent { ev_name : string; ev_args : list JsVal }.

(** What the closure does to the socket and the server, in program order. *)
Inductive Effect : Type :=
  | RealEmit (e : Event)                 (* realEmit.apply(socket, e) *)
  | Onend                                (* socket.onend() *)
  | Ondata (data : Buffer)               (* socket.ondata(data, 0, data.length) *)
  | ProxiedConnection                    (* self.emit('proxiedConnection', socket) *)
  | Destroy (error : option ProtocolError) (* socket.destroy(error) *)
  | Unshift (rest : Buffer)              (* socket.unshift(rest) *)
  | SetTimeout (ms : Z)                  (* socket.setTimeout(ms, () => socket.end()) *)
  | SocketEnd.                           (* socket.end(), from the timeout callback *)

(** The unread data of the socket is a queue of chunks: [socket.read()] takes
    the first one and answers [null] on an empty queue. A paused stream hands
    out all it has buffered in one read, which is a queue of at most one
    chunk; the queue also covers a read that stops at a chunk boundary. *)
Record Conn : Type := mkConn {
  (* closure variables *)
  buf : Buffer;
  history : option (list Event);         (* [None] is [null] *)
  protocolError : bool;
  isReadable : bool;                     (* [undefined] counts as [false] *)
  (* the socket *)
  emitIsReal : bool;                     (* socket.emit === realEmit *)
  errorListener : bool;                  (* socket.on('error', realEmit) attached *)
  readableListener : bool;               (* socket.on('readable', onReadable) attached *)
  timeoutCallback : bool;                (* the one-time 'timeout' listener is pending *)
  readQueue : list Buffer;               (* what successive socket.read() calls return *)
  props : gmap string Descriptor;        (* properties defined by defineProperty *)
  peerAddress : string;                  (* the built-in remoteAddress *)
  peerPort : Z;                          (* the built-in remotePort *)
  has_ondata : bool;                     (* socket.ondata is set *)
  has_onend : bool;                      (* socket.onend is set *)
  (* observable actions so far *)
  trace : list Effect;
}.

Definition set_buf (v : Buffer) (c : Conn) : Conn :=
  mkConn v (history c) (protocolError c) (isReadable c) (emitIsReal c)
    (errorListener c) (readableListener c) (timeoutCallback c) (readQueue c)
    (props c) (peerAddress c) (peerPort c) (has_ondata c) (has_onend c) (trace c).

Definition set_history (v : option (list Event)) (c : Conn) : Conn :=
  mkConn (buf c) v (protocolError c) (isReadable c) (emitIsReal c)
    (errorListener c) (readableListener c) (timeoutCallback c) (readQueue c)
    (props c) (peerAddress c) (peerPort c) (has_ondata c) (has_onend c) (trace c).

Definition set_protocolError (v : bool) (c : Conn) : Conn :=
  mkConn (buf c) (history c) v (isReadable c) (emitIsReal c)
    (errorListener c) (readableListener c) (timeoutCallback c) (readQueue c)
    (props c) (peerAddress c) (peerPort c) (has_ondata c) (has_onend c) (trace c).

Definition set_isReadable (v : bool) (c : Conn) : Conn :=
  mkConn (buf c) (history c) (protocolError c) v (emitIsReal c)
    (errorListener c) (readableListener c) (timeoutCallback c) (readQueue c)
    (props c) (peerAddress c) (peerPort c) (has_ondata c) (has_onend c) (trace c).

Definition set_emitIsReal (v : bool) (c : Conn) : Conn :=
  mkConn (buf c) (history c) (protocolError c) (isReadable c) v
    (errorListener c) (readableListener c) (timeoutCallback c) (readQueue c)
    (props c) (peerAddress c) (peerPort c) (has_ondata c) (has_onend c) (trace c).

(** [socket.removeListener('error', realEmit)] and
    [socket.removeListener('readable', onReadable)]. *)
Definition removeListeners (c : Conn) : Conn :=
  mkConn (buf c) (history c) (protocolError c) (isReadable c) (emitIsReal c)
    false false (timeoutCallback c) (readQueue c)
    (props c) (peerAddress c) (peerPort c) (has_ondata c) (has_onend c) (trace c).

Definition set_timeoutCallback (v : bool) (c : Conn) : Conn :=
  mkConn (buf c) (history c) (protocolError c) (isReadable c) (emitIsReal c)
    (errorListener c) (readableListener c) v (readQueue c)
    (props c) (peerAddress c) (peerPort c) (has_ondata c) (has_onend c) (trace c).

Definition set_readQueue (v : list Buffer) (c : Conn) : Conn :=
  mkConn (buf c) (history c) (protocolError c) (isReadable c) (emitIsReal c)
    (errorListener c) (readableListener c) (timeoutCallback c) v
    (props c) (peerAddress c) (peerPort c) (has_ondata c) (has_onend c) (trace c).

Definition set_props (v : gmap string Descriptor) (c : Conn) : Conn :=
  mkConn (buf c) (history c) (protocolError c) (isReadable c) (emitIsReal c)
    (errorListener c) (readableListener c) (timeoutCallback c) (readQueue c)
    v (peerAddress c) (peerPort c) (has_ondata c) (has_onend c) (trace c).

(** Append one action to the trace. *)
Definition log (e : Effect) (c : Conn) : Conn :=
  mkConn (buf c) (history c) (protocolError c) (isReadable c) (emitIsReal c)
    (errorListener c) (readableListener c) (timeoutCallback c) (readQueue c)
    (props c) (peerAddress c) (peerPort c) (has_ondata c) (has_onend c)
    (trace c ++ [e]).

(** [socket.unshift(rest)]: the bytes go back to the front of the unread data;
    node leaves the queue alone when the chunk is empty. *)
Definition unshift (rest : Buffer) (c : Conn) : Conn :=
  log (Unshift rest)
      (match rest with
       | [] => c
       | _ => set_readQueue (rest :: readQueue c) c
       end).

(** Reading a property of the socket: a defined getter wins over the built-in
    accessor; the built-in ones report the physical peer. *)
Definition socket_get (c : Conn) (propertyName : string) : JsVal :=
  match props c !! propertyName with
  | Some desc => get desc
  | None =>
      if String.eqb propertyName "remoteAddress" then VString (peerAddress c)
      else if String.eqb propertyName "remotePort" then VNumber (peerPort c)
      else VUndefined
  end.

(** The test of lines 262-266: the buffer is long enough and starts with
    neither magic. *)
Definition nonProxyPrefix (b : Buffer) : bool :=
  (Nat.max (length v1Header) (length v2Header) <=? length b)%nat
  && negb (equals (slice b 0 (length v1Header)) v1Header)
  && negb (equals (slice b 0 (length v2Header)) v2Header).

(** [!x] for a value that is an object or [null]. *)
Definition is_null {A : Type} (x : option A) : bool :=
  match x with
  | Some _ => false
  | None => true
  end.

Definition is_event (name : string) (e : Event) : bool := String.eqb (ev_name e) name.

(** How one pass through the body of a loop ends: with a [return], or by
    falling through to the next iteration. *)
Inductive LoopStep : Type :=
  | Return (c : Conn)
  | Next (c : Conn).

Section Closure.
Context (d : Decoder) (options : ProxyOptions).

(** [realEmit.apply(socket, e)]: the event reaches the socket's listeners.
    Those this file attached are run here: [onReadable] on 'readable' while
    it is attached, and the one-time timeout callback. The listener
    [socket.on('error', realEmit)] re-emits under the error object as event
    name, which nothing listens to; other listeners are downstream code. *)
Definition realEmit (onReadable : Conn -> Conn) (e : Event) (c : Conn) : Conn :=
  let c := log (RealEmit e) c in
  if is_event "readable" e && readableListener c then onReadable c
  else if is_event "timeout" e && timeoutCallback c then
    log SocketEnd (set_timeoutCallback false c)
  else c.

(** One turn of the [for] loop of [restore]: the recorded event goes to
    [realEmit], and [socket.onend] is called after an 'end'. *)
Definition replay_one (onReadable : Conn -> Conn) (c : Conn) (e : Event) : Conn :=
  let c := realEmit onReadable e c in
  if is_event "end" e && has_onend c then log Onend c else c.

(** [restore], with the 'readable' listener its replay may run. *)
Definition restore_with (onReadable : Conn -> Conn) (c : Conn) : Conn :=
  match history c with
  | Some h =>
      if emitIsReal c then c
      else
        let c := set_emitIsReal true c in
        let c := foldl (replay_one onReadable) c h in
        set_history None c
  | None => c
  end.

(** [destroy(error, wasStrict)]; every call site passes a string. *)
Definition destroy_with (restore : Conn -> Conn)
    (error : string) (wasStrict : bool) (c : Conn) : Conn :=
  let _error := set_header (new_ProtocolError error) (toString_ascii (buf c)) in
  let c := set_protocolError true c in
  let c :=
    log (Destroy (if wasStrict
                  then (if negb (ignoreStrictExceptions options)
                        then Some _error else None)
                  else Some _error)) c in
  restore c.

(** Lines 294-300: a socket with the legacy [ondata] hook is read once more
    and the hook is handed what [socket.read()] returns, unless it is [null]. *)
Definition legacy_ondata (c : Conn) : Conn :=
  if has_ondata c then
    match readQueue c with
    | data :: queue => log (Ondata data) (set_readQueue queue c)
    | [] => c
    end
  else c.

(** Lines 282-300: the connection is handed over to the server. The
    properties are defined when a header was decoded and no protocol error
    is flagged; [socket.emit] is put back, the rest of the buffer is
    unshifted, 'proxiedConnection' is emitted and [restore] is called. *)
Definition handOver (restore : Conn -> Conn)
    (proxyInfo : option ProxyHeaders) (bufferRest : Buffer) (c : Conn) : Conn :=
  let c :=
    match proxyInfo with
    | Some info =>
        if negb (protocolError c) then
          set_props
            (defineSocketProperties (props c) info (overrideRemote options)) c
        else c
    | None => c
    end in
  let c := set_emitIsReal true c in
  let c := unshift bufferRest c in
  let c := log ProxiedConnection c in
  let c := restore c in
  legacy_ondata c.

(** One pass through the body of the [while (chunk !== null)] loop of
    [onReadable], for the chunk just read. *)
Definition loopBody (restore : Conn -> Conn) (chunk : Buffer) (c : Conn)
  : LoopStep :=
  let c := set_buf (buf c ++ chunk) c in
  let flagged := nonProxyPrefix (buf c) in
  let c := if flagged then set_protocolError true c else c in
  if flagged && strict options then
    Return (destroy_with restore "non-PROXY protocol connection" true c)
  else
    let '(headerCompleted, proxyInfo, bufferRest) :=
      isHeaderCompleted d (buf c) in
    if headerCompleted || protocolError c then
      let c := removeListeners c in
      if strict options && is_null proxyInfo then
        Return (destroy_with restore "PROXY protocol malformed header" true c)
      else Return (handOver restore proxyInfo bufferRest c)
    else if (107 <? length (buf c))%nat then
      Return (destroy_with restore "PROXY header too long" false c)
    else Next c.

(** The loop itself; [queue] is the unread data of the socket, whose head is
    the chunk [socket.read()] returns, and an empty queue makes it return
    [null]. *)
Fixpoint whileChunk (restore : Conn -> Conn) (queue : list Buffer) (c : Conn)
  : Conn :=
  match queue with
  | [] => c
  | chunk :: queue' =>
      match loopBody restore chunk (set_readQueue queue' c) with
      | Return c' => c'
      | Next c' => whileChunk restore queue' c'
      end
  end.

Definition onReadable_with (restore : Conn -> Conn) (c : Conn) : Conn :=
  match readQueue c, buf c with
  | [], [] => log ProxiedConnection (set_emitIsReal true c)
  | queue, _ => whileChunk restore queue c
  end.

(** The recursion [restore] -> [realEmit] -> [onReadable] -> [restore] stops
    at the guard of [restore]: a replay runs with [socket.emit] already
    restored, so the [restore] reached from a replayed 'readable' returns at
    once and its own listener is never used ([restore_with_inner] below). *)
Definition restore : Conn -> Conn :=
  restore_with (onReadable_with (restore_with (fun c => c))).

Definition destroy : string -> bool -> Conn -> Conn := destroy_with restore.

Definition onReadable : Conn -> Conn := onReadable_with restore.

(** The function installed as [socket.emit] (lines 202-217). *)
Definition emit_override (e : Event) (c : Conn) : Conn :=
  let c :=
    match history c with
    | Some h => set_history (Some (h ++ [e])) c
    | None => c
    end in
  if is_event "readable" e then onReadable (set_isReadable true c)
  else
    let c :=
      if is_event "end" e && negb (isReadable c)
      then restore (log ProxiedConnection c)
      else c in
    if is_event "timeout" e
    then realEmit onReadable (mkEvent (ev_name e) []) c
    else c.

(** [socket.emit(e)], whichever function is installed. *)
Definition socket_emit (e : Event) (c : Conn) : Conn :=
  if emitIsReal c then realEmit onReadable e c else emit_override e c.

End Closure.

(** ** The listener's initial state and the driver *)

(** [a ?? b] *)
Definition nullish {A : Type} (a b : option A) : option A :=
  match a with
  | Some x => Some x
  | None => b
  end.

(** The state [connectionListener] leaves a freshly accepted socket in:
    [history = []], [protocolError = false], [buf] empty, [socket.emit]
    overridden, both listeners attached, and the timeout armed when
    [(self.timeout ?? options.timeout) && socket.timeout === undefined].
    Timeouts are taken to be numbers [socket.setTimeout] accepts, which are
    not negative: on another one it throws and the listener stops there. *)
Definition connectionListener (options : ProxyOptions)
    (self_timeout socket_timeout : option Z)
    (peer : string * Z) (ondata onend : bool) : Conn :=
  let armed :=
    match nullish self_timeout (timeout options), socket_timeout with
    | Some ms, None => if ms =? 0 then None else Some ms
    | _, _ => None
    end in
  {| buf := [];
     history := Some [];
     protocolError := false;
     isReadable := false;
     emitIsReal := false;
     errorListener := true;
     readableListener := true;
     timeoutCallback := negb (is_null armed);
     readQueue := [];
     props := ∅;
     peerAddress := peer.1;
     peerPort := peer.2;
     has_ondata := ondata;
     has_onend := onend;
     trace := match armed with Some ms => [SetTimeout ms] | None => [] end |}.

(** What happens to a connection from outside: bytes arrive in the socket's
    unread data, or node emits an event on the socket. *)
Inductive Input : Type :=
  | Arrive (chunk : Buffer)
  | Emit (e : Event).

Definition step (d : Decoder) (options : ProxyOptions) (c : Conn) (i : Input) : Conn :=
  match i with
  | Arrive chunk => set_readQueue (readQueue c ++ [chunk]) c
  | Emit e => socket_emit d options e c
  end.

Definition run (d : Decoder) (options : ProxyOptions) (c : Conn) (inputs : list Input)
  : Conn :=
  foldl (step d options) c inputs.

Definition readable : Event := mkEvent "readable" [].
Definition end_ : Event := mkEvent "end" [].
Definition timeout_ : Event := mkEvent "timeout" [].

(** The events handed to [realEmit], in order. *)
Definition delivered (t : list Effect) : list Event :=
  omap (fun x => match x with RealEmit e => Some e | _ => None end) t.

(** The errors passed to [socket.destroy], in order. *)
Definition destroyed (t : list Effect) : list (option ProtocolError) :=
  omap (fun x => match x with Destroy err => Some err | _ => None end) t.

(** Is some [socket.destroy] call of the trace made with an error of this
    message? *)
Definition destroyed_with (msg : string) (t : list Effect) : bool :=
  existsb (fun err => match err with
                      | Some e => String.eqb (message e) msg
                      | None => false
                      end) (destroyed t).

(** The bytes the legacy [ondata] hook was handed, in order. *)
Definition handed (t : list Effect) : Buffer :=
  concat (omap (fun x => match x with Ondata data => Some data | _ => None end) t).

(** The bytes a downstream consumer gets from the socket: what [ondata] was
    handed, then the unread data. *)
Definition downstream (c : Conn) : Buffer :=
  handed (trace c) ++ concat (readQueue c).

(** ** An instance of the decoder interface

    [reference_decoder] recognises the two magics and parses the v1 line and
    the v2 binary header; like the library it answers V1, V2 or NOT on every
    buffer. It serves to evaluate the theorems at the sample inputs below:
    well-formed headers, buffers on which no parser is called, and lines
    that are no header. It is no transcription of [proxy-protocol-js]: a v2
    buffer shorter than its length field announces is refused here. *)

Definition digit_value (b : byte) : option Z :=
  let n := Z.of_N (Byte.to_N b) in
  if (48 <=? n) && (n <=? 57) then Some (n - 48) else None.

Fixpoint parse_decimal_acc (acc : Z) (l : Buffer) : option Z :=
  match l with
  | [] => Some acc
  | b :: rest =>
      match digit_value b with
      | Some v => parse_decimal_acc (acc * 10 + v) rest
      | None => None
      end
  end.

Definition parse_decimal (l : Buffer) : option Z :=
  match l with
  | [] => None
  | _ => parse_decimal_acc 0 l
  end.

Fixpoint split_on (sep : byte) (l : Buffer) : list Buffer :=
  match l with
  | [] => [[]]
  | b :: rest =>
      if Byte.eqb b sep then [] :: split_on sep rest
      else match split_on sep rest with
           | w :: ws => (b :: w) :: ws
           | [] => [[b]]
           end
  end.

Definition reference_identify (b : Buffer) : ProxyProtocolVersion :=
  if equals (slice b 0 12) v2Header then V2
  else if equals (slice b 0 5) v1Header then V1
  else NOT.

Definition known_protocol (w : Buffer) : bool :=
  equals w (Buffer_from "TCP4") || equals w (Buffer_from "TCP6")
  || equals w (Buffer_from "UNKNOWN").

Definition reference_parseV1 (b : Buffer) : option V1ProxyProtocol :=
  match indexOf b CR with
  | Some i =>
      match b !! S i, split_on " "%byte (take i b) with
      | Some nl, [magic; proto; src; dst; sport; dport] =>
          if Byte.eqb nl LF && equals magic v1Header && known_protocol proto
             && negb (is_null (head src)) && negb (is_null (head dst))
          then
            match parse_decimal sport, parse_decimal dport with
            | Some sp, Some dp =>
                Some {| source := mkPeer (String.string_of_list_byte src) sp;
                        destination := mkPeer (String.string_of_list_byte dst) dp |}
            | _, _ => None
            end
          else None
      | _, _ => None
      end
  | None => None
  end.

Definition bytes_to_numbers (l : Buffer) : list Z :=
  map (fun x => Z.of_N (Byte.to_N x)) l.

Definition be16 (b : Buffer) (i : nat) : option Z :=
  match byte_at b i, byte_at b (S i) with
  | Some hi, Some lo => Some (hi * 256 + lo)
  | _, _ => None
  end.

Definition reference_parseV2 (b : Buffer) : option V2ProxyProtocol :=
  if equals (slice b 0 12) v2Header then
    match byte_at b 12, byte_at b 13, addrLength b with
    | Some version_command, Some family_transport, Some len =>
        if (version_command / 16 =? 2) && (version_command mod 16 <=? 1)
           && (family_transport mod 16 <=? 2)
           && (16 + len <=? Z.of_nat (length b)) then
          match family_transport / 16 with
          | 1 =>
              match be16 b 24, be16 b 26 with
              | Some sp, Some dp =>
                  if 12 <=? len then
                    Some (mkV2 (IPv4ProxyAddress
                                  (bytes_to_numbers (slice b 16 20)) sp
                                  (bytes_to_numbers (slice b 20 24)) dp))
                  else None
              | _, _ => None
              end
          | 2 => if 36 <=? len then Some (mkV2 OtherProxyAddress) else None
          | 3 => if 216 <=? len then Some (mkV2 OtherProxyAddress) else None
          | 0 => Some (mkV2 OtherProxyAddress)
          | _ => None
          end
        else None
    | _, _, _ => None
    end
  else None.

Definition reference_decoder : Decoder :=
  {| identify := reference_identify;
     parseV1 := reference_parseV1;
     parseV2 := reference_parseV2 |}.

(** The v1 header line for TCP4, as [V1ProxyProtocol.build] writes it:
    [v1_text] is the line without its CRLF. *)
Definition v1_text (src dst : string) (srcPort dstPort : Z) : Buffer :=
  Buffer_from ("PROXY TCP4 " +:+ src +:+ " " +:+ dst +:+ " "
               +:+ pretty srcPort +:+ " " +:+ pretty dstPort).

Definition v1_line (src dst : string) (srcPort dstPort : Z) : Buffer :=
  v1_text src dst srcPort dstPort ++ [CR; LF].

(** A decoder identifies by the magics when it answers V1 or V2 only on a
    buffer that starts with the corresponding magic. *)
Definition identifies_by_magic (d : Decoder) : Prop :=
  forall b : Buffer,
    (identify d b = V1 -> slice b 0 (length v1Header) = v1Header) /\
    (identify d b = V2 -> slice b 0 (length v2Header) = v2Header).

(** A header the decoder [d] accepts, split from the payload that follows it:
    the v1 line for TCP4 whose addresses hold no carriage return, which the
    decoder parses into these addresses and ports; or a v2 header that starts
    with the binary magic, carries IPv4 addresses and is as long as its
    length field says. The last argument is the header the fields describe. *)
Inductive ValidHeader (d : Decoder) : Buffer -> Buffer -> ProxyHeaders -> Prop :=
  | valid_v1 (src dst : string) (srcPort dstPort : Z) (payload : Buffer) :
      CR ∉ Buffer_from src ->
      CR ∉ Buffer_from dst ->
      identify d (v1_line src dst srcPort dstPort ++ payload) = V1 ->
      parseV1 d (v1_line src dst srcPort dstPort ++ payload)
        = Some (mkV1 (mkPeer src srcPort) (mkPeer dst dstPort)) ->
      ValidHeader d (v1_line src dst srcPort dstPort) payload
        (mkProxyHeaders src srcPort dst dstPort)
  | valid_v2 (hdr payload : Buffer) (len : Z) (sa da : list Z) (sp dp : Z) :
      slice hdr 0 (length v2Header) = v2Header ->
      addrLength hdr = Some len ->
      Z.of_nat (length hdr) = 16 + len ->
      identify d (hdr ++ payload) = V2 ->
      parseV2 d (hdr ++ payload) = Some (mkV2 (IPv4ProxyAddress sa sp da dp)) ->
      ValidHeader d hdr payload
        (mkProxyHeaders (join_dot sa) sp (join_dot da) dp).

(** The argument [destroy(error, wasStrict)] hands to [socket.destroy] when the
    accumulated buffer is [b]. *)
Definition fatal_payload (options : ProxyOptions) (error : string)
    (wasStrict : bool) (b : Buffer) : option ProtocolError :=
  if wasStrict && ignoreStrictExceptions options then None
  else Some {| message := error; header := Some (toString_ascii b) |}.

(** The messages of the three fatal failures. *)
Definition msg_nonproxy : string := "non-PROXY protocol connection".
Definition msg_malformed : string := "PROXY protocol malformed header".
Definition msg_toolong : string := "PROXY header too long".

(** The shapes a [socket.destroy] argument takes: a strict rejection (only
    with [strict] set), or a too-long failure. *)
Definition fatal_ok (options : ProxyOptions) (err : option ProtocolError) : Prop :=
  exists b : Buffer,
    (strict options = true /\
     (err = fatal_payload options msg_nonproxy true b \/
      err = fatal_payload options msg_malformed true b)) \/
    err = fatal_payload options msg_toolong false b.

Definition allowed (options : ProxyOptions) (eff : Effect) : Prop :=
  match eff with
  | Destroy err => fatal_ok options err
  | _ => True
  end.

(** [c'] has the trace of [c] followed by [allowed] actions. *)
Definition extends (options : ProxyOptions) (c c' : Conn) : Prop :=
  exists tail, trace c' = trace c ++ tail /\ Forall (allowed options) tail.

(** [f] only appends to the trace, and what it appends is [allowed]. *)
Definition adds (options : ProxyOptions) (f : Conn -> Conn) : Prop :=
  forall c, extends options c (f c).

(** [r] returns at once when [socket.emit] is already [realEmit]. *)
Definition guarded (r : Conn -> Conn) : Prop :=
  forall c, emitIsReal c = true -> r c = c.

(** What a listener that runs during a replay leaves alone. *)
Record quiet (c c' : Conn) : Prop := mkQuiet {
  quiet_emit : emitIsReal c' = true;
  quiet_delivered : delivered (trace c') = delivered (trace c);
  quiet_history : history c' = history c;
  quiet_onend : has_onend c' = has_onend c;
}.

Definition quiet_listener (o : Conn -> Conn) : Prop :=
  forall c, emitIsReal c = true -> quiet c (o c).

(** The two ways a step of an intercepted connection with recorded events [h]
    can end: [restore] ran its replay, or nothing was replayed. *)
Definition replayed (h : list Event) (c c' : Conn) : Prop :=
  history c' = None /\ emitIsReal c' = true /\
  delivered (trace c') = delivered (trace c) ++ h.

Definition unreplayed (h : list Event) (c c' : Conn) : Prop :=
  history c' = Some h /\ delivered (trace c') = delivered (trace c).

(** The state the loop body has built when it decides, for the chunk
    [chunk] read from a connection in state [c] whose further unread data is
    [more]: the chunk is appended to [buf], and the protocol error is flagged
    when the prefix test fails. *)
Definition decided (c : Conn) (chunk : Buffer) (more : list Buffer) : Conn :=
  let c1 := set_buf (buf c ++ chunk) (set_readQueue more c) in
  if nonProxyPrefix (buf c ++ chunk) then set_protocolError true c1 else c1.

(** ** Sample connections and inputs *)

Definition peer0 : string * Z := ("10.0.0.9", 5555).

(** A connection just accepted by a server without a timeout. *)
Definition accepted (options : ProxyOptions) : Conn :=
  connectionListener options None None peer0 false false.

(** The same connection once [chunk] has arrived, before 'readable'. *)
Definition received (options : ProxyOptions) (chunk : Buffer) : Conn :=
  set_readQueue [chunk] (accepted options).

Definition permissive : ProxyOptions :=
  merge_options (Some (mkPartialProxyOptions (Some false) None None None)).

(** The request the tests send after the header (test/utils.ts). *)
Definition request_body : Buffer :=
  Buffer_from "GET /something/cool HTTP/1.1" ++ [LF]
  ++ Buffer_from "Host: www.stratum.to".

(** The three bytes of a truncated magic. *)
Definition pro : Buffer := Buffer_from "PRO".

(** The v2 header the tests build by default: LOCAL, DGRAM over IPv4,
    10.10.10.1:12456 to 10.10.10.254:80. *)
Definition v2_ipv4_header : Buffer :=
  v2Header ++ [x20; x12; x00; x0c]
  ++ [x0a; x0a; x0a; x01] ++ [x0a; x0a; x0a; xfe] ++ [x30; xa8] ++ [x00; x50].


(** "TELNET BABY" and the request body, as the tests send them. *)
Definition telnet : Buffer := Buffer_from "TELNET BABY" ++ request_body.

Definition hello : Buffer := Buffer_from "HELLO".

(** 108 bytes of ASCII with no carriage return: without and with the magic. *)
Definition long_ascii : Buffer := replicate 108 "A"%byte.
Definition long_v1 : Buffer := Buffer_from "PROXY " ++ replicate 102 "A"%byte.


(** The beginning of a v1 header, cut before its carriage return. *)
Definition half_v1 : Buffer := Buffer_from "PROXY TCP4 192.168.0.254 ".

(** A connection on which nothing has happened yet. *)
Record pristine (c : Conn) : Prop := mkPristine {
  pristine_emit : emitIsReal c = false;
  pristine_history : history c = Some [];
  pristine_queue : readQueue c = [];
  pristine_buf : buf c = [];
  pristine_flag : protocolError c = false;
}.

(** The properties [handOver] leaves on a socket in state [c]. *)
Definition props_after (options : ProxyOptions) (proxyInfo : option ProxyHeaders)
    (c : Conn) : gmap string Descriptor :=
  match proxyInfo with
  | Some info =>
      if negb (protocolError c)
      then defineSocketProperties (props c) info (overrideRemote options)
      else props c
  | None => props c
  end.

(** ** What a run is fed, and two counters on a trace *)

(** The events and the chunks among the inputs, each in order. *)
Definition emitted (inputs : list Input) : list Event :=
  omap (fun i => match i with Emit e => Some e | Arrive _ => None end) inputs.

Definition arrived (inputs : list Input) : list Buffer :=
  omap (fun i => match i with Arrive chunk => Some chunk | Emit _ => None end) inputs.

(** The number of [socket.end()] calls made by the timeout callback. *)
Definition ended (t : list Effect) : nat :=
  length (omap (fun x => match x with SocketEnd => Some tt | _ => None end) t).

(** The number of 'proxiedConnection' events emitted on the server. *)
Definition announced (t : list Effect) : nat :=
  length (omap (fun x => match x with ProxiedConnection => Some tt | _ => None end) t).

(** [ended] plus one while the timeout callback is still pending. *)
Definition timeout_budget (c : Conn) : nat :=
  (ended (trace c) + (if timeoutCallback c then 1 else 0))%nat.

(** ** TLS sockets (lines 25, 84-96 and 314-327) *)

Definition proxyProtocolFields : list string :=
  ["remoteAddress"; "remotePort"; "clientAddress"; "clientPort";
   "proxyAddress"; "proxyPort"].

(** The closure [function () { return tlsSocket._parent[propertyName]; }]:
    it reads the parent socket each time it is called. *)
Inductive Getter : Type :=
  | ParentProperty (propertyName : string).

Record GetterDescriptor : Type := mkGetterDescriptor {
  g_enumerable : bool;
  g_configurable : bool;
  g_get : Getter;
}.

(** A TLS socket: the raw socket it wraps, what its own accessors answer, and
    the properties defined on it by [defineProperty]. *)
Record TLSSocket : Type := mkTLSSocket {
  _parent : Conn;
  tls_builtin : string -> JsVal;
  tls_props : gmap string GetterDescriptor;
}.

Definition set_parent (p : Conn) (tlsSocket : TLSSocket) : TLSSocket :=
  mkTLSSocket p (tls_builtin tlsSocket) (tls_props tlsSocket).

Definition createTLSSocketPropertyGetter (propertyName : string) : Getter :=
  ParentProperty propertyName.

(** [defineProperty] (lines 90-96) for a getter that is a closure over the
    TLS socket. *)
Definition defineGetter (target : gmap string GetterDescriptor)
    (propertyName : string) (getter : Getter) : gmap string GetterDescriptor :=
  <[propertyName :=
      {| g_enumerable := false; g_configurable := true; g_get := getter |}]> target.

Definition defineTLSSocketProperties (tlsSocket : TLSSocket)
    (properties : list string) : TLSSocket :=
  foldl (fun t propertyName =>
           mkTLSSocket (_parent t) (tls_builtin t)
             (defineGetter (tls_props t) propertyName
                (createTLSSocketPropertyGetter propertyName)))
        tlsSocket properties.

(** The listener [createSecureConnectionListener(context, listener)] returns:
    the six properties are defined on the socket, which is then handed to
    [listener]. *)
Definition createSecureConnectionListener {A : Type} (listener : TLSSocket -> A)
    (socket : TLSSocket) : A :=
  listener (defineTLSSocketProperties socket proxyProtocolFields).

(** Calling a getter installed on [tlsSocket]. *)
Definition call_getter (getter : Getter) (tlsSocket : TLSSocket) : JsVal :=
  match getter with
  | ParentProperty propertyName => socket_get (_parent tlsSocket) propertyName
  end.

(** Reading a property of a TLS socket: a defined getter wins over the
    socket's own accessor. *)
Definition tls_socket_get (tlsSocket : TLSSocket) (propertyName : string) : JsVal :=
  match tls_props tlsSocket !! propertyName with
  | Some desc => call_getter (g_get desc) tlsSocket
  | None => tls_builtin tlsSocket propertyName
  end.

(** ** The server: its listeners and the registry of sockets (lines 132-173) *)

(** The listeners found on a server. Sockets are compared by identity, which
    is a number here. *)
Inductive Listener : Type :=
  | Attached (id : nat)                        (* attached by the module or its user *)
  | TheConnectionListener                      (* connectionListener *)
  | SecureConnectionListener (listener : Listener)
                                               (* createSecureConnectionListener(server, listener) *)
  | CloseSockets                               (* () => sockets.forEach(...) *)
  | FilterSocket                               (* filterSocket *)
  | TrackSocket.                               (* (socket) => { sockets.push(socket); ... } *)

(** An event emitter keeps, for each event, its listeners in the order they
    were added. *)
Record Server : Type := mkServer {
  handlers : gmap string (list Listener);
  proxyOptions : option ProxyOptions;
}.

Definition listeners (server : Server) (event : string) : list Listener :=
  default [] (handlers server !! event).

Definition removeAllListeners (event : string) (server : Server) : Server :=
  mkServer (delete event (handlers server)) (proxyOptions server).

Definition addListener (event : string) (listener : Listener) (server : Server)
  : Server :=
  mkServer (<[event := listeners server event ++ [listener]]> (handlers server))
           (proxyOptions server).

Definition replaceListeners (server : Server) : Server :=
  let connectionListeners := listeners server "connection" in
  let server := removeAllListeners "connection" server in
  let server := addListener "connection" TheConnectionListener server in
  let server :=
    foldl (fun s connectionListener => addListener "proxiedConnection" connectionListener s)
          server connectionListeners in
  let secureConnectionListeners := listeners server "secureConnection" in
  let server := removeAllListeners "secureConnection" server in
  let server :=
    foldl (fun s secureConnectionListener =>
             addListener "secureConnection"
               (SecureConnectionListener secureConnectionListener) s)
          server secureConnectionListeners in
  let server := addListener "close" CloseSockets server in
  let server := addListener "proxiedConnection" FilterSocket server in
  addListener "connection" TrackSocket server.

(** The function the default export puts in place of [createServer] and
    [createSecureServer] (lines 180-185), applied to the server the wrapped
    method returns. *)
Definition wrapped_create (options : ProxyOptions) (server : Server) : Server :=
  replaceListeners (mkServer (handlers server) (Some options)).

(** What the server's listeners do, in program order. *)
Inductive ServerEffect : Type :=
  | Intercept (socket : nat)                   (* connectionListener.call(server, socket) *)
  | Call (id : nat) (arg : option nat)         (* an attached listener is called *)
  | DefineTLS (socket : nat)                   (* defineTLSSocketProperties(socket, ...) *)
  | EndSocket (socket : nat)                   (* socket.end() *)
  | DestroySocket (socket : nat).              (* socket.destroy() *)

(** The closure variable [sockets] and the calls made so far. *)
Record ServerState : Type := mkServerState {
  sockets : list nat;
  effects : list ServerEffect;
}.

Definition record_effect (e : ServerEffect) (st : ServerState) : ServerState :=
  mkServerState (sockets st) (effects st ++ [e]).

(** [sockets = sockets.filter((s) => s !== socket)] *)
Definition filterSocket (socket : nat) (st : ServerState) : ServerState :=
  mkServerState (filter (fun s => s <> socket) (sockets st)) (effects st).

(** One listener called with the argument of the event; [None] stands for an
    event emitted without argument ('close'). The listeners that take a
    socket are attached to 'connection', 'secureConnection' and
    'proxiedConnection', which always carry one. *)
Fixpoint call_listener (listener : Listener) (arg : option nat) (st : ServerState)
  : ServerState :=
  match listener, arg with
  | Attached id, _ => record_effect (Call id arg) st
  | TheConnectionListener, Some socket => record_effect (Intercept socket) st
  | SecureConnectionListener l, Some socket =>
      call_listener l arg (record_effect (DefineTLS socket) st)
  | CloseSockets, _ =>
      foldl (fun st socket =>
               record_effect (DestroySocket socket)
                 (record_effect (EndSocket socket) st))
            st (sockets st)
  | FilterSocket, Some socket => filterSocket socket st
  | TrackSocket, Some socket =>
      mkServerState (sockets st ++ [socket]) (effects st)
  | _, None => st
  end.

(** [server.emit(event, arg)]: the listeners run in the order they were
    added. *)
Definition server_emit (server : Server) (event : string) (arg : option nat)
    (st : ServerState) : ServerState :=
  foldl (fun st listener => call_listener listener arg st) st
        (listeners server event).

(** A server as the wrapped module returns it: every listener is one the
    module or its user attached. *)
Definition plain (l : Listener) : bool :=
  match l with
  | Attached _ => true
  | _ => false
  end.

(** A server made by the wrapper, with the options of the wrapper, from a
    server of the module. *)
Definition wrapped_plain (options : ProxyOptions) (server : Server) : Prop :=
  exists made : Server,
    server = wrapped_create options made /\
    forall event, Forall (fun l => plain l = true) (listeners made event).

(** What changes the registry [sockets], a variable of the wrapper that all
    the servers it creates share: one of these servers emits 'connection' or
    'proxiedConnection' with a socket, the 'close' listener that the
    tracking listener put on a socket runs, or one of the servers emits
    'close'. The 'close' listener of a socket is called by the socket's
    original emit: while [socket.emit] is overridden a 'close' is recorded
    and the listener does not run. It calls [filterSocket(socket)] and then
    [socket.off('proxiedConnection', filterSocket)], which finds nothing to
    remove on the socket; on a socket that is not in the registry it changes
    nothing. *)
Inductive ServerEvent : Type :=
  | Accepted (server : Server) (socket : nat)
  | Proxied (server : Server) (socket : nat)
  | CloseListener (socket : nat)
  | ServerClosed (server : Server).

Definition serve (st : ServerState) (ev : ServerEvent) : ServerState :=
  match ev with
  | Accepted server socket => server_emit server "connection" (Some socket) st
  | Proxied server socket => server_emit server "proxiedConnection" (Some socket) st
  | CloseListener socket => filterSocket socket st
  | ServerClosed server => server_emit server "close" None st
  end.

Definition event_server (ev : ServerEvent) : option Server :=
  match ev with
  | Accepted server _ | Proxied server _ | ServerClosed server => Some server
  | CloseListener _ => None
  end.

(** ** The default export (lines 120-130 and 175-186) *)

(** A value the wrapped module exports, and its truthiness. *)
Inductive ModuleValue : Type :=
  | ModuleFunction (id : nat)
  | ModuleConstant (v : JsVal).

Definition truthy (v : option ModuleValue) : bool :=
  match v with
  | Some (ModuleFunction _) => true
  | Some (ModuleConstant (VString s)) => negb (String.eqb s EmptyString)
  | Some (ModuleConstant (VNumber n)) => negb (n =? 0)
  | Some (ModuleConstant VUndefined) => false
  | None => false
  end.

(** What the returned object holds under a key. *)
Inductive Export : Type :=
  | Copied (v : ModuleValue)                   (* exports[k] = iface[k] *)
  | TheOptions (options : ProxyOptions)        (* exports.options = options *)
  | Wrapper (method : string).                 (* the function of lines 180-185 *)

(** The default export; [None] as argument is a [null] or [undefined]
    [iface], [None] as result the thrown error. *)
Definition proxy (iface : option (gmap string ModuleValue))
    (_options : option PartialProxyOptions) : option (gmap string Export) :=
  match iface with
  | None => None
  | Some iface =>
      let options := merge_options _options in
      let exports := <["options" := TheOptions options]> ∅ in
      let exports :=
        foldl (fun e kv => <[kv.1 := Copied kv.2]> e) exports (map_to_list iface) in
      Some (foldl (fun e method => <[method := Wrapper method]> e) exports
              (filter (fun method => truthy (iface !! method) = true)
                 ["createServer"; "createSecureServer"]))
  end.

(** ** Predicates and samples used by the further properties *)

(** A decoder that answers V1, V2 or NOT on every buffer, the three members
    of the library's [ProxyProtocolVersion]. *)
Definition identifies_always (d : Decoder) : Prop :=
  forall b : Buffer, identify d b <> OtherVersion.

(** [f] adds no [socket.destroy] with the error "PROXY header too long". *)
Definition keeps_short (f : Conn -> Conn) : Prop :=
  forall c,
    destroyed_with msg_toolong (trace (f c)) = destroyed_with msg_toolong (trace c).

(** [f] neither makes nor loses a [socket.end()] call of the timeout
    callback. *)
Definition keeps_budget (f : Conn -> Conn) : Prop :=
  forall c, timeout_budget (f c) = timeout_budget c.

(** A connection that has received no byte and on which nothing was
    destroyed or defined. *)
Definition no_bytes (c : Conn) : Prop :=
  readQueue c = [] /\ buf c = [] /\ props c = ∅ /\
  destroyed (trace c) = [] /\ handed (trace c) = [].

(** The sockets accepted by the server, in order. *)
Definition accepts (events : list ServerEvent) : list nat :=
  omap (fun ev => match ev with Accepted _ socket => Some socket | _ => None end)
       events.

(** A server with one 'connection' and one 'secureConnection' listener. *)
Definition sample_server : Server :=
  mkServer (<["connection" := [Attached 1%nat]]>
              (<["secureConnection" := [Attached 2%nat]]> ∅)) None.

(** * Properties *)

Arguments isHeaderCompleted : simpl never.
Arguments nonProxyPrefix : simpl never.
Arguments toString_ascii : simpl never.
Arguments defineSocketProperties : simpl never.

(** ** Buffers *)

Lemma equals_spec (a b : Buffer) : equals a b = true <-> a = b.
Proof.
  revert b; induction a as [|x a IH]; intros [|y b]; simpl; try (split; congruence).
  rewrite andb_true_iff, IH. split.
  - intros [Hxy ->]. f_equal. by apply Byte.byte_dec_bl.
  - intros [= -> ->]. split; [|done]. by apply Byte.byte_dec_lb.
Qed.

Lemma equals_false (a b : Buffer) : a <> b -> equals a b = false.
Proof.
  intros Hne. destruct (equals a b) eqn:E; [|done].
  by apply equals_spec in E.
Qed.

Lemma slice_0 (b : Buffer) (n : nat) : slice b 0 n = take n b.
Proof. unfold slice. by rewrite Nat.sub_0_r, drop_0. Qed.

Lemma slice_0_app (b rest : Buffer) (n : nat) :
  length (slice b 0 n) = n -> slice (b ++ rest) 0 n = slice b 0 n.
Proof.
  rewrite !slice_0, length_take. intros Hlen.
  apply take_app_le. lia.
Qed.

Lemma indexOf_app_first (line rest : Buffer) (x : byte) :
  x ∉ line -> indexOf (line ++ x :: rest) x = Some (length line).
Proof.
  induction line as [|y line IH]; simpl; intros Hnot.
  - by rewrite (Byte.byte_dec_lb (eq_refl x)).
  - apply not_elem_of_cons in Hnot as [Hne Hnot].
    destruct (Byte.eqb y x) eqn:E.
    + apply Byte.byte_dec_bl in E. congruence.
    + by rewrite IH.
Qed.

Lemma nonProxyPrefix_short (b : Buffer) :
  (length b < 12)%nat -> nonProxyPrefix b = false.
Proof.
  intros Hlen. unfold nonProxyPrefix.
  replace (Nat.max (length v1Header) (length v2Header)) with 12%nat by reflexivity.
  by rewrite (proj2 (Nat.leb_gt _ _) Hlen).
Qed.

Lemma nonProxyPrefix_v1 (b : Buffer) :
  slice b 0 (length v1Header) = v1Header -> nonProxyPrefix b = false.
Proof.
  intros H. unfold nonProxyPrefix.
  rewrite (proj2 (equals_spec _ _) H). simpl. by rewrite andb_false_r.
Qed.

Lemma nonProxyPrefix_v2 (b : Buffer) :
  slice b 0 (length v2Header) = v2Header -> nonProxyPrefix b = false.
Proof.
  intros H. unfold nonProxyPrefix.
  rewrite (proj2 (equals_spec _ _) H). simpl. by rewrite andb_false_r.
Qed.

Lemma nonProxyPrefix_true (b : Buffer) :
  (12 <= length b)%nat ->
  slice b 0 (length v1Header) <> v1Header ->
  slice b 0 (length v2Header) <> v2Header ->
  nonProxyPrefix b = true.
Proof.
  intros Hlen H1 H2. unfold nonProxyPrefix.
  rewrite (equals_false _ _ H1), (equals_false _ _ H2).
  replace (Nat.max (length v1Header) (length v2Header)) with 12%nat by reflexivity.
  by rewrite (proj2 (Nat.leb_le _ _) Hlen).
Qed.

(** ** The closure: replays and the recursion through [restore] *)

Lemma delivered_app (t1 t2 : list Effect) :
  delivered (t1 ++ t2) = delivered t1 ++ delivered t2.
Proof. unfold delivered. apply omap_app. Qed.

Lemma destroyed_app (t1 t2 : list Effect) :
  destroyed (t1 ++ t2) = destroyed t1 ++ destroyed t2.
Proof. unfold destroyed. apply omap_app. Qed.

Lemma quiet_trans (c1 c2 c3 : Conn) : quiet c1 c2 -> quiet c2 c3 -> quiet c1 c3.
Proof. intros [] []. split; congruence. Qed.

Lemma restore_with_guarded (L : Conn -> Conn) : guarded (restore_with L).
Proof. intros c H. unfold restore_with. rewrite H. by destruct (history c). Qed.

Section ClosureFacts.
Context (d : Decoder) (options : ProxyOptions).
Implicit Types (c : Conn) (R L O : Conn -> Conn).

Lemma loopBody_quiet R chunk c :
  guarded R -> emitIsReal c = true ->
  match loopBody d options R chunk c with
  | Return c' | Next c' => quiet c c'
  end.
Proof.
  intros HR Hc. unfold loopBody, handOver, legacy_ondata, destroy_with, unshift.
  repeat case_match; simplify_eq/=.
  all: rewrite ?HR by done.
  all: split; simpl; rewrite ?delivered_app, ?app_nil_r; done.
Qed.

Lemma whileChunk_quiet R queue c :
  guarded R -> emitIsReal c = true -> quiet c (whileChunk d options R queue c).
Proof.
  intros HR. revert c. induction queue as [|chunk queue IH]; intros c Hc; simpl.
  - by split.
  - pose proof (loopBody_quiet R chunk (set_readQueue queue c) HR Hc) as Hb.
    destruct (loopBody d options R chunk (set_readQueue queue c)) as [c'|c'].
    + destruct Hb. by split.
    + eapply quiet_trans; [|apply IH; apply Hb]. destruct Hb. by split.
Qed.

Lemma onReadable_with_quiet R : guarded R -> quiet_listener (onReadable_with d options R).
Proof.
  intros HR c Hc. unfold onReadable_with.
  destruct (readQueue c) as [|chunk queue] eqn:Hq.
  - destruct (buf c).
    + split; simpl; rewrite ?delivered_app, ?app_nil_r; done.
    + simpl. by split.
  - by apply whileChunk_quiet.
Qed.

(** Two guarded [restore]s are interchangeable below a replay. *)
Lemma loopBody_guarded_ext R R' chunk c :
  guarded R -> guarded R' -> emitIsReal c = true ->
  loopBody d options R chunk c = loopBody d options R' chunk c.
Proof.
  intros HR HR' Hc. unfold loopBody, handOver, legacy_ondata, destroy_with, unshift.
  simpl.
  destruct (nonProxyPrefix _), (strict options),
    (isHeaderCompleted d _) as [[[] []] rest],
    (protocolError c), (107 <? _)%nat, rest; simpl;
    rewrite ?HR, ?HR' by done; try done.
  all: repeat case_match; simpl; rewrite ?HR, ?HR' by done; done.
Qed.

Lemma whileChunk_guarded_ext R R' queue c :
  guarded R -> guarded R' -> emitIsReal c = true ->
  whileChunk d options R queue c = whileChunk d options R' queue c.
Proof.
  intros HR HR'. revert c.
  induction queue as [|chunk queue IH]; intros c Hc; [done|].
  simpl. rewrite (loopBody_guarded_ext R R') by done.
  pose proof (loopBody_quiet R' chunk (set_readQueue queue c) HR' Hc) as Hb.
  destruct (loopBody d options R' chunk (set_readQueue queue c)); [done|].
  apply IH, Hb.
Qed.

Lemma onReadable_with_guarded_ext R R' c :
  guarded R -> guarded R' -> emitIsReal c = true ->
  onReadable_with d options R c = onReadable_with d options R' c.
Proof.
  intros HR HR' Hc. unfold onReadable_with.
  destruct (readQueue c); [by destruct (buf c)|].
  by apply whileChunk_guarded_ext.
Qed.

Lemma replay_one_spec O c e :
  quiet_listener O -> emitIsReal c = true ->
  emitIsReal (replay_one O c e) = true /\
  delivered (trace (replay_one O c e)) = delivered (trace c) ++ [e] /\
  history (replay_one O c e) = history c /\
  has_onend (replay_one O c e) = has_onend c.
Proof.
  intros HO Hc. unfold replay_one, realEmit.
  assert (Hl : emitIsReal (log (RealEmit e) c) = true) by done.
  destruct (HO _ Hl) as [H1 H2 H3 H4]. simpl in H2, H3, H4.
  rewrite delivered_app in H2.
  repeat case_match; simpl;
    rewrite ?H1, ?H2, ?H3, ?H4, ?delivered_app, ?app_nil_r;
    simpl; rewrite ?app_nil_r; done.
Qed.

(** The replay loop hands the recorded events to [realEmit] in order, each
    once, and nothing else. *)
Lemma replay_spec O h c :
  quiet_listener O -> emitIsReal c = true ->
  emitIsReal (foldl (replay_one O) c h) = true /\
  delivered (trace (foldl (replay_one O) c h)) = delivered (trace c) ++ h /\
  history (foldl (replay_one O) c h) = history c.
Proof.
  intros HO. revert c. induction h as [|e h IH]; intros c Hc; simpl.
  - by rewrite app_nil_r.
  - destruct (replay_one_spec O c e HO Hc) as (H1 & H2 & H3 & _).
    destruct (IH _ H1) as (I1 & I2 & I3).
    rewrite I1, I2, I3, H2, H3, <- app_assoc. done.
Qed.

Lemma replay_ext O O' h c :
  (forall c, emitIsReal c = true -> O c = O' c) -> quiet_listener O' ->
  emitIsReal c = true ->
  foldl (replay_one O) c h = foldl (replay_one O') c h.
Proof.
  intros Hext HO'. revert c. induction h as [|e h IH]; intros c Hc; [done|].
  simpl.
  assert (replay_one O c e = replay_one O' c e) as ->.
  { unfold replay_one, realEmit. repeat case_match; try done.
    all: rewrite Hext in * by done; congruence. }
  apply IH. by apply replay_one_spec.
Qed.

Lemma restore_with_unfold O c :
  restore_with O c =
  match history c with
  | Some h =>
      if emitIsReal c then c
      else set_history None (foldl (replay_one O) (set_emitIsReal true c) h)
  | None => c
  end.
Proof. reflexivity. Qed.

(** The listener below the innermost [restore] is never reached: whatever
    it is, the replay is the one of [restore]. *)
Lemma restore_with_inner L c :
  restore_with (onReadable_with d options (restore_with L)) c
  = restore d options c.
Proof.
  unfold restore. rewrite !restore_with_unfold.
  destruct (history c) as [h|]; [|done].
  destruct (emitIsReal c) eqn:Hc; [done|].
  f_equal. apply replay_ext; [| |done].
  - intros c' Hc'.
    apply onReadable_with_guarded_ext; auto using restore_with_guarded.
  - apply onReadable_with_quiet, restore_with_guarded.
Qed.

Lemma restore_guarded : guarded (restore d options).
Proof. apply restore_with_guarded. Qed.

Lemma onReadable_quiet : quiet_listener (onReadable d options).
Proof. apply onReadable_with_quiet, restore_guarded. Qed.

(** [restore] on a connection whose [socket.emit] is still overridden. *)
Lemma restore_replays c h :
  history c = Some h -> emitIsReal c = false ->
  replayed h c (restore d options c).
Proof.
  intros Hh Hc. unfold restore. rewrite restore_with_unfold, Hh, Hc.
  destruct (replay_spec
              (onReadable_with d options (restore_with (fun c => c)))
              h (set_emitIsReal true c)) as (H1 & H2 & H3); [|done|].
  { apply onReadable_with_quiet, restore_with_guarded. }
  by split; [|split].
Qed.

End ClosureFacts.

(** ** The trace only grows, and every [socket.destroy] has a known shape *)

Lemma fatal_ok_strict (options : ProxyOptions) (msg : string) (b : Buffer) :
  strict options = true -> msg = msg_nonproxy \/ msg = msg_malformed ->
  fatal_ok options (fatal_payload options msg true b).
Proof.
  intros Hs Hm. exists b. left. split; [done|].
  destruct Hm as [-> | ->]; auto.
Qed.

Lemma fatal_ok_toolong (options : ProxyOptions) (b : Buffer) :
  fatal_ok options (fatal_payload options msg_toolong false b).
Proof. exists b. by right. Qed.

Section Adds.
Context (d : Decoder) (options : ProxyOptions).
Implicit Types (c : Conn) (R L O : Conn -> Conn).

Lemma extends_refl c : extends options c c.
Proof. exists []. by rewrite app_nil_r. Qed.

Lemma extends_trans c1 c2 c3 :
  extends options c1 c2 -> extends options c2 c3 -> extends options c1 c3.
Proof.
  intros (t1 & H1 & A1) (t2 & H2 & A2). exists (t1 ++ t2).
  rewrite H2, H1, app_assoc. split; [done|]. by apply Forall_app.
Qed.

Lemma extends_same c c' : trace c' = trace c -> extends options c c'.
Proof. intros H. exists []. by rewrite app_nil_r. Qed.

Lemma extends_log eff c : allowed options eff -> extends options c (log eff c).
Proof. intros H. exists [eff]. split; [done|]. by constructor. Qed.

(** [destroy] is one [socket.destroy] followed by [restore]. *)
Lemma destroy_with_eq R msg ws c :
  destroy_with options R msg ws c
  = R (log (Destroy (fatal_payload options msg ws (buf c)))
           (set_protocolError true c)).
Proof.
  unfold destroy_with, fatal_payload. do 3 f_equal.
  by destruct ws, (ignoreStrictExceptions options).
Qed.

Ltac ext_walk HR :=
  repeat lazymatch goal with
    | |- extends _ ?c ?c => apply extends_refl
    | |- extends _ _ (log _ ?y) => apply (extends_trans _ y); [|apply extends_log]
    | |- extends _ _ (unshift _ _) => unfold unshift
    | |- extends _ _ (handOver _ _ _ _ _) => unfold handOver
    | |- extends _ _ (legacy_ondata _) => unfold legacy_ondata
    | |- extends _ _ (if ?b then _ else _) => destruct b eqn:?
    | |- extends _ _ (match ?b with _ => _ end) => destruct b eqn:?
    | |- extends _ _ (set_buf _ ?y) =>
        apply (extends_trans _ y); [|by apply extends_same]
    | |- extends _ _ (set_history _ ?y) =>
        apply (extends_trans _ y); [|by apply extends_same]
    | |- extends _ _ (set_protocolError _ ?y) =>
        apply (extends_trans _ y); [|by apply extends_same]
    | |- extends _ _ (set_isReadable _ ?y) =>
        apply (extends_trans _ y); [|by apply extends_same]
    | |- extends _ _ (set_emitIsReal _ ?y) =>
        apply (extends_trans _ y); [|by apply extends_same]
    | |- extends _ _ (removeListeners ?y) =>
        apply (extends_trans _ y); [|by apply extends_same]
    | |- extends _ _ (set_timeoutCallback _ ?y) =>
        apply (extends_trans _ y); [|by apply extends_same]
    | |- extends _ _ (set_readQueue _ ?y) =>
        apply (extends_trans _ y); [|by apply extends_same]
    | |- extends _ _ (set_props _ ?y) =>
        apply (extends_trans _ y); [|by apply extends_same]
    | |- extends _ _ (destroy_with _ _ _ _ _) => rewrite destroy_with_eq
    | |- extends _ _ (?R ?y) => apply (extends_trans _ y); [|apply HR]
    end.

Lemma loopBody_adds R chunk c :
  adds options R ->
  match loopBody d options R chunk c with
  | Return c' | Next c' => extends options c c'
  end.
Proof.
  intros HR. unfold loopBody.
  destruct (nonProxyPrefix _ && strict options) eqn:Hf.
  { apply andb_true_iff in Hf as [_ Hs]. ext_walk HR; try done.
    all: apply fatal_ok_strict; auto. }
  destruct (isHeaderCompleted d _) as [[hc pi] rest].
  destruct (hc || _).
  - destruct (strict options && is_null pi) eqn:Hs.
    { apply andb_true_iff in Hs as [Hs _]. ext_walk HR; try done.
      all: apply fatal_ok_strict; auto. }
    ext_walk HR; done.
  - destruct (107 <? _)%nat; ext_walk HR; try done.
    all: apply fatal_ok_toolong.
Qed.

Lemma whileChunk_adds R queue : adds options R -> adds options (whileChunk d options R queue).
Proof.
  intros HR. induction queue as [|chunk queue IH]; intros c; simpl.
  - apply extends_refl.
  - pose proof (loopBody_adds R chunk (set_readQueue queue c) HR) as Hb.
    destruct (loopBody d options R chunk (set_readQueue queue c)) as [c'|c'].
    + eapply extends_trans; [|exact Hb]. by apply extends_same.
    + eapply extends_trans; [|apply IH].
      eapply extends_trans; [|exact Hb]. by apply extends_same.
Qed.

Lemma onReadable_with_adds R : adds options R -> adds options (onReadable_with d options R).
Proof.
  intros HR c. unfold onReadable_with.
  destruct (readQueue c) as [|chunk queue] eqn:Hq.
  - destruct (buf c); [ext_walk HR; done|]. apply extends_refl.
  - by apply whileChunk_adds.
Qed.

Lemma realEmit_adds O e : adds options O -> adds options (realEmit O e).
Proof. intros HO c. unfold realEmit. ext_walk HO; done. Qed.

Lemma replay_one_adds O e c : adds options O -> extends options c (replay_one O c e).
Proof.
  intros HO. unfold replay_one.
  destruct (_ && _); ext_walk (realEmit_adds O e HO); done.
Qed.

Lemma replay_adds O h c : adds options O -> extends options c (foldl (replay_one O) c h).
Proof.
  intros HO. revert c. induction h as [|e h IH]; intros c; simpl.
  - apply extends_refl.
  - eapply extends_trans; [|apply IH]. by apply replay_one_adds.
Qed.

Lemma restore_with_adds O : adds options O -> adds options (restore_with O).
Proof.
  intros HO c. unfold restore_with.
  destruct (history c) as [h|]; [|apply extends_refl].
  destruct (emitIsReal c); [apply extends_refl|].
  eapply extends_trans; [|by apply extends_same].
  eapply extends_trans; [|by apply replay_adds]. by apply extends_same.
Qed.

Lemma restore_adds : adds options (restore d options).
Proof.
  apply restore_with_adds, onReadable_with_adds, restore_with_adds.
  intros c. apply extends_refl.
Qed.

Lemma onReadable_adds : adds options (onReadable d options).
Proof. apply onReadable_with_adds, restore_adds. Qed.

Lemma destroy_adds msg ws c :
  exists tail,
    trace (destroy d options msg ws c)
    = trace c ++ Destroy (fatal_payload options msg ws (buf c)) :: tail
    /\ Forall (allowed options) tail.
Proof.
  unfold destroy. rewrite destroy_with_eq.
  destruct (restore_adds
              (log (Destroy (fatal_payload options msg ws (buf c)))
                   (set_protocolError true c))) as (t & Ht & Ha).
  exists t. split; [|done]. rewrite Ht. simpl. by rewrite <- app_assoc.
Qed.

Lemma emit_override_adds e : adds options (emit_override d options e).
Proof.
  intros c. unfold emit_override.
  destruct (is_event "readable" e).
  { apply (extends_trans _ (set_isReadable true
             match history c with
             | Some h => set_history (Some (h ++ [e])) c
             | None => c
             end)); [|apply onReadable_adds].
    destruct (history c); by apply extends_same. }
  assert (extends options c
            (if is_event "end" e && negb (isReadable
                  match history c with
                  | Some h => set_history (Some (h ++ [e])) c
                  | None => c
                  end)
             then restore d options (log ProxiedConnection
                  match history c with
                  | Some h => set_history (Some (h ++ [e])) c
                  | None => c
                  end)
             else match history c with
                  | Some h => set_history (Some (h ++ [e])) c
                  | None => c
                  end)) as Hmid.
  { destruct (_ && _).
    - eapply extends_trans; [|apply restore_adds].
      eapply extends_trans; [|by apply extends_log].
      destruct (history c); by apply extends_same.
    - destruct (history c); by apply extends_same. }
  destruct (is_event "timeout" e); [|exact Hmid].
  eapply extends_trans; [exact Hmid|]. apply realEmit_adds, onReadable_adds.
Qed.

Lemma socket_emit_adds e : adds options (socket_emit d options e).
Proof.
  intros c. unfold socket_emit. destruct (emitIsReal c).
  - apply realEmit_adds, onReadable_adds.
  - apply emit_override_adds.
Qed.

Lemma run_adds inputs : adds options (fun c => run d options c inputs).
Proof.
  induction inputs as [|i inputs IH]; intros c; simpl.
  - apply extends_refl.
  - eapply extends_trans; [|apply IH].
    destruct i as [chunk|e]; simpl.
    + by apply extends_same.
    + apply socket_emit_adds.
Qed.

End Adds.

(** ** One chunk through [onReadable] *)

Section OneChunk.
Context (d : Decoder) (options : ProxyOptions).
Implicit Types (c : Conn) (R : Conn -> Conn).

Lemma onReadable_with_cons R c chunk more :
  readQueue c = chunk :: more ->
  onReadable_with d options R c =
  match loopBody d options R chunk (set_readQueue more c) with
  | Return c' => c'
  | Next c' => whileChunk d options R more c'
  end.
Proof. intros H. unfold onReadable_with. rewrite H. by destruct (buf c). Qed.

Lemma loopBody_nonproxy R chunk c :
  nonProxyPrefix (buf c ++ chunk) = true -> strict options = true ->
  loopBody d options R chunk c
  = Return (destroy_with options R msg_nonproxy true
              (set_protocolError true (set_buf (buf c ++ chunk) c))).
Proof. intros Hf Hs. unfold loopBody. simpl. by rewrite Hf, Hs. Qed.

Lemma loopBody_malformed_strict R chunk c rest :
  nonProxyPrefix (buf c ++ chunk) = false -> strict options = true ->
  isHeaderCompleted d (buf c ++ chunk) = (true, None, rest) ->
  loopBody d options R chunk c
  = Return (destroy_with options R msg_malformed true
              (removeListeners (set_buf (buf c ++ chunk) c))).
Proof.
  intros Hf Hs Hd. unfold loopBody. simpl. rewrite Hf. simpl.
  rewrite Hd. simpl. by rewrite Hs.
Qed.

(** The state the loop body works on once the prefix test has run. *)
Lemma loopBody_handOver R chunk c hc pi rest :
  nonProxyPrefix (buf c ++ chunk) && strict options = false ->
  isHeaderCompleted d (buf c ++ chunk) = (hc, pi, rest) ->
  hc || protocolError c || nonProxyPrefix (buf c ++ chunk) = true ->
  strict options && is_null pi = false ->
  loopBody d options R chunk c
  = Return (handOver options R pi rest
              (removeListeners
                 (if nonProxyPrefix (buf c ++ chunk)
                  then set_protocolError true (set_buf (buf c ++ chunk) c)
                  else set_buf (buf c ++ chunk) c))).
Proof.
  intros Hfs Hd Hor Hsn. unfold loopBody. simpl. rewrite Hfs.
  destruct (nonProxyPrefix (buf c ++ chunk)); simpl; rewrite Hd; simpl.
  - by rewrite orb_true_r, Hsn.
  - rewrite orb_false_r in Hor. by rewrite Hor, Hsn.
Qed.

Lemma isHeaderCompleted_incomplete (b : Buffer) :
  (isHeaderCompleted d b).1.1 = false -> isHeaderCompleted d b = (false, None, b).
Proof. unfold isHeaderCompleted. by repeat case_match. Qed.

Lemma loopBody_undecided R chunk c :
  nonProxyPrefix (buf c ++ chunk) = false -> protocolError c = false ->
  (isHeaderCompleted d (buf c ++ chunk)).1.1 = false ->
  loopBody d options R chunk c
  = if (107 <? length (buf c ++ chunk))%nat
    then Return (destroy_with options R msg_toolong false (set_buf (buf c ++ chunk) c))
    else Next (set_buf (buf c ++ chunk) c).
Proof.
  intros Hf Hp Hd. apply isHeaderCompleted_incomplete in Hd.
  unfold loopBody. simpl. rewrite Hf. simpl. rewrite Hd. simpl. by rewrite Hp.
Qed.

Lemma handOver_restore pi rest c :
  handOver options (restore d options) pi rest c
  = legacy_ondata
      (log ProxiedConnection
         (unshift rest
            (set_emitIsReal true
               match pi with
               | Some info =>
                   if negb (protocolError c) then
                     set_props (defineSocketProperties (props c) info
                                  (overrideRemote options)) c
                   else c
               | None => c
               end))).
Proof.
  unfold handOver.
  match goal with |- context [restore d options ?x] =>
    rewrite (restore_guarded d options x); [done | by destruct rest] end.
Qed.
Lemma onReadable_with_idle R c :
  readQueue c = [] -> buf c <> [] -> onReadable_with d options R c = c.
Proof.
  intros Hq Hb. unfold onReadable_with. rewrite Hq.
  by destruct (buf c).
Qed.

(** [restore] when the only recorded event is the 'readable' that made
    [onReadable] run, and the replayed 'readable' finds nothing to do. *)
Lemma restore_first_readable c :
  history c = Some [readable] -> emitIsReal c = false ->
  readableListener c = false \/ (readQueue c = [] /\ buf c <> []) ->
  restore d options c
  = set_history None (log (RealEmit readable) (set_emitIsReal true c)).
Proof.
  intros Hh He Hidle. unfold restore. rewrite restore_with_unfold, Hh, He.
  f_equal. cbn [foldl]. unfold replay_one, realEmit.
  change (is_event "readable" readable) with true.
  change (is_event "end" readable) with false.
  change (is_event "timeout" readable) with false.
  cbn [andb].
  destruct Hidle as [Hl | [Hq Hb]].
  - cbn [readableListener log set_emitIsReal]. by rewrite Hl.
  - rewrite onReadable_with_idle by done. by destruct (readableListener _).
Qed.
End OneChunk.

(** ** The reference decoder identifies by the magics *)

Lemma reference_identifies_by_magic : identifies_by_magic reference_decoder.
Proof.
  intros b. simpl. unfold reference_identify.
  destruct (equals (slice b 0 12) v2Header) eqn:E2.
  - split; [done|]. intros _. by apply equals_spec.
  - destruct (equals (slice b 0 5) v1Header) eqn:E1; [|done].
    split; [|done]. intros _. by apply equals_spec.
Qed.

(** ** Options (C10) *)

Lemma merge_options_fields (o : PartialProxyOptions) :
  merge_options (Some o)
  = {| strict := default true (p_strict o);
       ignoreStrictExceptions := default false (p_ignoreStrictExceptions o);
       overrideRemote := default true (p_overrideRemote o);
       timeout := p_timeout o |}.
Proof. unfold merge_options, spread. simpl. by destruct (p_timeout o). Qed.

Lemma nonProxyPrefix_nonempty (b : Buffer) : nonProxyPrefix b = true -> b <> [].
Proof. by intros H ->. Qed.

(** C10. With no options the effective options are strict, with
    [ignoreStrictExceptions] off, [overrideRemote] on and no timeout; a field
    the caller supplies replaces that field only. With no options at all, a
    fresh connection whose first chunk starts with neither magic is destroyed
    and nothing is handed downstream, for every decoder that identifies by the
    magics and answers one of V1, V2 and NOT on that chunk. *)
Theorem default_options_and_strict_drop
    (d : Decoder) (self_timeout socket_timeout : option Z) (peer : string * Z)
    (ondata onend : bool) (chunk : Buffer) :
  identifies_by_magic d ->
  identify d chunk <> OtherVersion ->
  slice chunk 0 (length v1Header) <> v1Header ->
  slice chunk 0 (length v2Header) <> v2Header ->
  merge_options None = mkProxyOptions true false true None /\
  (forall o : PartialProxyOptions,
     merge_options (Some o)
     = mkProxyOptions (default true (p_strict o))
         (default false (p_ignoreStrictExceptions o))
         (default true (p_overrideRemote o)) (p_timeout o)) /\
  (exists msg : string,
     let c0 := connectionListener (merge_options None) self_timeout socket_timeout
                 peer ondata onend in
     let c' := run d (merge_options None) c0 [Arrive chunk; Emit readable] in
     trace c' = trace c0
                ++ [Destroy (Some (mkProtocolError msg (Some (toString_ascii chunk))));
                    RealEmit readable] /\
     props c' = ∅).
Proof.
  intros Hmagic Hother H1 H2. split; [done|]. split; [apply merge_options_fields|].
  set (options := merge_options None).
  set (c0 := connectionListener options self_timeout socket_timeout peer ondata onend).
  assert (run d options c0 [Arrive chunk; Emit readable]
          = onReadable d options
              (set_isReadable true (set_history (Some [readable])
                 (set_readQueue [chunk] c0)))) as Hrun by reflexivity.
  destruct (nonProxyPrefix chunk) eqn:Hf.
  - exists msg_nonproxy. cbv zeta. fold options. fold c0. rewrite Hrun.
    unfold onReadable.
    rewrite (onReadable_with_cons d options _ _ chunk []) by done.
    rewrite loopBody_nonproxy by done.
    rewrite destroy_with_eq.
    rewrite restore_first_readable; try done.
    + cbn. by rewrite <- app_assoc.
    + right. split; [done|]. by apply nonProxyPrefix_nonempty.
  - exists msg_malformed. cbv zeta. fold options. fold c0. rewrite Hrun.
    unfold onReadable.
    rewrite (onReadable_with_cons d options _ _ chunk []) by done.
    assert (isHeaderCompleted d chunk = (true, None, chunk)) as Hd.
    { unfold isHeaderCompleted. destruct (Hmagic chunk) as [Hv1 Hv2].
      destruct (identify d chunk); try done; [by destruct H1; auto | by destruct H2; auto]. }
    rewrite (loopBody_malformed_strict d options _ _ _ chunk) by done.
    rewrite destroy_with_eq.
    rewrite restore_first_readable; try done; [|by left].
    cbn. by rewrite <- app_assoc.
Qed.

Lemma default_options_and_strict_drop_witness :
  exists msg : string,
    trace (run reference_decoder (merge_options None)
             (connectionListener (merge_options None) None None
                ("10.0.0.9", 5555) false false)
             [Arrive (Buffer_from "GET / HTTP/1.0"); Emit readable])
    = [Destroy (Some (mkProtocolError msg
                        (Some (toString_ascii (Buffer_from "GET / HTTP/1.0")))));
       RealEmit readable].
Proof.
  destruct (default_options_and_strict_drop reference_decoder None None
              ("10.0.0.9", 5555) false false (Buffer_from "GET / HTTP/1.0"))
    as (_ & _ & msg & Htrace & _).
  - exact reference_identifies_by_magic.
  - vm_compute. discriminate.
  - vm_compute. discriminate.
  - vm_compute. discriminate.
  - exists msg. exact Htrace.
Defined.

(** ** Handing the connection over *)

Lemma handed_app (t1 t2 : list Effect) : handed (t1 ++ t2) = handed t1 ++ handed t2.
Proof. unfold handed. by rewrite omap_app, concat_app. Qed.

Section HandOver.
Context (d : Decoder) (options : ProxyOptions).
Implicit Types (c : Conn).

Lemma handOver_spec pi rest c :
  let c' := handOver options (restore d options) pi rest c in
  props c' = props_after options pi c /\
  downstream c' = handed (trace c) ++ rest ++ concat (readQueue c) /\
  destroyed (trace c') = destroyed (trace c) /\
  delivered (trace c') = delivered (trace c) /\
  history c' = history c /\
  emitIsReal c' = true /\
  protocolError c' = protocolError c /\
  peerAddress c' = peerAddress c /\ peerPort c' = peerPort c /\
  exists tail,
    trace c' = trace c ++ Unshift rest :: ProxiedConnection :: tail /\
    (tail = [] \/ exists data, tail = [Ondata data]).
Proof.
  cbv zeta. rewrite handOver_restore.
  unfold legacy_ondata, unshift, downstream, props_after.
  destruct pi as [info|], (protocolError c) eqn:Hp, rest as [|r0 rest],
    (has_ondata c) eqn:Ho, (readQueue c) as [|q0 q] eqn:Hq;
    simpl; rewrite ?Ho, ?Hq, ?Hp; simpl.
  all: rewrite ?destroyed_app, ?delivered_app, ?handed_app; simpl.
  all: rewrite ?app_nil_r, <- ?app_assoc; simpl.
  all: repeat split; try done.
  all: try (by eexists; split; [done|left]).
  all: try (by eexists; split; [done|right; eexists]).
  all: rewrite ?Hq; unfold handed; simpl; rewrite ?app_nil_r; done.
Qed.
End HandOver.

Lemma defineSocketProperties_derived (s : gmap string Descriptor) (pi : ProxyHeaders) (ov : bool) :
  let s' := defineSocketProperties s pi ov in
  s' !! "clientAddress" = Some (mkDescriptor false true (VString (remoteAddress pi))) /\
  s' !! "clientPort" = Some (mkDescriptor false true (VNumber (remotePort pi))) /\
  s' !! "proxyAddress" = Some (mkDescriptor false true (VString (localAddress pi))) /\
  s' !! "proxyPort" = Some (mkDescriptor false true (VNumber (localPort pi))) /\
  s' !! "remoteAddress"
    = (if ov then Some (mkDescriptor false true (VString (remoteAddress pi)))
       else s !! "remoteAddress") /\
  s' !! "remotePort"
    = (if ov then Some (mkDescriptor false true (VNumber (remotePort pi)))
       else s !! "remotePort").
Proof.
  cbv zeta. unfold defineSocketProperties, defineProperty, socketParams.
  cbn [foldl fst snd].
  destruct ov; repeat split; by simplify_map_eq.
Qed.

(** ** Policies of [onReadable] on one chunk (C2, C5, C6, C7) *)

Section Policies.
Context (d : Decoder) (options : ProxyOptions).
Implicit Types (c : Conn).

Lemma onReadable_cons c chunk more :
  readQueue c = chunk :: more ->
  onReadable d options c =
  match loopBody d options (restore d options) chunk (set_readQueue more c) with
  | Return c' => c'
  | Next c' => whileChunk d options (restore d options) more c'
  end.
Proof. apply onReadable_with_cons. Qed.

Lemma onReadable_nonproxy c chunk more :
  readQueue c = chunk :: more ->
  nonProxyPrefix (buf c ++ chunk) = true -> strict options = true ->
  onReadable d options c
  = destroy d options msg_nonproxy true (decided c chunk more).
Proof.
  intros Hq Hf Hs. rewrite (onReadable_cons c chunk more Hq).
  rewrite loopBody_nonproxy by done. unfold decided. by rewrite Hf.
Qed.

Lemma onReadable_malformed_strict c chunk more rest :
  readQueue c = chunk :: more ->
  nonProxyPrefix (buf c ++ chunk) = false -> strict options = true ->
  isHeaderCompleted d (buf c ++ chunk) = (true, None, rest) ->
  onReadable d options c
  = destroy d options msg_malformed true (removeListeners (decided c chunk more)).
Proof.
  intros Hq Hf Hs Hd. rewrite (onReadable_cons c chunk more Hq).
  rewrite (loopBody_malformed_strict d options _ _ _ rest) by done.
  unfold decided. by rewrite Hf.
Qed.

Lemma onReadable_handOver c chunk more hc pi rest :
  readQueue c = chunk :: more ->
  nonProxyPrefix (buf c ++ chunk) && strict options = false ->
  isHeaderCompleted d (buf c ++ chunk) = (hc, pi, rest) ->
  hc || protocolError c || nonProxyPrefix (buf c ++ chunk) = true ->
  strict options && is_null pi = false ->
  onReadable d options c
  = handOver options (restore d options) pi rest
      (removeListeners (decided c chunk more)).
Proof.
  intros Hq Hfs Hd Hor Hsn. rewrite (onReadable_cons c chunk more Hq).
  by rewrite (loopBody_handOver d options _ _ _ hc pi rest).
Qed.

Lemma onReadable_undecided c chunk more :
  readQueue c = chunk :: more ->
  nonProxyPrefix (buf c ++ chunk) = false -> protocolError c = false ->
  (isHeaderCompleted d (buf c ++ chunk)).1.1 = false ->
  onReadable d options c
  = if (107 <? length (buf c ++ chunk))%nat
    then destroy d options msg_toolong false (decided c chunk more)
    else whileChunk d options (restore d options) more (decided c chunk more).
Proof.
  intros Hq Hf Hp Hd. rewrite (onReadable_cons c chunk more Hq).
  rewrite loopBody_undecided by done. unfold decided. rewrite Hf. simpl.
  by destruct (107 <? _)%nat.
Qed.

Lemma decided_frame c chunk more :
  trace (decided c chunk more) = trace c /\
  buf (decided c chunk more) = buf c ++ chunk /\
  readQueue (decided c chunk more) = more /\
  props (decided c chunk more) = props c /\
  history (decided c chunk more) = history c /\
  emitIsReal (decided c chunk more) = emitIsReal c /\
  peerAddress (decided c chunk more) = peerAddress c /\
  peerPort (decided c chunk more) = peerPort c /\
  protocolError (decided c chunk more)
    = protocolError c || nonProxyPrefix (buf c ++ chunk).
Proof.
  unfold decided. destruct (nonProxyPrefix _); simpl;
    rewrite ?orb_true_r, ?orb_false_r; done.
Qed.

Lemma destroy_trace msg ws c :
  exists tail,
    trace (destroy d options msg ws c)
    = trace c ++ Destroy (fatal_payload options msg ws (buf c)) :: tail.
Proof. destruct (destroy_adds d options msg ws c) as (tail & H & _). eauto. Qed.

Lemma onReadable_malformed c chunk more :
  readQueue c = chunk :: more ->
  isHeaderCompleted d (buf c ++ chunk) = (true, None, buf c ++ chunk) ->
  (strict options = true -> nonProxyPrefix (buf c ++ chunk) = false ->
     exists tail,
       trace (onReadable d options c)
       = trace c
         ++ Destroy (fatal_payload options msg_malformed true (buf c ++ chunk))
            :: tail) /\
  (strict options = false ->
     destroyed (trace (onReadable d options c)) = destroyed (trace c) /\
     props (onReadable d options c) = props c /\
     downstream (onReadable d options c)
       = handed (trace c) ++ (buf c ++ chunk) ++ concat more /\
     exists tail,
       trace (onReadable d options c)
       = trace c ++ Unshift (buf c ++ chunk) :: ProxiedConnection :: tail /\
       (tail = [] \/ exists data, tail = [Ondata data])).
Proof.
  intros Hq Hd.
  destruct (decided_frame c chunk more) as (Ft & Fb & Fq & Fp & _). split.
  - intros Hs Hf.
    rewrite (onReadable_malformed_strict c chunk more (buf c ++ chunk)) by done.
    destruct (destroy_trace msg_malformed true
                (removeListeners (decided c chunk more))) as (tail & Ht).
    exists tail. rewrite Ht. simpl. by rewrite Ft, Fb.
  - intros Hs.
    rewrite (onReadable_handOver c chunk more true None (buf c ++ chunk));
      [|done|by rewrite Hs, andb_false_r|done|done|by rewrite Hs].
    destruct (handOver_spec d options None (buf c ++ chunk)
                (removeListeners (decided c chunk more)))
      as (Hp & Hdown & Hdes & _ & _ & _ & _ & _ & _ & tail & Ht & Htail).
    rewrite Hp, Hdown, Hdes, Ht. simpl. rewrite Ft, Fq, Fp. eauto 10.
Qed.


(** C3 (the code at the failing inputs). A buffer the decoder identifies as
    v1 that holds no carriage return yet, or identifies as v2 and cannot
    parse, passes the
    prefix test and is reported by [isHeaderCompleted] as completed with no
    header: in strict mode the connection is destroyed as malformed, in
    permissive mode it is handed over with the partial header as payload.
    Neither keeps buffering. *)
Theorem incomplete_header_is_reported_completed c chunk more :
  readQueue c = chunk :: more ->
  nonProxyPrefix (buf c ++ chunk) = false ->
  (identify d (buf c ++ chunk) = V1 /\ indexOf (buf c ++ chunk) CR = None) \/
  (identify d (buf c ++ chunk) = V2 /\ parseV2 d (buf c ++ chunk) = None) ->
  isHeaderCompleted d (buf c ++ chunk) = (true, None, buf c ++ chunk) /\
  (strict options = true ->
     exists tail,
       trace (onReadable d options c)
       = trace c
         ++ Destroy (fatal_payload options msg_malformed true (buf c ++ chunk))
            :: tail) /\
  (strict options = false ->
     exists tail,
       trace (onReadable d options c)
       = trace c ++ Unshift (buf c ++ chunk) :: ProxiedConnection :: tail).
Proof.
  intros Hq Hf Hcase.
  assert (isHeaderCompleted d (buf c ++ chunk) = (true, None, buf c ++ chunk))
    as Hd.
  { unfold isHeaderCompleted.
    by destruct Hcase as [[-> ->] | [-> ->]]. }
  destruct (onReadable_malformed c chunk more Hq Hd) as [Hstrict Hperm].
  split; [done|split]; [by auto|].
  intros Hs. destruct (Hperm Hs) as (_ & _ & _ & tail & Ht & _). eauto.
Qed.

Lemma socket_get_props c c' name :
  props c' = props c -> peerAddress c' = peerAddress c -> peerPort c' = peerPort c ->
  socket_get c' name = socket_get c name.
Proof. intros Hp Ha Hport. unfold socket_get. by rewrite Hp, Ha, Hport. Qed.

(** C6. When a header is decoded the socket gets the four getter-only
    properties: clientAddress/clientPort are the header's remote side and
    proxyAddress/proxyPort its local side; remoteAddress/remotePort read as
    the client's when [overrideRemote] is set and stay what they were
    otherwise. When the connection is handed over without a header, no
    property is defined and every accessor reads as before. *)
Theorem derived_socket_fields c chunk more :
  readQueue c = chunk :: more ->
  (forall info rest,
     isHeaderCompleted d (buf c ++ chunk) = (true, Some info, rest) ->
     nonProxyPrefix (buf c ++ chunk) = false ->
     protocolError c = false ->
     props (onReadable d options c) !! "clientAddress"
       = Some (mkDescriptor false true (VString (remoteAddress info))) /\
     props (onReadable d options c) !! "clientPort"
       = Some (mkDescriptor false true (VNumber (remotePort info))) /\
     props (onReadable d options c) !! "proxyAddress"
       = Some (mkDescriptor false true (VString (localAddress info))) /\
     props (onReadable d options c) !! "proxyPort"
       = Some (mkDescriptor false true (VNumber (localPort info))) /\
     socket_get (onReadable d options c) "remoteAddress"
       = (if overrideRemote options then VString (remoteAddress info)
          else socket_get c "remoteAddress") /\
     socket_get (onReadable d options c) "remotePort"
       = (if overrideRemote options then VNumber (remotePort info)
          else socket_get c "remotePort")) /\
  (forall hc rest,
     isHeaderCompleted d (buf c ++ chunk) = (hc, None, rest) ->
     strict options = false ->
     hc || protocolError c || nonProxyPrefix (buf c ++ chunk) = true ->
     props (onReadable d options c) = props c /\
     forall name, socket_get (onReadable d options c) name = socket_get c name).
Proof.
  intros Hq.
  destruct (decided_frame c chunk more)
    as (Ft & Fb & Fq & Fp & _ & _ & Fa & Fport & Fpe).
  split.
  - intros info rest Hd Hf Hp.
    rewrite (onReadable_handOver c chunk more true (Some info) rest);
      [|done|by rewrite Hf|done|done|by rewrite andb_false_r].
    destruct (handOver_spec d options (Some info) rest
                (removeListeners (decided c chunk more)))
      as (Hprops & _ & _ & _ & _ & _ & _ & Haddr & Hport & _).
    simpl in Hprops, Haddr, Hport.
    rewrite Fpe, Hp, Hf, Fp in Hprops. simpl in Hprops.
    destruct (defineSocketProperties_derived (props c) info (overrideRemote options))
      as (D1 & D2 & D3 & D4 & D5 & D6).
    unfold socket_get. rewrite Hprops, Haddr, Hport, Fa, Fport, D1, D2, D3, D4, D5, D6.
    by destruct (overrideRemote options).
  - intros hc rest Hd Hs Hor.
    rewrite (onReadable_handOver c chunk more hc None rest);
      [|done|by rewrite Hs, andb_false_r|done|done|by rewrite Hs].
    destruct (handOver_spec d options None rest
                (removeListeners (decided c chunk more)))
      as (Hprops & _ & _ & _ & _ & _ & _ & Haddr & Hport & _).
    simpl in Hprops, Haddr, Hport. rewrite Fp in Hprops.
    rewrite Fa in Haddr. rewrite Fport in Hport.
    split; [done|]. intros name. by apply socket_get_props.
Qed.

Lemma isHeaderCompleted_unidentified (b : Buffer) :
  identify d b <> V1 -> identify d b <> V2 ->
  exists hc, isHeaderCompleted d b = (hc, None, b).
Proof.
  intros H1 H2. unfold isHeaderCompleted.
  destruct (identify d b); try done; eauto.
Qed.

(** C2 (amended). The prefix test needs the longer of the two magics: a
    buffer of at least 12 bytes that starts with neither magic flags the
    protocol error. In strict mode the connection is destroyed at once with
    "non-PROXY protocol connection"; in permissive mode, for a decoder that
    identifies by the magics, the flag is set, nothing is destroyed, no
    property is defined and the whole buffer is unshifted as payload. A
    buffer shorter than 12 bytes is never flagged by the test. *)
Theorem nonproxy_prefix_policy c chunk more :
  identifies_by_magic d ->
  readQueue c = chunk :: more ->
  (12 <= length (buf c ++ chunk))%nat ->
  slice (buf c ++ chunk) 0 (length v1Header) <> v1Header ->
  slice (buf c ++ chunk) 0 (length v2Header) <> v2Header ->
  (strict options = true ->
     onReadable d options c
     = destroy d options msg_nonproxy true
         (set_protocolError true
            (set_buf (buf c ++ chunk) (set_readQueue more c))) /\
     exists tail,
       trace (onReadable d options c)
       = trace c
         ++ Destroy (fatal_payload options msg_nonproxy true (buf c ++ chunk))
            :: tail) /\
  (strict options = false ->
     protocolError (onReadable d options c) = true /\
     destroyed (trace (onReadable d options c)) = destroyed (trace c) /\
     props (onReadable d options c) = props c /\
     downstream (onReadable d options c)
       = handed (trace c) ++ (buf c ++ chunk) ++ concat more /\
     exists tail,
       trace (onReadable d options c)
       = trace c ++ Unshift (buf c ++ chunk) :: ProxiedConnection :: tail /\
       (tail = [] \/ exists data, tail = [Ondata data])) /\
  (forall short : Buffer, (length short < 12)%nat -> nonProxyPrefix short = false).
Proof.
  intros Hmagic Hq Hlen H1 H2.
  pose proof (nonProxyPrefix_true _ Hlen H1 H2) as Hf.
  destruct (decided_frame c chunk more) as (Ft & Fb & Fq & Fp & _ & _ & _ & _ & Fpe).
  split; [|split; [|apply nonProxyPrefix_short]].
  - intros Hs. rewrite (onReadable_nonproxy c chunk more) by done.
    unfold decided. rewrite Hf. split; [done|].
    destruct (destroy_trace msg_nonproxy true
                (set_protocolError true
                   (set_buf (buf c ++ chunk) (set_readQueue more c))))
      as (tail & Ht).
    exists tail. by rewrite Ht.
  - intros Hs.
    destruct (Hmagic (buf c ++ chunk)) as [Hv1 Hv2].
    destruct (isHeaderCompleted_unidentified (buf c ++ chunk)) as (hc & Hd);
      [by intros E; apply H1, Hv1 | by intros E; apply H2, Hv2 |].
    rewrite (onReadable_handOver c chunk more hc None (buf c ++ chunk));
      [|done|by rewrite Hs, andb_false_r|done|by rewrite Hf, orb_true_r
       |by rewrite Hs].
    destruct (handOver_spec d options None (buf c ++ chunk)
                (removeListeners (decided c chunk more)))
      as (Hp & Hdown & Hdes & _ & _ & _ & Hpe & _ & _ & tail & Ht & Htail).
    rewrite Hp, Hdown, Hdes, Ht, Hpe. simpl.
    rewrite Ft, Fq, Fp, Fpe, Hf, orb_true_r. eauto 10.
Qed.

End Policies.

(** ** Fatal errors (C8) *)

Lemma destroyed_allowed (options : ProxyOptions) (t : list Effect) :
  Forall (allowed options) t -> Forall (fatal_ok options) (destroyed t).
Proof.
  induction 1 as [|eff t Heff _ IH]; [constructor|].
  destruct eff; simpl; try done. by constructor.
Qed.

Lemma connectionListener_trace (options : ProxyOptions) st sockt peer ondata onend :
  destroyed (trace (connectionListener options st sockt peer ondata onend)) = [] /\
  delivered (trace (connectionListener options st sockt peer ondata onend)) = [] /\
  handed (trace (connectionListener options st sockt peer ondata onend)) = [].
Proof. unfold connectionListener. simpl. by repeat case_match. Qed.

(** C8. [destroy] calls [socket.destroy] with an error whose message is the
    reason and whose [header] is the accumulated buffer as ASCII, except that
    a strict rejection under [ignoreStrictExceptions] passes no error at all.
    Every [socket.destroy] of a run from a freshly accepted connection has one
    of these shapes: a strict rejection (non-PROXY or malformed, only in
    strict mode) or a too-long failure, which always carries its error. *)
Theorem fatal_errors_carry_header (d : Decoder) (options : ProxyOptions)
    (self_timeout socket_timeout : option Z) (peer : string * Z)
    (ondata onend : bool) (inputs : list Input) :
  (forall msg wasStrict c,
     exists tail,
       trace (destroy d options msg wasStrict c)
       = trace c ++ Destroy (fatal_payload options msg wasStrict (buf c)) :: tail) /\
  Forall (fatal_ok options)
    (destroyed (trace (run d options
                         (connectionListener options self_timeout socket_timeout
                            peer ondata onend) inputs))) /\
  (forall msg b,
     fatal_payload options msg true b
     = if ignoreStrictExceptions options then None
       else Some (mkProtocolError msg (Some (toString_ascii b)))) /\
  (forall msg b,
     fatal_payload options msg false b
     = Some (mkProtocolError msg (Some (toString_ascii b)))).
Proof.
  split; [|split; [|split]].
  - intros msg ws c. apply destroy_trace.
  - destruct (run_adds d options inputs
                (connectionListener options self_timeout socket_timeout peer
                   ondata onend)) as (tail & Ht & Ha).
    rewrite Ht, destroyed_app.
    destruct (connectionListener_trace options self_timeout socket_timeout peer
                ondata onend) as (-> & _).
    by apply destroyed_allowed.
  - done.
  - done.
Qed.

(** ** Round trip of a valid header (C1) *)

Lemma not_elem_of_indexOf (l : Buffer) (x : byte) : indexOf l x = None -> x ∉ l.
Proof.
  induction l as [|y l IH]; simpl; intros H; [by apply not_elem_of_nil|].
  destruct (Byte.eqb y x) eqn:E; [done|].
  apply not_elem_of_cons. split.
  - intros ->. by rewrite (Byte.byte_dec_lb (eq_refl y)) in E.
  - apply IH. by destruct (indexOf l x).
Qed.

(** The v1 line has no carriage return before its CRLF: the decimal text of
    a port is made of digits and a sign. *)

Lemma Buffer_from_cons (a : ascii) (s : string) :
  Buffer_from (String a s) = byte_of_ascii a :: Buffer_from s.
Proof. reflexivity. Qed.

Lemma Buffer_from_app (s1 s2 : string) :
  Buffer_from (s1 +:+ s2) = Buffer_from s1 ++ Buffer_from s2.
Proof.
  induction s1 as [|a s1 IH]; [done|].
  change (String a s1 +:+ s2) with (String a (s1 +:+ s2)).
  by rewrite !Buffer_from_cons, IH.
Qed.

Lemma pretty_N_char_no_cr (x : N) : byte_of_ascii (pretty_N_char x) <> CR.
Proof. unfold pretty_N_char. by repeat case_match. Qed.

Lemma pretty_N_go_no_cr (x : N) (s : string) :
  CR ∉ Buffer_from s -> CR ∉ Buffer_from (pretty_N_go x s).
Proof.
  revert s. induction (N.lt_wf_0 x) as [x _ IH]; intros s Hs.
  destruct (decide (0 < x)%N) as [Hx|Hx].
  - rewrite pretty_N_go_step by done. apply IH.
    + by apply N.div_lt.
    + rewrite Buffer_from_cons. apply not_elem_of_cons. split; [|done].
      intros E. by apply (pretty_N_char_no_cr (x `mod` 10)%N).
  - assert (x = 0%N) as -> by lia. by rewrite pretty_N_go_0.
Qed.

Lemma pretty_N_no_cr (x : N) : CR ∉ Buffer_from (pretty x).
Proof.
  unfold pretty, pretty_N. destruct (decide (x = 0%N)).
  - apply not_elem_of_indexOf. reflexivity.
  - apply pretty_N_go_no_cr, not_elem_of_nil.
Qed.

Lemma pretty_Z_no_cr (z : Z) : CR ∉ Buffer_from (pretty z).
Proof.
  unfold pretty, pretty_Z. destruct z as [|p|p].
  - apply not_elem_of_indexOf. reflexivity.
  - apply pretty_N_no_cr.
  - rewrite Buffer_from_app. apply not_elem_of_app. split.
    + apply not_elem_of_indexOf. reflexivity.
    + apply pretty_N_no_cr.
Qed.

Lemma v1_text_magic src dst sp dp :
  slice (v1_text src dst sp dp) 0 (length v1Header) = v1Header.
Proof. reflexivity. Qed.

Lemma v1_text_no_cr src dst sp dp :
  CR ∉ Buffer_from src -> CR ∉ Buffer_from dst -> CR ∉ v1_text src dst sp dp.
Proof.
  intros Hs Hd. unfold v1_text. rewrite !Buffer_from_app.
  rewrite !not_elem_of_app. repeat split; try done.
  all: try apply pretty_Z_no_cr.
  all: apply not_elem_of_indexOf; reflexivity.
Qed.

Section RoundTrip.
Context (d : Decoder) (options : ProxyOptions).

Lemma addrLength_app (hdr payload : Buffer) (len : Z) :
  addrLength hdr = Some len -> addrLength (hdr ++ payload) = Some len.
Proof.
  unfold addrLength, byte_at. intros H.
  destruct (hdr !! 15%nat) as [lo|] eqn:E15; [|done].
  destruct (hdr !! 14%nat) as [hi|] eqn:E14; [|done].
  by rewrite (lookup_app_l_Some _ _ _ _ E15), (lookup_app_l_Some _ _ _ _ E14).
Qed.

Lemma isHeaderCompleted_valid hdr payload info :
  ValidHeader d hdr payload info ->
  isHeaderCompleted d (hdr ++ payload) = (true, Some info, payload) /\
  nonProxyPrefix (hdr ++ payload) = false.
Proof.
  intros [src dst sp dp pl Hsrc Hdst Hid Hparse
         |h pl len sa da sp dp Hmagic Hlen Hsize Hid Hparse].
  - pose proof (v1_text_magic src dst sp dp) as Hmagic.
    pose proof (v1_text_no_cr src dst sp dp Hsrc Hdst) as Hcr.
    unfold v1_line in *. revert Hmagic Hcr Hid Hparse.
    generalize (v1_text src dst sp dp) as line. intros line Hmagic Hcr Hid Hparse.
    rewrite <- app_assoc. split.
    + unfold isHeaderCompleted. rewrite <- app_assoc in Hid, Hparse. rewrite Hid.
      change (line ++ [CR; LF] ++ pl) with (line ++ CR :: LF :: pl) in *.
      rewrite (indexOf_app_first line (LF :: pl) CR Hcr), Hparse.
      unfold mapV1ProxyInfo, slice_from. simpl. do 2 f_equal.
      replace (Z.to_nat (Z.of_nat (length line) + 2)) with (length line + 2)%nat
        by lia.
      by rewrite drop_app_add.
    + apply nonProxyPrefix_v1. rewrite slice_0_app; [done|].
      by rewrite Hmagic.
  - split.
    + unfold isHeaderCompleted. rewrite Hid, Hparse.
      rewrite (addrLength_app h pl len Hlen).
      unfold mapV2ProxyInfo, slice_from. simpl. do 2 f_equal.
      apply drop_app_length'. lia.
    + apply nonProxyPrefix_v2. rewrite slice_0_app; [done|].
      by rewrite Hmagic.
Qed.

Lemma run_first_readable (c : Conn) (chunk : Buffer) :
  emitIsReal c = false -> history c = Some [] ->
  run d options c [Arrive chunk; Emit readable]
  = onReadable d options
      (set_isReadable true
         (set_history (Some [readable])
            (set_readQueue (readQueue c ++ [chunk]) c))).
Proof.
  intros He Hh. simpl. unfold socket_emit. simpl. rewrite He.
  unfold emit_override. simpl. by rewrite Hh.
Qed.

Lemma connectionListener_pristine st sockt peer ondata onend :
  pristine (connectionListener options st sockt peer ondata onend).
Proof. by split. Qed.


End RoundTrip.

(** ** Recorded events and their replay (C4) *)

Section Replay.
Context (d : Decoder) (options : ProxyOptions).
Implicit Types (c : Conn) (h : list Event).

Lemma destroy_replays msg ws c c1 h :
  history c1 = Some h -> emitIsReal c1 = false ->
  delivered (trace c1) = delivered (trace c) ->
  replayed h c (destroy_with options (restore d options) msg ws c1).
Proof.
  intros Hh He Hd. rewrite destroy_with_eq.
  match goal with |- replayed _ _ (restore _ _ ?x) =>
    destruct (restore_replays d options x h) as (R1 & R2 & R3); [done..|] end.
  split; [done|split; [done|]]. rewrite R3. simpl.
  by rewrite delivered_app, Hd, app_nil_r.
Qed.

Lemma handOver_unreplayed pi rest c c1 h :
  history c1 = Some h -> delivered (trace c1) = delivered (trace c) ->
  unreplayed h c (handOver options (restore d options) pi rest c1).
Proof.
  intros Hh Hd.
  destruct (handOver_spec d options pi rest c1)
    as (_ & _ & _ & Hdel & Hhist & _).
  split; congruence.
Qed.

Lemma loopBody_outcome chunk c h :
  emitIsReal c = false -> history c = Some h ->
  match loopBody d options (restore d options) chunk c with
  | Return c' => replayed h c c' \/ unreplayed h c c'
  | Next c' => unreplayed h c c' /\ emitIsReal c' = false
  end.
Proof.
  intros He Hh. unfold loopBody.
  destruct (nonProxyPrefix _) eqn:Hf; simpl;
    destruct (strict options) eqn:Hs; simpl;
    try (left; by apply destroy_replays).
  all: destruct (isHeaderCompleted d _) as [[hc pi] rest]; simpl.
  all: rewrite ?orb_true_r.
  all: repeat case_match; simplify_eq; simpl.
  all: try (left; by apply destroy_replays).
  all: try (right; by apply handOver_unreplayed).
  all: by split.
Qed.

Lemma unreplayed_then h c1 c2 c3 :
  unreplayed h c1 c2 ->
  replayed h c2 c3 \/ unreplayed h c2 c3 ->
  replayed h c1 c3 \/ unreplayed h c1 c3.
Proof.
  intros [U1 U2] [(R1 & R2 & R3)|[V1 V2]]; [left|right].
  - split; [done|split; [done|]]. by rewrite R3, U2.
  - split; [done|]. by rewrite V2.
Qed.

Lemma whileChunk_outcome queue c h :
  emitIsReal c = false -> history c = Some h ->
  replayed h c (whileChunk d options (restore d options) queue c)
  \/ unreplayed h c (whileChunk d options (restore d options) queue c).
Proof.
  revert c. induction queue as [|chunk queue IH]; intros c He Hh; simpl.
  - right. by split.
  - pose proof (loopBody_outcome chunk (set_readQueue queue c) h He Hh) as Hb.
    destruct (loopBody d options (restore d options) chunk
                (set_readQueue queue c)) as [c'|c'].
    + exact Hb.
    + destruct Hb as [[U1 U2] He']. 
      eapply (unreplayed_then h c c'); [by split|]. by apply IH.
Qed.

Lemma onReadable_outcome c h :
  emitIsReal c = false -> history c = Some h ->
  replayed h c (onReadable d options c) \/ unreplayed h c (onReadable d options c).
Proof.
  intros He Hh. unfold onReadable, onReadable_with.
  destruct (readQueue c) as [|chunk queue] eqn:Hq.
  - destruct (buf c).
    + right. split; [done|]. simpl. by rewrite delivered_app, app_nil_r.
    + right. by split.
  - by apply whileChunk_outcome.
Qed.

Lemma is_event_end_not_timeout e : is_event "end" e = true -> is_event "timeout" e = false.
Proof. unfold is_event. intros H%String.eqb_eq. by rewrite H. Qed.

Lemma is_event_timeout_not_readable e :
  is_event "timeout" e = true -> is_event "readable" (mkEvent (ev_name e) []) = false.
Proof. unfold is_event. simpl. intros H%String.eqb_eq. by rewrite H. Qed.

(** A forwarded 'timeout': one delivery, and the pending callback ends the
    socket. *)
Lemma realEmit_timeout e c :
  is_event "timeout" e = true ->
  delivered (trace (realEmit (onReadable d options) (mkEvent (ev_name e) []) c))
  = delivered (trace c) ++ [mkEvent (ev_name e) []] /\
  history (realEmit (onReadable d options) (mkEvent (ev_name e) []) c) = history c.
Proof.
  intros Ht. unfold realEmit. rewrite (is_event_timeout_not_readable e Ht).
  simpl. destruct (_ && _); simpl; rewrite ?delivered_app; simpl;
    rewrite ?app_nil_r; done.
Qed.

Lemma restore_idempotent c :
  restore d options (restore d options c) = restore d options c.
Proof.
  unfold restore at 2 3. rewrite restore_with_unfold.
  destruct (history c) as [h|] eqn:Hh.
  - destruct (emitIsReal c) eqn:He.
    + unfold restore. by rewrite restore_with_unfold, Hh, He.
    + unfold restore. by rewrite restore_with_unfold.
  - unfold restore. by rewrite restore_with_unfold, Hh.
Qed.

(** C4 (amended). While [socket.emit] is overridden with recorded events
    [h], emitting [e] ends in one of two ways. Either [restore] ran its
    replay (interception ended through [destroy], or through an 'end' that
    came before any 'readable'): every recorded event, [e] included, went to
    the original event path in recording order, once each, and the record
    is cleared. Or this step replayed nothing: [e] is recorded, and only a
    'timeout' is forwarded to the original path at once. A [destroy] always
    ends in the first way, and so does an 'end' before any 'readable'.
    [restore] is idempotent, and once [socket.emit] is put back every event
    is delivered directly, once, with no further replay. *)
Theorem replay_discipline c e h :
  history c = Some h -> emitIsReal c = false ->
  (replayed (h ++ [e]) c (socket_emit d options e c) \/
   (history (socket_emit d options e c) = Some (h ++ [e]) /\
    delivered (trace (socket_emit d options e c))
    = delivered (trace c)
      ++ (if is_event "timeout" e then [mkEvent (ev_name e) []] else []))) /\
  (forall msg wasStrict, replayed h c (destroy d options msg wasStrict c)) /\
  (is_event "end" e = true -> isReadable c = false ->
   replayed (h ++ [e]) c (socket_emit d options e c)) /\
  restore d options (restore d options c) = restore d options c /\
  (forall c2 : Conn,
     emitIsReal c2 = true ->
     delivered (trace (socket_emit d options e c2)) = delivered (trace c2) ++ [e] /\
     history (socket_emit d options e c2) = history c2 /\
     emitIsReal (socket_emit d options e c2) = true).
Proof.
  intros Hh He.
  assert (is_event "end" e = true -> isReadable c = false ->
          replayed (h ++ [e]) c (socket_emit d options e c)) as Hend.
  { intros Eend Hr. unfold socket_emit. rewrite He. unfold emit_override.
    rewrite Hh.
    assert (is_event "readable" e = false) as ->.
    { unfold is_event in *. apply String.eqb_eq in Eend. by rewrite Eend. }
    rewrite Eend, (is_event_end_not_timeout e Eend). cbn [isReadable set_history].
    rewrite Hr. cbn [negb andb].
    destruct (restore_replays d options
                (log ProxiedConnection (set_history (Some (h ++ [e])) c))
                (h ++ [e])) as (R1 & R2 & R3); [done..|].
    split; [done|split; [done|]]. rewrite R3. simpl.
    by rewrite delivered_app, app_nil_r. }
  split; [|split; [|split; [exact Hend|split; [apply restore_idempotent|]]]].
  - unfold socket_emit. rewrite He. unfold emit_override. rewrite Hh.
    destruct (is_event "readable" e) eqn:Er.
    { assert (is_event "timeout" e = false) as ->.
      { unfold is_event in *. apply String.eqb_eq in Er. by rewrite Er. }
      rewrite app_nil_r.
      destruct (onReadable_outcome
                  (set_isReadable true (set_history (Some (h ++ [e])) c))
                  (h ++ [e])) as [R|U]; [done..|by left|by right]. }
    destruct (is_event "end" e && _) eqn:Eend.
    { apply andb_true_iff in Eend as [Eend _].
      rewrite (is_event_end_not_timeout e Eend). left.
      destruct (restore_replays d options
                  (log ProxiedConnection (set_history (Some (h ++ [e])) c))
                  (h ++ [e])) as (R1 & R2 & R3); [done..|].
      split; [done|split; [done|]]. rewrite R3. simpl.
      by rewrite delivered_app, app_nil_r. }
    right. destruct (is_event "timeout" e) eqn:Et.
    + destruct (realEmit_timeout e (set_history (Some (h ++ [e])) c) Et) as [D1 D2].
      by rewrite D1, D2.
    + simpl. by rewrite app_nil_r.
  - intros msg ws. unfold destroy. by apply destroy_replays.
  - intros c2 He2. unfold socket_emit. rewrite He2.
    unfold realEmit.
    assert (Hl : emitIsReal (log (RealEmit e) c2) = true) by done.
    destruct (onReadable_quiet d options _ Hl) as [Q1 Q2 Q3 Q4].
    simpl in Q2, Q3. rewrite delivered_app in Q2.
    repeat case_match; simpl; rewrite ?delivered_app, ?app_nil_r; done.
Qed.
End Replay.

(** ** A truncated magic (C9) *)

Section Truncated.
Context (d : Decoder) (options : ProxyOptions).
Implicit Types (c : Conn).

Lemma run_first_readable_end c chunk :
  emitIsReal c = false -> history c = Some [] ->
  run d options c [Arrive chunk; Emit readable; Emit end_]
  = socket_emit d options end_
      (onReadable d options
        (set_isReadable true
           (set_history (Some [readable])
              (set_readQueue (readQueue c ++ [chunk]) c)))).
Proof.
  intros He Hh.
  change (run d options c [Arrive chunk; Emit readable; Emit end_])
    with (socket_emit d options end_
            (run d options c [Arrive chunk; Emit readable])).
  by rewrite run_first_readable.
Qed.

Lemma socket_emit_end_real c :
  emitIsReal c = true ->
  trace (socket_emit d options end_ c) = trace c ++ [RealEmit end_].
Proof. intros He. unfold socket_emit. by rewrite He. Qed.

Lemma socket_emit_end_recorded c h :
  emitIsReal c = false -> isReadable c = true -> history c = Some h ->
  socket_emit d options end_ c = set_history (Some (h ++ [end_])) c.
Proof.
  intros He Hr Hh. unfold socket_emit, emit_override. rewrite He, Hh.
  change (is_event "readable" end_) with false.
  change (is_event "end" end_) with true.
  change (is_event "timeout" end_) with false.
  cbn [isReadable set_history]. by rewrite Hr.
Qed.

Lemma destroyed_with_app msg t1 t2 :
  destroyed_with msg (t1 ++ t2) = destroyed_with msg t1 || destroyed_with msg t2.
Proof. unfold destroyed_with. by rewrite destroyed_app, existsb_app. Qed.

Lemma destroyed_with_none msg t : destroyed t = [] -> destroyed_with msg t = false.
Proof. unfold destroyed_with. by intros ->. Qed.

Lemma pro_from (c0 : Conn) :
  pristine c0 -> destroyed (trace c0) = [] -> strict options = true ->
  destroyed_with msg_nonproxy
    (trace (run d options c0 [Arrive pro; Emit readable; Emit end_])) = false /\
  (forall rest,
     isHeaderCompleted d pro = (true, None, rest) ->
     destroyed (trace (run d options c0 [Arrive pro; Emit readable; Emit end_]))
     = [fatal_payload options msg_malformed true pro]).
Proof.
  intros [He Hh Hq Hb Hp] Hdes Hs.
  rewrite run_first_readable_end by done. rewrite Hq. simpl app.
  remember (set_isReadable true
              (set_history (Some [readable]) (set_readQueue [pro] c0)))
    as c1 eqn:Hc1.
  assert (buf c1 = [] /\ protocolError c1 = false /\ trace c1 = trace c0
          /\ readQueue c1 = [pro] /\ emitIsReal c1 = false
          /\ isReadable c1 = true /\ history c1 = Some [readable])
    as (Hb1 & Hp1 & Ht1 & Hq1 & He1 & Hr1 & Hh1) by (by subst c1).
  assert (nonProxyPrefix (buf c1 ++ pro) = false) as Hf by (by rewrite Hb1).
  assert (decided c1 pro [] = set_buf pro (set_readQueue [] c1)) as Hdec.
  { unfold decided. by rewrite Hf, Hb1. }
  destruct (isHeaderCompleted d pro) as [[hc pi] rest] eqn:Hd.
  destruct hc.
  - destruct pi as [info|].
    + (* a header was decoded: the connection is handed over *)
      rewrite (onReadable_handOver d options c1 pro [] true (Some info) rest);
        rewrite ?Hb1; simpl app;
        [|done|by rewrite Hs; vm_compute|done|done|by rewrite andb_false_r].
      rewrite Hdec.
      destruct (handOver_spec d options (Some info) rest
                  (removeListeners (set_buf pro (set_readQueue [] c1))))
        as (_ & _ & Hdes' & _ & _ & He' & _).
      rewrite socket_emit_end_real by done.
      simpl in Hdes'. rewrite Ht1, Hdes in Hdes'.
      split; [|done].
      rewrite destroyed_with_app, (destroyed_with_none _ _ Hdes'). done.
    + (* no header: a strict rejection as malformed *)
      rewrite (onReadable_malformed_strict d options c1 pro [] rest);
        rewrite ?Hb1; simpl app; [|done..].
      unfold destroy. rewrite destroy_with_eq.
      rewrite restore_first_readable; [|by rewrite Hdec|by rewrite Hdec|left; by rewrite Hdec].
      rewrite socket_emit_end_real by done.
      rewrite Hdec. simpl. rewrite Ht1.
      rewrite !destroyed_with_app, !destroyed_app, Hdes.
      rewrite (destroyed_with_none _ _ Hdes). simpl.
      split; [|done].
      unfold destroyed_with, fatal_payload. simpl.
      by destruct (ignoreStrictExceptions options).
  - (* the decoder asks for more: nothing happens, 'end' is only recorded *)
    rewrite (onReadable_undecided d options c1 pro []);
      rewrite ?Hb1; simpl app; [|done|done|done|by rewrite Hd].
    change (107 <? length pro)%nat with false. cbn [whileChunk].
    rewrite Hdec.
    rewrite (socket_emit_end_recorded _ [readable]) by done.
    simpl. rewrite Ht1, Hdes. split; [|done].
    by apply destroyed_with_none.
Qed.

Lemma pro_then_more_is_not_v2 (rest : Buffer) :
  slice (pro ++ rest) 0 (length v2Header) <> v2Header.
Proof. rewrite slice_0. done. Qed.

(** C9 (amended). In strict mode a connection that sends only "PRO" and
    then ends is never destroyed as a non-PROXY connection, whatever the
    decoder: three bytes are too few for the prefix test. When the decoder
    reports them completed with no header, the connection is destroyed with
    "PROXY protocol malformed header". The non-PROXY error is what a first
    chunk "PRO" followed by at least 9 more bytes gets (the tests send the
    request body right after the header), provided its first five bytes are
    not the v1 magic. *)
Theorem pro_alone_is_not_non_proxy
    (self_timeout socket_timeout : option Z) (peer : string * Z)
    (ondata onend : bool) :
  strict options = true ->
  destroyed_with msg_nonproxy
    (trace (run d options
              (connectionListener options self_timeout socket_timeout peer
                 ondata onend)
              [Arrive pro; Emit readable; Emit end_])) = false /\
  (forall rest,
     isHeaderCompleted d pro = (true, None, rest) ->
     destroyed
       (trace (run d options
                 (connectionListener options self_timeout socket_timeout peer
                    ondata onend)
                 [Arrive pro; Emit readable; Emit end_]))
     = [fatal_payload options msg_malformed true pro]) /\
  (forall rest : Buffer,
     (9 <= length rest)%nat ->
     slice (pro ++ rest) 0 (length v1Header) <> v1Header ->
     exists tail,
       trace (run d options
                (connectionListener options self_timeout socket_timeout peer
                   ondata onend)
                [Arrive (pro ++ rest); Emit readable])
       = trace (connectionListener options self_timeout socket_timeout peer
                  ondata onend)
         ++ Destroy (fatal_payload options msg_nonproxy true (pro ++ rest))
            :: tail).
Proof.
  intros Hs.
  destruct (connectionListener_trace options self_timeout socket_timeout peer
              ondata onend) as (Hdes & _).
  destruct (pro_from _ (connectionListener_pristine options self_timeout
                          socket_timeout peer ondata onend) Hdes Hs)
    as [P1 P2].
  split; [done|split; [done|]].
  intros rest Hlen Hv1.
  rewrite run_first_readable by done.
  set (c1 := set_isReadable true _).
  assert (nonProxyPrefix (buf c1 ++ pro ++ rest) = true) as Hf.
  { apply nonProxyPrefix_true; [|done|apply pro_then_more_is_not_v2].
    simpl. rewrite ?length_app. simpl. lia. }
  rewrite (onReadable_nonproxy d options c1 (pro ++ rest) []) by done.
  destruct (destroy_trace d options msg_nonproxy true
              (decided c1 (pro ++ rest) [])) as (tail & Ht).
  exists tail. rewrite Ht.
  destruct (decided_frame c1 (pro ++ rest) []) as (Ft & Fb & _).
  by rewrite Ft, Fb.
Qed.
End Truncated.

(** ** The theorems at concrete inputs *)

Lemma valid_v1_sample :
  ValidHeader reference_decoder
    (v1_line "192.168.0.254" "192.168.0.1" 3350 443) request_body
    (mkProxyHeaders "192.168.0.254" 3350 "192.168.0.1" 443).
Proof.
  apply (valid_v1 reference_decoder "192.168.0.254" "192.168.0.1" 3350 443
           request_body).
  - apply not_elem_of_indexOf. vm_compute. reflexivity.
  - apply not_elem_of_indexOf. vm_compute. reflexivity.
  - vm_compute. reflexivity.
  - vm_compute. reflexivity.
Defined.




(** C2, in permissive mode, on "TELNET BABY" followed by the request body. *)
Lemma nonproxy_prefix_policy_witness :
  protocolError (onReadable reference_decoder permissive (received permissive telnet))
    = true /\
  destroyed (trace (onReadable reference_decoder permissive
                      (received permissive telnet))) = [] /\
  downstream (onReadable reference_decoder permissive (received permissive telnet))
    = telnet.
Proof.
  destruct (nonproxy_prefix_policy reference_decoder permissive
              (received permissive telnet) telnet [])
    as (_ & Hperm & _).
  - exact reference_identifies_by_magic.
  - reflexivity.
  - vm_compute. lia.
  - vm_compute. discriminate.
  - vm_compute. discriminate.
  - destruct Hperm as (H1 & H2 & _ & H4 & _); [reflexivity|].
    split; [exact H1|]. split; [exact H2|].
    rewrite H4. vm_compute. reflexivity.
Defined.

(** C2 as stated fails on the five bytes "HELLO": they match neither magic,
    yet the prefix test does not flag them; strict mode destroys the
    connection as malformed, not as non-PROXY, and permissive mode leaves the
    flag clear. *)
Lemma five_bytes_are_not_flagged :
  length hello = 5%nat /\
  equals (slice hello 0 (length v1Header)) v1Header = false /\
  equals (slice hello 0 (length v2Header)) v2Header = false /\
  nonProxyPrefix hello = false /\
  destroyed (trace (run reference_decoder defaults (accepted defaults)
                      [Arrive hello; Emit readable]))
    = [fatal_payload defaults msg_malformed true hello] /\
  destroyed_with msg_nonproxy
    (trace (run reference_decoder defaults (accepted defaults)
              [Arrive hello; Emit readable])) = false /\
  protocolError (run reference_decoder permissive (accepted permissive)
                   [Arrive hello; Emit readable]) = false.
Proof. vm_compute. repeat split. Qed.

(** C3, at the first half of a v1 header in strict mode. *)
Lemma incomplete_header_is_reported_completed_witness :
  isHeaderCompleted reference_decoder half_v1 = (true, None, half_v1) /\
  exists tail,
    trace (onReadable reference_decoder defaults (received defaults half_v1))
    = Destroy (fatal_payload defaults msg_malformed true half_v1) :: tail.
Proof.
  destruct (incomplete_header_is_reported_completed reference_decoder defaults
              (received defaults half_v1) half_v1 [])
    as (Hd & Hstrict & _).
  - reflexivity.
  - vm_compute. reflexivity.
  - left. split; vm_compute; reflexivity.
  - split; [exact Hd|]. apply Hstrict. reflexivity.
Defined.

(** C4, at a 'timeout' emitted on a connection just accepted. *)
Lemma replay_discipline_witness :
  delivered (trace (socket_emit reference_decoder defaults timeout_
                      (accepted defaults))) = [timeout_] /\
  history (socket_emit reference_decoder defaults timeout_ (accepted defaults))
    = Some [timeout_].
Proof.
  destruct (replay_discipline reference_decoder defaults (accepted defaults)
              timeout_ []) as ([(Hn & _) | (Hh & Hd)] & _).
  - reflexivity.
  - reflexivity.
  - vm_compute in Hn. discriminate Hn.
  - split; [exact Hd | exact Hh].
Defined.

(** C4 as stated fails on a 'timeout': it reaches the original path when it
    is recorded, while the connection is still intercepted, and once more in
    the replay that follows a [destroy]. *)
Lemma recorded_timeout_is_delivered_twice :
  emitIsReal (run reference_decoder defaults (accepted defaults) [Emit timeout_])
    = false /\
  delivered (trace (run reference_decoder defaults (accepted defaults)
                      [Emit timeout_]))
    = [timeout_] /\
  destroyed (trace (run reference_decoder defaults (accepted defaults)
                      [Emit timeout_; Arrive telnet; Emit readable]))
    = [fatal_payload defaults msg_nonproxy true telnet] /\
  delivered (trace (run reference_decoder defaults (accepted defaults)
                      [Emit timeout_; Arrive telnet; Emit readable]))
    = [timeout_; timeout_; readable].
Proof. vm_compute. repeat split. Qed.


(** C6, with [overrideRemote] set, on the v2 header of the tests. *)
Lemma derived_socket_fields_witness :
  socket_get (onReadable reference_decoder defaults
                (received defaults (v2_ipv4_header ++ request_body)))
    "remoteAddress" = VString (join_dot [10; 10; 10; 1]) /\
  socket_get (onReadable reference_decoder defaults
                (received defaults (v2_ipv4_header ++ request_body)))
    "remotePort" = VNumber 12456.
Proof.
  destruct (derived_socket_fields reference_decoder defaults
              (received defaults (v2_ipv4_header ++ request_body))
              (v2_ipv4_header ++ request_body) []) as (Hproxy & _).
  - reflexivity.
  - destruct (Hproxy (mkProxyHeaders (join_dot [10; 10; 10; 1]) 12456
                        (join_dot [10; 10; 10; 254]) 80) request_body)
      as (_ & _ & _ & _ & H5 & H6).
    + vm_compute. reflexivity.
    + vm_compute. reflexivity.
    + reflexivity.
    + split; [exact H5 | exact H6].
Defined.

(** ** The length check is never reached (C7) *)

Lemma reference_identifies_always : identifies_always reference_decoder.
Proof. intros b. cbn. unfold reference_identify. by repeat case_match. Qed.

Lemma fatal_payload_short (options : ProxyOptions) (msg : string) (ws : bool)
    (b : Buffer) (t : list Effect) :
  String.eqb msg msg_toolong = false ->
  destroyed_with msg_toolong (t ++ [Destroy (fatal_payload options msg ws b)])
  = destroyed_with msg_toolong t.
Proof.
  intros Hm. rewrite destroyed_with_app. unfold destroyed_with at 2, fatal_payload.
  destruct (ws && _); cbn; rewrite ?Hm; by rewrite orb_false_r.
Qed.

Section NeverTooLong.
Context (d : Decoder) (options : ProxyOptions).
Hypothesis Hid : identifies_always d.
Implicit Types (c : Conn) (R L O : Conn -> Conn).

Lemma isHeaderCompleted_always (b : Buffer) : (isHeaderCompleted d b).1.1 = true.
Proof.
  pose proof (Hid b) as H. unfold isHeaderCompleted.
  destruct (identify d b); [by repeat case_match..|done].
Qed.

Lemma short_log eff c :
  match eff with Destroy _ => False | _ => True end ->
  destroyed_with msg_toolong (trace (log eff c)) = destroyed_with msg_toolong (trace c).
Proof.
  intros H. cbn [trace log]. rewrite destroyed_with_app.
  destruct eff; try done; by rewrite orb_false_r.
Qed.

Ltac short_walk HR :=
  repeat lazymatch goal with
    | |- destroyed_with _ (trace ?c) = destroyed_with _ (trace ?c) => reflexivity
    | |- destroyed_with _ (trace (log (Destroy (fatal_payload _ _ _ _)) ?y)) = _ =>
        transitivity (destroyed_with msg_toolong (trace y));
        [by apply fatal_payload_short|]
    | |- destroyed_with _ (trace (log _ ?y)) = _ =>
        transitivity (destroyed_with msg_toolong (trace y)); [by apply short_log|]
    | |- destroyed_with _ (trace (unshift _ _)) = _ => unfold unshift
    | |- destroyed_with _ (trace (handOver _ _ _ _ _)) = _ => unfold handOver
    | |- destroyed_with _ (trace (legacy_ondata _)) = _ => unfold legacy_ondata
    | |- destroyed_with _ (trace (if ?b then _ else _)) = _ => destruct b eqn:?
    | |- destroyed_with _ (trace (match ?b with _ => _ end)) = _ => destruct b eqn:?
    | |- destroyed_with _ (trace (set_buf _ ?y)) = _ =>
        transitivity (destroyed_with msg_toolong (trace y)); [reflexivity|]
    | |- destroyed_with _ (trace (set_history _ ?y)) = _ =>
        transitivity (destroyed_with msg_toolong (trace y)); [reflexivity|]
    | |- destroyed_with _ (trace (set_protocolError _ ?y)) = _ =>
        transitivity (destroyed_with msg_toolong (trace y)); [reflexivity|]
    | |- destroyed_with _ (trace (set_isReadable _ ?y)) = _ =>
        transitivity (destroyed_with msg_toolong (trace y)); [reflexivity|]
    | |- destroyed_with _ (trace (set_emitIsReal _ ?y)) = _ =>
        transitivity (destroyed_with msg_toolong (trace y)); [reflexivity|]
    | |- destroyed_with _ (trace (removeListeners ?y)) = _ =>
        transitivity (destroyed_with msg_toolong (trace y)); [reflexivity|]
    | |- destroyed_with _ (trace (set_timeoutCallback _ ?y)) = _ =>
        transitivity (destroyed_with msg_toolong (trace y)); [reflexivity|]
    | |- destroyed_with _ (trace (set_readQueue _ ?y)) = _ =>
        transitivity (destroyed_with msg_toolong (trace y)); [reflexivity|]
    | |- destroyed_with _ (trace (set_props _ ?y)) = _ =>
        transitivity (destroyed_with msg_toolong (trace y)); [reflexivity|]
    | |- destroyed_with _ (trace (destroy_with _ _ _ _ _)) = _ =>
        rewrite destroy_with_eq
    | |- destroyed_with _ (trace (?R ?y)) = _ =>
        transitivity (destroyed_with msg_toolong (trace y)); [apply HR|]
    end.

Lemma loopBody_short R chunk c :
  keeps_short R ->
  match loopBody d options R chunk c with
  | Return c' | Next c' =>
      destroyed_with msg_toolong (trace c') = destroyed_with msg_toolong (trace c)
  end.
Proof.
  intros HR. unfold loopBody.
  destruct (nonProxyPrefix _ && strict options); [by short_walk HR|].
  pose proof (isHeaderCompleted_always
                (buf (if nonProxyPrefix (buf (set_buf (buf c ++ chunk) c))
                      then set_protocolError true (set_buf (buf c ++ chunk) c)
                      else set_buf (buf c ++ chunk) c))) as Hc.
  destruct (isHeaderCompleted d _) as [[hc pi] rest]. cbn [fst] in Hc. subst hc.
  cbn [orb].
  destruct (strict options && is_null pi); by short_walk HR.
Qed.

Lemma whileChunk_short R queue :
  keeps_short R -> keeps_short (whileChunk d options R queue).
Proof.
  intros HR. induction queue as [|chunk queue IH]; intros c; simpl; [done|].
  pose proof (loopBody_short R chunk (set_readQueue queue c) HR) as Hb.
  destruct (loopBody d options R chunk (set_readQueue queue c)) as [c'|c'].
  - by rewrite Hb.
  - by rewrite IH, Hb.
Qed.

Lemma onReadable_with_short R :
  keeps_short R -> keeps_short (onReadable_with d options R).
Proof.
  intros HR c. unfold onReadable_with.
  destruct (readQueue c) as [|chunk queue] eqn:Hq.
  - destruct (buf c); [by short_walk HR|done].
  - by apply whileChunk_short.
Qed.

Lemma realEmit_short O e : keeps_short O -> keeps_short (realEmit O e).
Proof. intros HO c. unfold realEmit. by short_walk HO. Qed.

Lemma replay_one_short O e c :
  keeps_short O ->
  destroyed_with msg_toolong (trace (replay_one O c e))
  = destroyed_with msg_toolong (trace c).
Proof.
  intros HO. unfold replay_one.
  destruct (_ && _); short_walk (realEmit_short O e HO); done.
Qed.

Lemma replay_short O h c :
  keeps_short O ->
  destroyed_with msg_toolong (trace (foldl (replay_one O) c h))
  = destroyed_with msg_toolong (trace c).
Proof.
  intros HO. revert c. induction h as [|e h IH]; intros c; simpl; [done|].
  by rewrite IH, replay_one_short.
Qed.

Lemma restore_with_short O : keeps_short O -> keeps_short (restore_with O).
Proof.
  intros HO c. rewrite restore_with_unfold.
  destruct (history c) as [h|]; [|done].
  destruct (emitIsReal c); [done|].
  transitivity (destroyed_with msg_toolong
                  (trace (foldl (replay_one O) (set_emitIsReal true c) h)));
    [reflexivity|].
  by rewrite replay_short.
Qed.

Lemma restore_short : keeps_short (restore d options).
Proof.
  apply restore_with_short, onReadable_with_short, restore_with_short.
  by intros c.
Qed.

Lemma onReadable_short : keeps_short (onReadable d options).
Proof. apply onReadable_with_short, restore_short. Qed.

Lemma emit_override_short e : keeps_short (emit_override d options e).
Proof.
  intros c. unfold emit_override.
  destruct (is_event "readable" e).
  { rewrite onReadable_short. by destruct (history c). }
  assert (forall c1,
            destroyed_with msg_toolong (trace c1)
            = destroyed_with msg_toolong (trace c) ->
            destroyed_with msg_toolong
              (trace (if is_event "timeout" e
                      then realEmit (onReadable d options) (mkEvent (ev_name e) []) c1
                      else c1))
            = destroyed_with msg_toolong (trace c)) as Hk.
  { intros c1 H1. destruct (is_event "timeout" e); [|done].
    by rewrite (realEmit_short _ _ onReadable_short). }
  apply Hk. destruct (is_event "end" e && _).
  - rewrite restore_short. rewrite short_log; [|done]. by destruct (history c).
  - by destruct (history c).
Qed.

Lemma socket_emit_short e : keeps_short (socket_emit d options e).
Proof.
  intros c. unfold socket_emit. destruct (emitIsReal c).
  - apply realEmit_short, onReadable_short.
  - apply emit_override_short.
Qed.

Lemma run_short inputs c :
  destroyed_with msg_toolong (trace (run d options c inputs))
  = destroyed_with msg_toolong (trace c).
Proof.
  revert c. induction inputs as [|i inputs IH]; intros c; [done|].
  cbn [run foldl]. fold (run d options (step d options c i) inputs).
  rewrite IH. destruct i as [chunk|e]; [done|]. apply socket_emit_short.
Qed.

(** Whatever the chunk, the loop decides on it. *)
Lemma onReadable_decides c chunk more :
  readQueue c = chunk :: more ->
  (strict options = true /\
   exists msg tail,
     (msg = msg_nonproxy \/ msg = msg_malformed) /\
     trace (onReadable d options c)
     = trace c ++ Destroy (fatal_payload options msg true (buf c ++ chunk)) :: tail)
  \/ (exists rest tail,
        trace (onReadable d options c)
        = trace c ++ Unshift rest :: ProxiedConnection :: tail /\
        destroyed (trace (onReadable d options c)) = destroyed (trace c)).
Proof.
  intros Hq.
  destruct (decided_frame c chunk more) as (Dt & Db & _).
  destruct (nonProxyPrefix (buf c ++ chunk) && strict options) eqn:Hfs.
  { apply andb_true_iff in Hfs as [Hf Hs]. left. split; [done|].
    rewrite (onReadable_nonproxy d options c chunk more) by done.
    destruct (destroy_trace d options msg_nonproxy true (decided c chunk more))
      as (tail & Ht).
    exists msg_nonproxy, tail. split; [by left|]. by rewrite Ht, Dt, Db. }
  pose proof (isHeaderCompleted_always (buf c ++ chunk)) as Hc.
  destruct (isHeaderCompleted d (buf c ++ chunk)) as [[hc pi] rest] eqn:Hd.
  cbn [fst] in Hc. subst hc.
  destruct (strict options && is_null pi) eqn:Hsn.
  - apply andb_true_iff in Hsn as [Hs Hn]. rewrite Hs, andb_true_r in Hfs.
    destruct pi; [done|]. left. split; [done|].
    rewrite (onReadable_malformed_strict d options c chunk more rest) by done.
    destruct (destroy_trace d options msg_malformed true
                (removeListeners (decided c chunk more))) as (tail & Ht).
    exists msg_malformed, tail. split; [by right|].
    rewrite Ht. cbn [trace buf removeListeners]. by rewrite Dt, Db.
  - right.
    rewrite (onReadable_handOver d options c chunk more true pi rest) by done.
    destruct (handOver_spec d options pi rest (removeListeners (decided c chunk more)))
      as (_ & _ & Sx & _ & _ & _ & _ & _ & _ & tail & St & _).
    exists rest, tail. rewrite Sx, St. cbn [trace removeListeners]. by rewrite Dt.
Qed.

End NeverTooLong.

(** C7 (the code at the failing inputs). For a decoder that answers V1, V2
    or NOT on every buffer, as the library's identifier does,
    [isHeaderCompleted] never reports a header incomplete, so the length
    check of lines 305-307 is never reached: no run of a connection calls
    [socket.destroy] with "PROXY header too long", however many bytes
    arrive. Whatever the accumulated buffer, more than 107 bytes included,
    the loop decides on the chunk it has read: in strict mode the connection
    is destroyed as non-PROXY or as malformed, unless it is handed over;
    in permissive mode it is handed over, and nothing is destroyed. *)
Theorem header_too_long_is_never_reported (d : Decoder) (options : ProxyOptions) :
  identifies_always d ->
  (forall b : Buffer, (isHeaderCompleted d b).1.1 = true) /\
  (forall (self_timeout socket_timeout : option Z) (peer : string * Z)
          (ondata onend : bool) (inputs : list Input),
     destroyed_with msg_toolong
       (trace (run d options
                 (connectionListener options self_timeout socket_timeout peer
                    ondata onend) inputs)) = false) /\
  (forall c chunk more,
     readQueue c = chunk :: more ->
     (strict options = true /\
      exists msg tail,
        (msg = msg_nonproxy \/ msg = msg_malformed) /\
        trace (onReadable d options c)
        = trace c ++ Destroy (fatal_payload options msg true (buf c ++ chunk)) :: tail)
     \/ (exists rest tail,
           trace (onReadable d options c)
           = trace c ++ Unshift rest :: ProxiedConnection :: tail /\
           destroyed (trace (onReadable d options c)) = destroyed (trace c))).
Proof.
  intros Hid. split; [|split].
  - by apply isHeaderCompleted_always.
  - intros st sockt peer ondata onend inputs. rewrite run_short by done.
    apply destroyed_with_none.
    by destruct (connectionListener_trace options st sockt peer ondata onend).
  - intros c chunk more. by apply onReadable_decides.
Qed.

(** C7, on 108 bytes that start with the v1 magic and hold no carriage
    return: strict mode destroys the connection as malformed, permissive
    mode hands the 108 bytes downstream, and neither reports a header that
    is too long. *)
Lemma header_too_long_is_never_reported_witness :
  (destroyed_with msg_toolong
     (trace (run reference_decoder defaults (accepted defaults)
               [Arrive long_v1; Emit readable])) = false /\
   destroyed_with msg_toolong
     (trace (run reference_decoder permissive (accepted permissive)
               [Arrive long_v1; Emit readable])) = false) /\
  length long_v1 = 108%nat /\
  indexOf long_v1 CR = None /\
  trace (run reference_decoder defaults (accepted defaults)
           [Arrive long_v1; Emit readable])
  = [Destroy (fatal_payload defaults msg_malformed true long_v1); RealEmit readable] /\
  trace (run reference_decoder permissive (accepted permissive)
           [Arrive long_v1; Emit readable])
  = [Unshift long_v1; ProxiedConnection].
Proof.
  split.
  - destruct (header_too_long_is_never_reported reference_decoder defaults
                reference_identifies_always) as (_ & H1 & _).
    destruct (header_too_long_is_never_reported reference_decoder permissive
                reference_identifies_always) as (_ & H2 & _).
    split.
    + exact (H1 None None peer0 false false [Arrive long_v1; Emit readable]).
    + exact (H2 None None peer0 false false [Arrive long_v1; Emit readable]).
  - vm_compute. repeat split.
Defined.

(** 108 letters "A" fail the prefix test before any length is looked at:
    strict mode destroys the connection as non-PROXY, not as too long, and
    permissive mode hands all 108 bytes downstream. *)
Lemma long_ascii_is_rejected_as_non_proxy :
  length long_ascii = 108%nat /\
  indexOf long_ascii CR = None /\
  destroyed (trace (run reference_decoder defaults (accepted defaults)
                      [Arrive long_ascii; Emit readable]))
    = [fatal_payload defaults msg_nonproxy true long_ascii] /\
  destroyed_with msg_toolong
    (trace (run reference_decoder defaults (accepted defaults)
              [Arrive long_ascii; Emit readable])) = false /\
  destroyed (trace (run reference_decoder permissive (accepted permissive)
                      [Arrive long_ascii; Emit readable])) = [] /\
  downstream (run reference_decoder permissive (accepted permissive)
                [Arrive long_ascii; Emit readable]) = long_ascii.
Proof. vm_compute. repeat split. Qed.

(** C9, with the default options: "PRO" alone, and "PRO" followed by the
    request body. *)
Lemma pro_alone_is_not_non_proxy_witness :
  destroyed_with msg_nonproxy
    (trace (run reference_decoder defaults (accepted defaults)
              [Arrive pro; Emit readable; Emit end_])) = false /\
  exists tail,
    trace (run reference_decoder defaults (accepted defaults)
             [Arrive (pro ++ request_body); Emit readable])
    = Destroy (fatal_payload defaults msg_nonproxy true (pro ++ request_body))
      :: tail.
Proof.
  destruct (pro_alone_is_not_non_proxy reference_decoder defaults None None peer0
              false false) as (H1 & _ & H3).
  - reflexivity.
  - split; [exact H1|].
    apply (H3 request_body); [vm_compute; lia | vm_compute; discriminate].
Defined.

(** C9 as stated fails: "PRO" alone, then 'end', is destroyed with the
    malformed-header error. *)
Lemma pro_alone_is_destroyed_as_malformed :
  destroyed (trace (run reference_decoder defaults (accepted defaults)
                      [Arrive pro; Emit readable; Emit end_]))
    = [Some (mkProtocolError msg_malformed (Some "PRO"))] /\
  destroyed_with msg_nonproxy
    (trace (run reference_decoder defaults (accepted defaults)
              [Arrive pro; Emit readable; Emit end_])) = false.
Proof. vm_compute. repeat split. Qed.

(** * Further properties of the code *)

(** ** The header decoder wrapper and the properties it leads to *)

(** X1. Whatever the decoder answers, the rest [isHeaderCompleted] returns
    is the buffer with some prefix removed. The header is reported
    incomplete exactly when the decoder identifies none of V1, V2 and NOT.
    When no header is decoded the rest is the whole buffer, except for a v2
    header the decoder parses into an address that is not IPv4: its bytes
    are removed although no header is returned. A decoded header means the
    decoder identified V1, with a carriage return in the buffer, or V2, and
    parsed the buffer. *)
Theorem isHeaderCompleted_shape (d : Decoder) (b : Buffer) :
  (exists n : nat, (isHeaderCompleted d b).2 = drop n b) /\
  ((isHeaderCompleted d b).1.1 = false <-> identify d b = OtherVersion) /\
  ((isHeaderCompleted d b).1.2 = None ->
     (isHeaderCompleted d b).2 = b \/
     (identify d b = V2 /\ parseV2 d b = Some (mkV2 OtherProxyAddress))) /\
  (is_Some (isHeaderCompleted d b).1.2 ->
     (isHeaderCompleted d b).1.1 = true /\
     ((identify d b = V1 /\ is_Some (indexOf b CR) /\ is_Some (parseV1 d b)) \/
      (identify d b = V2 /\ is_Some (parseV2 d b)))).
Proof.
  unfold isHeaderCompleted, slice_from.
  destruct (identify d b) eqn:Hid; simpl.
  - destruct (indexOf b CR) eqn:Hi; simpl.
    + destruct (parseV1 d b) eqn:Hp; simpl.
      * split; [eauto|]. split; [split; done|]. split; [done|].
        intros _. split; [done|]. left. eauto.
      * split; [by exists 0%nat|]. split; [split; done|]. split; [by left|].
        by intros [? ?].
    + split; [by exists 0%nat|]. split; [split; done|]. split; [by left|].
      by intros [? ?].
  - destruct (parseV2 d b) as [[pa]|] eqn:Hp; simpl.
    + split.
      { destruct (addrLength b); simpl; [eauto|by exists 0%nat]. }
      split; [split; done|]. split.
      * unfold mapV2ProxyInfo. simpl. destruct pa; [done|]. intros _. by right.
      * intros _. split; [done|]. right. eauto.
    + split; [by exists 0%nat|]. split; [split; done|]. split; [by left|].
      by intros [? ?].
  - split; [by exists 0%nat|]. split; [split; done|]. split; [by left|].
    by intros [? ?].
  - split; [by exists 0%nat|]. split; [split; done|]. split; [by left|].
    by intros [? ?].
Qed.

Lemma defineProperty_lookup (s : gmap string Descriptor) (k name : string) (v : JsVal) :
  defineProperty s k v !! name
  = if decide (k = name) then Some (mkDescriptor false true v) else s !! name.
Proof.
  unfold defineProperty. destruct (decide (k = name)) as [->|Hne].
  - by rewrite lookup_insert_eq.
  - by rewrite lookup_insert_ne.
Qed.

Lemma defineSocketProperties_lookup (s : gmap string Descriptor) (pi : ProxyHeaders)
    (ov : bool) (name : string) :
  defineSocketProperties s pi ov !! name
  = if decide (name = "remotePort") then
      if ov then Some (mkDescriptor false true (VNumber (remotePort pi)))
      else s !! name
    else if decide (name = "remoteAddress") then
      if ov then Some (mkDescriptor false true (VString (remoteAddress pi)))
      else s !! name
    else if decide (name = "proxyPort") then
      Some (mkDescriptor false true (VNumber (localPort pi)))
    else if decide (name = "clientPort") then
      Some (mkDescriptor false true (VNumber (remotePort pi)))
    else if decide (name = "proxyAddress") then
      Some (mkDescriptor false true (VString (localAddress pi)))
    else if decide (name = "clientAddress") then
      Some (mkDescriptor false true (VString (remoteAddress pi)))
    else s !! name.
Proof.
  unfold defineSocketProperties, socketParams. cbn [foldl fst snd].
  destruct ov; rewrite !defineProperty_lookup;
    repeat (case_decide; simplify_eq; try done).
Qed.

Lemma proxyProtocolFields_elem (name : string) :
  name ∈ proxyProtocolFields <->
  name = "remoteAddress" \/ name = "remotePort" \/ name = "clientAddress" \/
  name = "clientPort" \/ name = "proxyAddress" \/ name = "proxyPort".
Proof.
  unfold proxyProtocolFields. rewrite !elem_of_cons, elem_of_nil. tauto.
Qed.

(** X2. [defineSocketProperties] touches the six names of
    [proxyProtocolFields] and no other property of the socket; with
    [overrideRemote] it defines exactly these six. A descriptor found after
    it was there before or is one of the six, non-enumerable and
    configurable, and a second header replaces what an earlier one
    defined. *)
Theorem defineSocketProperties_fields (s : gmap string Descriptor)
    (pi : ProxyHeaders) (ov : bool) (name : string) :
  (name ∉ proxyProtocolFields -> defineSocketProperties s pi ov !! name = s !! name) /\
  (is_Some (defineSocketProperties ∅ pi true !! name) <-> name ∈ proxyProtocolFields) /\
  (forall desc,
     defineSocketProperties s pi ov !! name = Some desc ->
     s !! name = Some desc \/
     (name ∈ proxyProtocolFields /\ enumerable desc = false /\ configurable desc = true)) /\
  (forall earlier : ProxyHeaders,
     defineSocketProperties (defineSocketProperties s earlier ov) pi ov
     = defineSocketProperties s pi ov).
Proof.
  split; [|split; [|split]].
  - rewrite proxyProtocolFields_elem, defineSocketProperties_lookup. intros Hn.
    repeat (case_decide; [exfalso; apply Hn; tauto|]). done.
  - rewrite proxyProtocolFields_elem, defineSocketProperties_lookup.
    repeat (case_decide; [split; [tauto|by eauto]|]).
    rewrite lookup_empty. split; [by intros [? ?]|tauto].
  - intros desc. rewrite proxyProtocolFields_elem, defineSocketProperties_lookup.
    repeat (case_decide;
            [try destruct ov; intros; simplify_eq; cbn; tauto|]).
    tauto.
  - intros earlier. apply map_eq. intros k.
    rewrite !defineSocketProperties_lookup.
    repeat (case_decide; [by try destruct ov|]). done.
Qed.

(** ** The first chunk of a connection *)

Section FirstChunk.
Context (d : Decoder) (options : ProxyOptions).
Implicit Types (c : Conn).

Lemma destroy_first_readable msg ws c :
  history c = Some [readable] -> emitIsReal c = false ->
  readableListener c = false \/ (readQueue c = [] /\ buf c <> []) ->
  destroy d options msg ws c
  = set_history None
      (log (RealEmit readable)
         (set_emitIsReal true
            (log (Destroy (fatal_payload options msg ws (buf c)))
               (set_protocolError true c)))).
Proof.
  intros Hh He Hl. unfold destroy. rewrite destroy_with_eq.
  by rewrite restore_first_readable.
Qed.

Lemma first_readable_cases (c0 : Conn) (chunk : Buffer) :
  pristine c0 ->
  let c' := run d options c0 [Arrive chunk; Emit readable] in
  (exists msg ws,
     (ws = true -> strict options = true) /\
     trace c'
     = trace c0 ++ [Destroy (fatal_payload options msg ws chunk); RealEmit readable] /\
     readQueue c' = [] /\ props c' = props c0)
  \/ (exists hc pi rest,
        isHeaderCompleted d chunk = (hc, pi, rest) /\
        nonProxyPrefix chunk && strict options = false /\
        strict options && is_null pi = false /\
        props c'
        = match pi with
          | Some info =>
              if nonProxyPrefix chunk then props c0
              else defineSocketProperties (props c0) info (overrideRemote options)
          | None => props c0
          end /\
        downstream c' = handed (trace c0) ++ rest /\
        destroyed (trace c') = destroyed (trace c0) /\
        exists tail,
          trace c' = trace c0 ++ Unshift rest :: ProxiedConnection :: tail /\
          (tail = [] \/ exists data, tail = [Ondata data]))
  \/ (trace c' = trace c0 /\ readQueue c' = [] /\ props c' = props c0 /\
      emitIsReal c' = false /\ buf c' = chunk).
Proof.
  intros [He Hh Hq Hb Hp]. intros c'. subst c'.
  rewrite (run_first_readable d options c0 chunk He Hh).
  set (c1 := set_isReadable true
               (set_history (Some [readable])
                  (set_readQueue (readQueue c0 ++ [chunk]) c0))).
  assert (readQueue c1 = [chunk]) as Hq1 by (simpl; by rewrite Hq).
  assert (buf c1 ++ chunk = chunk) as Hb1 by (simpl; by rewrite Hb).
  assert (protocolError c1 = false) as Hp1 by done.
  destruct (decided_frame c1 chunk []) as (Dt & Db & Dq & Dpr & Dh & De & _ & _ & Dpe).
  rewrite Hb1 in Db, Dpe. rewrite Hp1 in Dpe. simpl in Dpe.
  destruct (nonProxyPrefix chunk && strict options) eqn:Hfs.
  { apply andb_true_iff in Hfs as [Hf Hs]. left. exists msg_nonproxy, true.
    split; [done|].
    rewrite (onReadable_nonproxy d options c1 chunk []); [|done|by rewrite Hb1|done].
    rewrite destroy_first_readable; [|by rewrite Dh|by rewrite De|].
    - rewrite Db. cbn [trace readQueue props set_history log set_emitIsReal
                       set_protocolError].
      rewrite Dt, Dq, Dpr. simpl. by rewrite <- app_assoc.
    - right. split; [done|]. rewrite Db. by apply nonProxyPrefix_nonempty. }
  destruct (isHeaderCompleted d chunk) as [[hc pi] rest] eqn:Hd.
  destruct (hc || nonProxyPrefix chunk) eqn:Hhf.
  - destruct (strict options && is_null pi) eqn:Hsn.
    + apply andb_true_iff in Hsn as [Hs Hn]. rewrite Hs, andb_true_r in Hfs.
      rewrite Hfs, orb_false_r in Hhf. subst hc. destruct pi; [done|].
      left. exists msg_malformed, true. split; [done|].
      rewrite (onReadable_malformed_strict d options c1 chunk [] rest);
        [|done|by rewrite Hb1|done|by rewrite Hb1].
      rewrite destroy_first_readable;
        [|by cbn [history removeListeners]; rewrite Dh
         |by cbn [emitIsReal removeListeners]; rewrite De|by left].
      cbn [trace readQueue props set_history log set_emitIsReal
           set_protocolError removeListeners buf].
      rewrite Db, Dt, Dq, Dpr. simpl. by rewrite <- app_assoc.
    + right. left. exists hc, pi, rest. split; [done|]. split; [done|]. split; [done|].
      rewrite (onReadable_handOver d options c1 chunk [] hc pi rest);
        [|done|by rewrite Hb1|by rewrite Hb1|by rewrite Hb1, Hp1, orb_false_r|done].
      destruct (handOver_spec d options pi rest (removeListeners (decided c1 chunk [])))
        as (Sp & Sd & Sx & _ & _ & _ & _ & _ & _ & tail & St & Stl).
      split.
      { rewrite Sp. unfold props_after.
        cbn [protocolError props removeListeners]. rewrite Dpe, Dpr.
        destruct pi; [|done]. by destruct (nonProxyPrefix chunk). }
      split.
      { rewrite Sd. cbn [trace readQueue removeListeners]. rewrite Dt, Dq.
        simpl. by rewrite app_nil_r. }
      split.
      { rewrite Sx. cbn [trace removeListeners]. by rewrite Dt. }
      exists tail. split; [|done]. rewrite St. cbn [trace removeListeners].
      by rewrite Dt.
  - apply orb_false_iff in Hhf as [-> Hf].
    rewrite (onReadable_undecided d options c1 chunk []);
      [|done|by rewrite Hb1|done|by rewrite Hb1, Hd].
    rewrite Hb1. destruct (107 <? length chunk)%nat eqn:Hlen.
    + left. exists msg_toolong, false. split; [done|].
      rewrite destroy_first_readable; [|by rewrite Dh|by rewrite De|].
      * cbn [trace readQueue props set_history log set_emitIsReal
             set_protocolError buf].
        rewrite Db, Dt, Dq, Dpr. simpl. by rewrite <- app_assoc.
      * right. split; [done|]. rewrite Db. intros ->. done.
    + right. right. cbn [whileChunk]. by rewrite Dt, Dq, Dpr, De, Db.
Qed.

End FirstChunk.

Lemma isHeaderCompleted_rest_suffix (d : Decoder) (b : Buffer) :
  exists n : nat, (isHeaderCompleted d b).2 = drop n b.
Proof.
  unfold isHeaderCompleted, slice_from.
  repeat case_match; simpl; eauto; by exists 0%nat.
Qed.

Lemma isHeaderCompleted_decoded (d : Decoder) (b : Buffer) hc info rest :
  isHeaderCompleted d b = (hc, Some info, rest) -> hc = true.
Proof. unfold isHeaderCompleted. repeat case_match; by intros [= <- ? ?]. Qed.

Lemma ended_app (t1 t2 : list Effect) : ended (t1 ++ t2) = (ended t1 + ended t2)%nat.
Proof. unfold ended. by rewrite omap_app, length_app. Qed.

Lemma announced_app (t1 t2 : list Effect) :
  announced (t1 ++ t2) = (announced t1 + announced t2)%nat.
Proof. unfold announced. by rewrite omap_app, length_app. Qed.

Lemma connectionListener_counters (options : ProxyOptions) st sockt peer ondata onend :
  announced (trace (connectionListener options st sockt peer ondata onend)) = 0%nat /\
  ended (trace (connectionListener options st sockt peer ondata onend)) = 0%nat /\
  props (connectionListener options st sockt peer ondata onend) = ∅.
Proof. unfold connectionListener. simpl. by repeat case_match. Qed.

(** X3. After the first chunk of a connection has been read, what a
    downstream consumer gets from the socket (what [ondata] was handed, then
    the unread data) is that chunk with some prefix removed, for every
    decoder and all options: the interceptor takes bytes off the front and
    never adds, alters or reorders any. *)
Theorem first_chunk_downstream_is_suffix (d : Decoder) (options : ProxyOptions)
    (self_timeout socket_timeout : option Z) (peer : string * Z)
    (ondata onend : bool) (chunk : Buffer) :
  exists k : nat,
    downstream
      (run d options
         (connectionListener options self_timeout socket_timeout peer ondata onend)
         [Arrive chunk; Emit readable])
    = drop k chunk.
Proof.
  set (c0 := connectionListener options self_timeout socket_timeout peer ondata onend).
  destruct (connectionListener_trace options self_timeout socket_timeout peer
              ondata onend) as (_ & _ & H0).
  fold c0 in H0.
  destruct (first_readable_cases d options c0 chunk
              (connectionListener_pristine options _ _ _ _ _))
    as [(msg & ws & _ & Ht & Hq & _)|[(hc & pi & rest & Hd & _ & _ & _ & Hds & _)
                                     |(Ht & Hq & _)]].
  - exists (length chunk). unfold downstream. rewrite Ht, Hq, handed_app, H0.
    by rewrite drop_all.
  - destruct (isHeaderCompleted_rest_suffix d chunk) as [n Hn].
    rewrite Hd in Hn. simpl in Hn. exists n. by rewrite Hds, H0, Hn.
  - exists (length chunk). unfold downstream. rewrite Ht, Hq, H0.
    by rewrite drop_all.
Qed.

(** X4. On its first chunk a connection is announced with
    'proxiedConnection' at most once, and not at all when [socket.destroy]
    was called: a destroyed connection has no property defined and nothing
    left to read. In strict mode an announced connection always carries a
    decoded header: the decoder completed a header on a chunk that passed
    the prefix test, the properties are those of that header, the consumer
    reads the rest the decoder left, and nothing was destroyed. *)
Theorem first_chunk_rejected_or_announced (d : Decoder) (options : ProxyOptions)
    (self_timeout socket_timeout : option Z) (peer : string * Z)
    (ondata onend : bool) (chunk : Buffer) :
  let c' :=
    run d options
      (connectionListener options self_timeout socket_timeout peer ondata onend)
      [Arrive chunk; Emit readable] in
  (announced (trace c') <= 1)%nat /\
  (destroyed (trace c') <> [] ->
     announced (trace c') = 0%nat /\ downstream c' = [] /\ props c' = ∅) /\
  (strict options = true -> announced (trace c') = 1%nat ->
     exists info rest,
       isHeaderCompleted d chunk = (true, Some info, rest) /\
       nonProxyPrefix chunk = false /\
       props c' = defineSocketProperties ∅ info (overrideRemote options) /\
       downstream c' = rest /\
       destroyed (trace c') = []).
Proof.
  set (c0 := connectionListener options self_timeout socket_timeout peer ondata onend).
  destruct (connectionListener_trace options self_timeout socket_timeout peer
              ondata onend) as (Hx0 & _ & H0).
  destruct (connectionListener_counters options self_timeout socket_timeout peer
              ondata onend) as (Ha0 & _ & Hp0).
  fold c0 in Hx0, H0, Ha0, Hp0. intros c'. subst c'.
  destruct (first_readable_cases d options c0 chunk
              (connectionListener_pristine options _ _ _ _ _))
    as [(msg & ws & _ & Ht & Hq & Hp)
       |[(hc & pi & rest & Hd & Hfs & Hsn & Hp & Hds & Hx & tail & Ht & Htl)
        |(Ht & Hq & Hp & _)]].
  - assert (announced
              (trace (run d options c0 [Arrive chunk; Emit readable])) = 0%nat) as Ha
      by (by rewrite Ht, announced_app, Ha0).
    rewrite Ha. split; [lia|]. split; [|done]. intros _. split; [done|].
    split; [|by rewrite Hp]. unfold downstream. by rewrite Ht, Hq, handed_app, H0.
  - assert (announced
              (trace (run d options c0 [Arrive chunk; Emit readable])) = 1%nat) as Ha.
    { rewrite Ht, announced_app, Ha0. by destruct Htl as [->|[data ->]]. }
    rewrite Ha. split; [lia|]. split; [by rewrite Hx, Hx0|].
    intros Hs _. rewrite Hs in Hfs, Hsn. rewrite andb_true_r in Hfs. simpl in Hsn.
    destruct pi as [info|]; [|done]. exists info, rest.
    rewrite (isHeaderCompleted_decoded d chunk hc info rest Hd) in Hd.
    split; [done|]. split; [done|]. rewrite Hfs in Hp.
    split; [by rewrite Hp, Hp0|]. split; [by rewrite Hds, H0|]. by rewrite Hx, Hx0.
  - assert (announced
              (trace (run d options c0 [Arrive chunk; Emit readable])) = 0%nat) as Ha
      by (by rewrite Ht, Ha0).
    rewrite Ha. split; [lia|]. split; [|done]. by rewrite Ht, Hx0.
Qed.

(** ** Connections that deliver no byte *)

Lemma run_empty_readable (d : Decoder) (options : ProxyOptions) (c0 : Conn) :
  pristine c0 ->
  run d options c0 [Emit readable]
  = log ProxiedConnection
      (set_emitIsReal true
         (set_isReadable true (set_history (Some [readable]) c0))).
Proof.
  intros [He Hh Hq Hb Hp]. cbn [run foldl step]. unfold socket_emit. rewrite He.
  unfold emit_override. rewrite Hh.
  change (is_event "readable" readable) with true. cbn iota.
  unfold onReadable, onReadable_with. cbn [readQueue buf set_isReadable set_history].
  by rewrite Hq, Hb.
Qed.

Lemma run_empty_end (d : Decoder) (options : ProxyOptions) (c0 : Conn) :
  pristine c0 -> isReadable c0 = false ->
  run d options c0 [Emit end_]
  = (if has_onend c0 then log Onend else fun c => c)
      (set_history None
        (log (RealEmit end_)
           (set_emitIsReal true
             (log ProxiedConnection (set_history (Some [end_]) c0))))).
Proof.
  intros [He Hh Hq Hb Hp] Hr. cbn [run foldl step]. unfold socket_emit. rewrite He.
  unfold emit_override. rewrite Hh.
  change (is_event "readable" end_) with false.
  change (is_event "end" end_) with true.
  change (is_event "timeout" end_) with false. cbn iota.
  cbn [isReadable set_history]. rewrite Hr. cbn [negb andb].
  unfold restore. rewrite restore_with_unfold.
  cbn [history log set_history emitIsReal]. rewrite He.
  cbn [app foldl]. unfold replay_one, realEmit.
  change (is_event "readable" end_) with false.
  change (is_event "end" end_) with true.
  change (is_event "timeout" end_) with false. cbn [andb].
  cbn [has_onend log set_emitIsReal set_history]. by destruct (has_onend c0).
Qed.

Section NoBytes.
Context (d : Decoder) (options : ProxyOptions).
Implicit Types (c : Conn) (R O : Conn -> Conn).

Lemma no_bytes_log eff c :
  match eff with Destroy _ | Ondata _ => False | _ => True end ->
  no_bytes c -> no_bytes (log eff c).
Proof.
  intros Hne (Hq & Hb & Hp & Hx & Hh). repeat split; try done; cbn [trace log].
  - rewrite destroyed_app, Hx. by destruct eff.
  - rewrite handed_app, Hh. by destruct eff.
Qed.

Lemma onReadable_with_no_bytes R c : no_bytes c -> no_bytes (onReadable_with d options R c).
Proof.
  intros H. pose proof H as (Hq & Hb & _). unfold onReadable_with. rewrite Hq, Hb.
  apply no_bytes_log; [done|]. by destruct H as (? & ? & ? & ? & ?).
Qed.

Lemma realEmit_no_bytes O e c :
  (forall c, no_bytes c -> no_bytes (O c)) -> no_bytes c -> no_bytes (realEmit O e c).
Proof.
  intros HO H. unfold realEmit.
  assert (no_bytes (log (RealEmit e) c)) as H1 by (by apply no_bytes_log).
  destruct (_ && _); [by apply HO|].
  destruct (_ && _); [|done].
  apply no_bytes_log; [done|]. by destruct H1 as (? & ? & ? & ? & ?).
Qed.

Lemma replay_no_bytes O h c :
  (forall c, no_bytes c -> no_bytes (O c)) -> no_bytes c ->
  no_bytes (foldl (replay_one O) c h).
Proof.
  intros HO. revert c. induction h as [|e h IH]; intros c H; [done|].
  cbn [foldl]. apply IH. unfold replay_one.
  pose proof (realEmit_no_bytes O e c HO H) as H1.
  destruct (_ && _); [|done]. by apply no_bytes_log.
Qed.

Lemma restore_with_no_bytes O c :
  (forall c, no_bytes c -> no_bytes (O c)) -> no_bytes c -> no_bytes (restore_with O c).
Proof.
  intros HO H. rewrite restore_with_unfold.
  destruct (history c) as [h|]; [|done]. destruct (emitIsReal c); [done|].
  assert (no_bytes (foldl (replay_one O) (set_emitIsReal true c) h)) as H1.
  { apply replay_no_bytes; [done|]. by destruct H as (? & ? & ? & ? & ?). }
  by destruct H1 as (? & ? & ? & ? & ?).
Qed.

Lemma restore_no_bytes c : no_bytes c -> no_bytes (restore d options c).
Proof.
  apply restore_with_no_bytes. intros c1. apply onReadable_with_no_bytes.
Qed.

Lemma socket_emit_no_bytes e c : no_bytes c -> no_bytes (socket_emit d options e c).
Proof.
  intros H. unfold socket_emit. destruct (emitIsReal c).
  { apply realEmit_no_bytes; [|done]. intros c1. apply onReadable_with_no_bytes. }
  unfold emit_override.
  set (c1 := match history c with
             | Some h => set_history (Some (h ++ [e])) c
             | None => c
             end).
  assert (no_bytes c1) as H1.
  { unfold c1. destruct (history c); [|done]. by destruct H as (? & ? & ? & ? & ?). }
  destruct (is_event "readable" e).
  { apply onReadable_with_no_bytes. by destruct H1 as (? & ? & ? & ? & ?). }
  assert (no_bytes (if is_event "end" e && negb (isReadable c1)
                    then restore d options (log ProxiedConnection c1) else c1)) as H2.
  { destruct (_ && _); [|done]. apply restore_no_bytes. by apply no_bytes_log. }
  destruct (is_event "timeout" e); [|done].
  apply realEmit_no_bytes; [|done]. intros c2. apply onReadable_with_no_bytes.
Qed.

Lemma run_no_bytes events c :
  no_bytes c -> no_bytes (run d options c (map Emit events)).
Proof.
  revert c. induction events as [|e events IH]; intros c H; [done|].
  cbn [map run foldl step]. apply IH. by apply socket_emit_no_bytes.
Qed.

(** X5. A connection that delivers no byte is never destroyed and gets no
    property, whatever events are emitted on it, whatever the decoder and
    the options, strict mode included. A 'readable' with nothing to read
    announces the connection and puts [socket.emit] back while [onReadable]
    stays attached; an 'end' before any 'readable' announces it, replays the
    'end' and calls [socket.onend] when it is set. *)
Theorem empty_connection_is_never_rejected (self_timeout socket_timeout : option Z)
    (peer : string * Z) (ondata onend : bool) :
  let c0 := connectionListener options self_timeout socket_timeout peer ondata onend in
  (forall events : list Event,
     destroyed (trace (run d options c0 (map Emit events))) = [] /\
     props (run d options c0 (map Emit events)) = ∅ /\
     downstream (run d options c0 (map Emit events)) = []) /\
  (trace (run d options c0 [Emit readable]) = trace c0 ++ [ProxiedConnection] /\
   emitIsReal (run d options c0 [Emit readable]) = true /\
   readableListener (run d options c0 [Emit readable]) = true) /\
  (trace (run d options c0 [Emit end_])
   = trace c0 ++ [ProxiedConnection; RealEmit end_] ++ (if onend then [Onend] else []) /\
   emitIsReal (run d options c0 [Emit end_]) = true /\
   history (run d options c0 [Emit end_]) = None).
Proof.
  intros c0.
  pose proof (connectionListener_pristine options self_timeout socket_timeout peer
                ondata onend) as Hp.
  fold c0 in Hp.
  split; [|split].
  - intros events.
    assert (no_bytes c0) as H0.
    { destruct (connectionListener_trace options self_timeout socket_timeout peer
                  ondata onend) as (Hx0 & _ & Hh0).
      by repeat split. }
    destruct (run_no_bytes events c0 H0) as (Hq & Hb & Hpr & Hx & Hh).
    split; [done|]. split; [done|]. unfold downstream. by rewrite Hq, Hh.
  - by rewrite (run_empty_readable d options c0 Hp).
  - rewrite (run_empty_end d options c0 Hp eq_refl).
    change (has_onend c0) with onend.
    destruct onend;
      cbn [trace log set_history set_emitIsReal emitIsReal history];
      by rewrite <- !app_assoc.
Qed.

End NoBytes.

(** ** After the hand-over *)

Section PassThrough.
Context (d : Decoder) (options : ProxyOptions).
Implicit Types (c : Conn).

Lemma socket_emit_released e c :
  emitIsReal c = true -> readableListener c = false ->
  socket_emit d options e c
  = if is_event "timeout" e && timeoutCallback c
    then log SocketEnd (set_timeoutCallback false (log (RealEmit e) c))
    else log (RealEmit e) c.
Proof.
  intros He Hl. unfold socket_emit. rewrite He. unfold realEmit.
  cbn [readableListener log]. rewrite Hl. by rewrite andb_false_r.
Qed.

Lemma run_released inputs c :
  emitIsReal c = true -> readableListener c = false ->
  let c' := run d options c inputs in
  emitIsReal c' = true /\ readableListener c' = false /\
  delivered (trace c') = delivered (trace c) ++ emitted inputs /\
  readQueue c' = readQueue c ++ arrived inputs /\
  handed (trace c') = handed (trace c) /\
  destroyed (trace c') = destroyed (trace c) /\
  announced (trace c') = announced (trace c) /\
  props c' = props c /\ buf c' = buf c /\ history c' = history c /\
  protocolError c' = protocolError c.
Proof.
  revert c. induction inputs as [|i inputs IH]; intros c He Hl c'; subst c'.
  { cbn. by rewrite !app_nil_r. }
  cbn [run foldl]. fold (run d options (step d options c i) inputs).
  destruct i as [chunk|e].
  - destruct (IH (step d options c (Arrive chunk)) He Hl)
      as (H1 & H2 & H3 & H4 & H5 & H6 & H7 & H8 & H9 & H10 & H11).
    rewrite H1, H2, H3, H4, H5, H6, H7, H8, H9, H10, H11.
    cbn. by rewrite <- app_assoc.
  - assert (emitIsReal (step d options c (Emit e)) = true /\
            readableListener (step d options c (Emit e)) = false /\
            trace (step d options c (Emit e))
            = trace c ++ RealEmit e ::
                (if is_event "timeout" e && timeoutCallback c then [SocketEnd] else [])
            /\ readQueue (step d options c (Emit e)) = readQueue c
            /\ props (step d options c (Emit e)) = props c
            /\ buf (step d options c (Emit e)) = buf c
            /\ history (step d options c (Emit e)) = history c
            /\ protocolError (step d options c (Emit e)) = protocolError c)
      as (S1 & S2 & S3 & S4 & S5 & S6 & S7 & S8).
    { cbn [step]. rewrite socket_emit_released by done.
      destruct (_ && _); cbn; rewrite <- ?app_assoc; done. }
    destruct (IH (step d options c (Emit e)) S1 S2)
      as (H1 & H2 & H3 & H4 & H5 & H6 & H7 & H8 & H9 & H10 & H11).
    rewrite H1, H2, H3, H4, H5, H6, H7, H8, H9, H10, H11.
    rewrite S3, S4, S5, S6, S7, S8.
    rewrite delivered_app, handed_app, destroyed_app, announced_app.
    destruct (_ && _); cbn; rewrite <- ?app_assoc, ?app_nil_r; repeat split; try done; lia.
Qed.

Lemma handOver_released pi rest c :
  readableListener
    (handOver options (restore d options) pi rest (removeListeners c)) = false.
Proof.
  rewrite handOver_restore. unfold legacy_ondata, unshift.
  repeat case_match; done.
Qed.

(** X6. Once [onReadable] has handed a connection over, its two listeners
    removed (lines 275-276), the interception is over for good: every later
    event goes to the original emit, once and in order; chunks that arrive
    stay unread for the consumer, after what was there; and nothing more is
    destroyed, announced, defined or buffered. *)
Theorem handed_over_connection_passes_through
    (pi : option ProxyHeaders) (rest : Buffer) (c : Conn) (inputs : list Input) :
  let c1 := handOver options (restore d options) pi rest (removeListeners c) in
  let c2 := run d options c1 inputs in
  delivered (trace c2) = delivered (trace c1) ++ emitted inputs /\
  downstream c2 = downstream c1 ++ concat (arrived inputs) /\
  destroyed (trace c2) = destroyed (trace c1) /\
  announced (trace c2) = announced (trace c1) /\
  props c2 = props c1 /\
  buf c2 = buf c1 /\
  emitIsReal c2 = true.
Proof.
  intros c1 c2.
  destruct (handOver_spec d options pi rest (removeListeners c))
    as (_ & _ & _ & _ & _ & He & _).
  destruct (run_released inputs c1 He (handOver_released pi rest c))
    as (H1 & H2 & H3 & H4 & H5 & H6 & H7 & H8 & H9 & _).
  fold c2 in H1, H2, H3, H4, H5, H6, H7, H8, H9.
  repeat split; try done.
  unfold downstream. by rewrite H4, H5, concat_app, app_assoc.
Qed.

End PassThrough.

Section Legacy.
Context (d : Decoder) (options : ProxyOptions).

(** X7. The legacy [ondata] hook of lines 294-300. Without the hook the rest
    of the buffer is unshifted and stays on the socket, in front of what was
    unread. With the hook, a non-empty rest that is all the socket holds is
    handed to the hook, after 'proxiedConnection', and is no longer on the
    socket; with an empty rest and nothing unread the hook is not called. *)
Theorem legacy_ondata_receives_remainder
    (pi : option ProxyHeaders) (rest : Buffer) (c : Conn) :
  let c' := handOver options (restore d options) pi rest c in
  (has_ondata c = false ->
     trace c' = trace c ++ [Unshift rest; ProxiedConnection] /\
     readQueue c' = match rest with [] => readQueue c | _ => rest :: readQueue c end) /\
  (has_ondata c = true -> rest <> [] -> readQueue c = [] ->
     trace c' = trace c ++ [Unshift rest; ProxiedConnection; Ondata rest] /\
     readQueue c' = []) /\
  (has_ondata c = true -> rest = [] -> readQueue c = [] ->
     trace c' = trace c ++ [Unshift rest; ProxiedConnection] /\
     readQueue c' = []).
Proof.
  cbv zeta. rewrite handOver_restore. unfold legacy_ondata, unshift.
  split; [|split].
  - intros Ho. destruct pi as [info|], (protocolError c), rest as [|r0 rest];
      cbn; rewrite Ho; cbn; by rewrite <- app_assoc.
  - intros Ho Hr Hq. destruct rest as [|r0 rest]; [done|].
    destruct pi as [info|], (protocolError c);
      cbn; rewrite Ho; cbn; by rewrite <- !app_assoc.
  - intros Ho -> Hq. destruct pi as [info|], (protocolError c);
      cbn; rewrite Ho, Hq; cbn; by rewrite <- app_assoc.
Qed.

End Legacy.

(** ** The idle timeout *)

Section Budget.
Context (d : Decoder) (options : ProxyOptions).
Implicit Types (c : Conn) (R L O : Conn -> Conn).

Lemma budget_log eff c :
  eff <> SocketEnd -> timeout_budget (log eff c) = timeout_budget c.
Proof.
  intros H. unfold timeout_budget. cbn [trace timeoutCallback log].
  rewrite ended_app. destruct eff; try done; unfold ended; simpl; lia.
Qed.

Lemma budget_fire c :
  timeoutCallback c = true ->
  timeout_budget (log SocketEnd (set_timeoutCallback false c)) = timeout_budget c.
Proof.
  intros H. unfold timeout_budget. cbn [trace timeoutCallback log set_timeoutCallback].
  rewrite ended_app, H. unfold ended at 2. simpl. lia.
Qed.

Ltac budget_walk HR :=
  repeat lazymatch goal with
    | |- timeout_budget ?c = timeout_budget ?c => reflexivity
    | |- timeout_budget (log _ ?y) = _ =>
        transitivity (timeout_budget y); [by apply budget_log|]
    | |- timeout_budget (unshift _ _) = _ => unfold unshift
    | |- timeout_budget (handOver _ _ _ _ _) = _ => unfold handOver
    | |- timeout_budget (legacy_ondata _) = _ => unfold legacy_ondata
    | |- timeout_budget (if ?b then _ else _) = _ => destruct b eqn:?
    | |- timeout_budget (match ?b with _ => _ end) = _ => destruct b eqn:?
    | |- timeout_budget (set_buf _ ?y) = _ =>
        transitivity (timeout_budget y); [reflexivity|]
    | |- timeout_budget (set_history _ ?y) = _ =>
        transitivity (timeout_budget y); [reflexivity|]
    | |- timeout_budget (set_protocolError _ ?y) = _ =>
        transitivity (timeout_budget y); [reflexivity|]
    | |- timeout_budget (set_isReadable _ ?y) = _ =>
        transitivity (timeout_budget y); [reflexivity|]
    | |- timeout_budget (set_emitIsReal _ ?y) = _ =>
        transitivity (timeout_budget y); [reflexivity|]
    | |- timeout_budget (removeListeners ?y) = _ =>
        transitivity (timeout_budget y); [reflexivity|]
    | |- timeout_budget (set_readQueue _ ?y) = _ =>
        transitivity (timeout_budget y); [reflexivity|]
    | |- timeout_budget (set_props _ ?y) = _ =>
        transitivity (timeout_budget y); [reflexivity|]
    | |- timeout_budget (destroy_with _ _ _ _ _) = _ => rewrite destroy_with_eq
    | |- timeout_budget (?R ?y) = _ =>
        transitivity (timeout_budget y); [apply HR|]
    end.

Lemma loopBody_budget R chunk c :
  keeps_budget R ->
  match loopBody d options R chunk c with
  | Return c' | Next c' => timeout_budget c' = timeout_budget c
  end.
Proof.
  intros HR. unfold loopBody.
  destruct (nonProxyPrefix _ && strict options); [by budget_walk HR|].
  destruct (isHeaderCompleted d _) as [[hc pi] rest].
  destruct (hc || _).
  - destruct (strict options && is_null pi); by budget_walk HR.
  - destruct (107 <? _)%nat; by budget_walk HR.
Qed.

Lemma whileChunk_budget R queue :
  keeps_budget R -> keeps_budget (whileChunk d options R queue).
Proof.
  intros HR. induction queue as [|chunk queue IH]; intros c; simpl; [done|].
  pose proof (loopBody_budget R chunk (set_readQueue queue c) HR) as Hb.
  destruct (loopBody d options R chunk (set_readQueue queue c)) as [c'|c'].
  - by rewrite Hb.
  - by rewrite IH, Hb.
Qed.

Lemma onReadable_with_budget R :
  keeps_budget R -> keeps_budget (onReadable_with d options R).
Proof.
  intros HR c. unfold onReadable_with.
  destruct (readQueue c) as [|chunk queue] eqn:Hq.
  - destruct (buf c); [by budget_walk HR|done].
  - by apply whileChunk_budget.
Qed.

Lemma realEmit_budget O e : keeps_budget O -> keeps_budget (realEmit O e).
Proof.
  intros HO c. unfold realEmit.
  destruct (is_event "readable" e && _).
  - by budget_walk HO.
  - destruct (is_event "timeout" e && _) eqn:Ht.
    + apply andb_true_iff in Ht as [_ Ht]. rewrite budget_fire; [|done].
      by budget_walk HO.
    + by budget_walk HO.
Qed.

Lemma replay_one_budget O e c :
  keeps_budget O -> timeout_budget (replay_one O c e) = timeout_budget c.
Proof.
  intros HO. unfold replay_one.
  destruct (_ && _); budget_walk (realEmit_budget O e HO); done.
Qed.

Lemma replay_budget O h c :
  keeps_budget O -> timeout_budget (foldl (replay_one O) c h) = timeout_budget c.
Proof.
  intros HO. revert c. induction h as [|e h IH]; intros c; simpl; [done|].
  by rewrite IH, replay_one_budget.
Qed.

Lemma restore_with_budget O : keeps_budget O -> keeps_budget (restore_with O).
Proof.
  intros HO c. rewrite restore_with_unfold.
  destruct (history c) as [h|]; [|done].
  destruct (emitIsReal c); [done|].
  transitivity (timeout_budget (foldl (replay_one O) (set_emitIsReal true c) h));
    [reflexivity|].
  by rewrite replay_budget.
Qed.

Lemma restore_budget : keeps_budget (restore d options).
Proof.
  apply restore_with_budget, onReadable_with_budget, restore_with_budget.
  by intros c.
Qed.

Lemma onReadable_budget : keeps_budget (onReadable d options).
Proof. apply onReadable_with_budget, restore_budget. Qed.

Lemma emit_override_budget e : keeps_budget (emit_override d options e).
Proof.
  intros c. unfold emit_override.
  destruct (is_event "readable" e).
  { rewrite onReadable_budget. by destruct (history c). }
  assert (forall c1, timeout_budget c1 = timeout_budget c ->
            timeout_budget
              (if is_event "timeout" e
               then realEmit (onReadable d options) (mkEvent (ev_name e) []) c1
               else c1) = timeout_budget c) as Hk.
  { intros c1 H1. destruct (is_event "timeout" e); [|done].
    by rewrite (realEmit_budget _ _ onReadable_budget). }
  apply Hk. destruct (is_event "end" e && _).
  - rewrite restore_budget. rewrite budget_log; [|done]. by destruct (history c).
  - by destruct (history c).
Qed.

Lemma socket_emit_budget e : keeps_budget (socket_emit d options e).
Proof.
  intros c. unfold socket_emit. destruct (emitIsReal c).
  - apply realEmit_budget, onReadable_budget.
  - apply emit_override_budget.
Qed.

Lemma run_budget inputs c :
  timeout_budget (run d options c inputs) = timeout_budget c.
Proof.
  revert c. induction inputs as [|i inputs IH]; intros c; [done|].
  cbn [run foldl]. fold (run d options (step d options c i) inputs).
  rewrite IH. destruct i as [chunk|e]; [done|]. apply socket_emit_budget.
Qed.

(** A 'timeout' event leaves no callback pending. *)
Lemma socket_emit_timeout_fires e c :
  is_event "timeout" e = true ->
  timeoutCallback (socket_emit d options e c) = false.
Proof.
  intros Ht.
  assert (is_event "readable" e = false) as Hr.
  { unfold is_event in *. apply String.eqb_eq in Ht. by rewrite Ht. }
  assert (is_event "end" e = false) as Hend.
  { unfold is_event in *. apply String.eqb_eq in Ht. by rewrite Ht. }
  assert (forall c1 e1, is_event "timeout" e1 = true -> is_event "readable" e1 = false ->
            timeoutCallback (realEmit (onReadable d options) e1 c1) = false) as Hk.
  { intros c1 e1 H1 H2. unfold realEmit. rewrite H1, H2. cbn [andb].
    cbn [timeoutCallback log].
    by destruct (timeoutCallback c1) eqn:Hc. }
  unfold socket_emit. destruct (emitIsReal c); [by apply Hk|].
  unfold emit_override. rewrite Hr, Hend, Ht. cbn [andb].
  apply Hk; [done|]. by apply is_event_timeout_not_readable.
Qed.

End Budget.

Section TimeoutTheorems.
Context (d : Decoder) (options : ProxyOptions).

(** X10. In every run of a connection the timeout callback calls
    [socket.end()] at most once; never when no timeout was armed; and
    exactly once when a timeout was armed and a 'timeout' event is emitted,
    although a 'timeout' recorded during the interception reaches the
    original emit a second time at the replay. *)
Theorem timeout_ends_socket_at_most_once (self_timeout socket_timeout : option Z)
    (peer : string * Z) (ondata onend : bool) (inputs : list Input) :
  let c0 := connectionListener options self_timeout socket_timeout peer ondata onend in
  (ended (trace (run d options c0 inputs)) <= 1)%nat /\
  (timeoutCallback c0 = false -> ended (trace (run d options c0 inputs)) = 0%nat) /\
  (forall pre e post,
     inputs = pre ++ Emit e :: post -> is_event "timeout" e = true ->
     timeoutCallback c0 = true ->
     ended (trace (run d options c0 inputs)) = 1%nat).
Proof.
  intros c0.
  assert (ended (trace c0) = 0%nat) as H0.
  { unfold c0, connectionListener. cbn [trace]. by repeat case_match. }
  pose proof (run_budget d options inputs c0) as Hb.
  unfold timeout_budget in Hb. rewrite H0 in Hb.
  split; [destruct (timeoutCallback c0), (timeoutCallback (run d options c0 inputs)); lia|].
  split; [intros Hc; rewrite Hc in Hb; lia|].
  intros pre e post -> He Hc. rewrite Hc in Hb.
  unfold run in *. rewrite foldl_app in *. cbn [foldl] in *.
  fold (run d options c0 pre) in *.
  set (c1 := run d options c0 pre) in *.
  pose proof (socket_emit_timeout_fires d options e c1 He) as Hf.
  pose proof (run_budget d options [Emit e] c1) as Hb1.
  pose proof (run_budget d options pre c0) as Hb0.
  fold c1 in Hb0. cbn [run foldl step] in Hb1.
  unfold timeout_budget in Hb0, Hb1. rewrite Hf in Hb1. rewrite H0, Hc in Hb0.
  destruct (run_adds d options post (socket_emit d options e c1)) as (tail & Ht & _).
  unfold run in Ht. cbn [step] in *. rewrite Ht, ended_app in *. lia.
Qed.

End TimeoutTheorems.

(** ** TLS sockets *)

Lemma defineTLSSocketProperties_spec (properties : list string) (t : TLSSocket) :
  _parent (defineTLSSocketProperties t properties) = _parent t /\
  tls_builtin (defineTLSSocketProperties t properties) = tls_builtin t /\
  forall name,
    tls_props (defineTLSSocketProperties t properties) !! name
    = if bool_decide (name ∈ properties)
      then Some (mkGetterDescriptor false true (ParentProperty name))
      else tls_props t !! name.
Proof.
  revert t. induction properties as [|p properties IH]; intros t.
  { repeat split. }
  unfold defineTLSSocketProperties in *. cbn [foldl].
  destruct (IH (mkTLSSocket (_parent t) (tls_builtin t)
                  (defineGetter (tls_props t) p (createTLSSocketPropertyGetter p))))
    as (H1 & H2 & H3).
  split; [by rewrite H1|]. split; [by rewrite H2|].
  intros name. rewrite H3. cbn [tls_props]. unfold defineGetter.
  destruct (decide (name = p)) as [->|Hne].
  - rewrite lookup_insert_eq.
    rewrite (bool_decide_eq_true_2 (p ∈ p :: properties)) by apply list_elem_of_here.
    by case_bool_decide.
  - rewrite lookup_insert_ne by done.
    case_bool_decide as H4.
    + by rewrite bool_decide_eq_true_2 by (by apply list_elem_of_further).
    + rewrite bool_decide_eq_false_2; [done|].
      intros [?|?]%elem_of_cons; done.
Qed.

Lemma tls_socket_get_defined (t : TLSSocket) (p : Conn) (name : string) :
  tls_socket_get (set_parent p (defineTLSSocketProperties t proxyProtocolFields)) name
  = if bool_decide (name ∈ proxyProtocolFields) then socket_get p name
    else tls_socket_get (set_parent p t) name.
Proof.
  destruct (defineTLSSocketProperties_spec proxyProtocolFields t) as (H1 & H2 & H3).
  unfold tls_socket_get. cbn [tls_props set_parent tls_builtin _parent].
  rewrite H3, H2. by case_bool_decide.
Qed.

(** X11. The listener [createSecureConnectionListener] builds hands its
    inner listener the TLS socket with a getter for each of the six names of
    [proxyProtocolFields], non-enumerable and configurable, and with the
    same raw socket. Reading one of these names on the TLS socket gives what
    the raw socket [_parent] answers at that moment, whatever state the raw
    socket is in; every other name reads as before. *)
Theorem tls_socket_reads_through_to_parent {A : Type} (listener : TLSSocket -> A)
    (socket : TLSSocket) :
  exists socket' : TLSSocket,
    createSecureConnectionListener listener socket = listener socket' /\
    _parent socket' = _parent socket /\
    (forall name,
       name ∈ proxyProtocolFields ->
       tls_props socket' !! name
       = Some (mkGetterDescriptor false true (ParentProperty name))) /\
    (forall (p : Conn) (name : string),
       tls_socket_get (set_parent p socket') name
       = if bool_decide (name ∈ proxyProtocolFields) then socket_get p name
         else tls_socket_get (set_parent p socket) name).
Proof.
  exists (defineTLSSocketProperties socket proxyProtocolFields).
  destruct (defineTLSSocketProperties_spec proxyProtocolFields socket) as (H1 & H2 & H3).
  split; [done|]. split; [done|]. split.
  - intros name Hin. by rewrite H3, bool_decide_eq_true_2.
  - intros p name. apply tls_socket_get_defined.
Qed.

Section TLSClient.
Context (d : Decoder) (options : ProxyOptions).

Lemma valid_header_socket (c0 : Conn) (hdr payload : Buffer) (info : ProxyHeaders) :
  pristine c0 ->
  ValidHeader d hdr payload info ->
  let c' := run d options c0 [Arrive (hdr ++ payload); Emit readable] in
  props c' = defineSocketProperties (props c0) info (overrideRemote options) /\
  peerAddress c' = peerAddress c0 /\ peerPort c' = peerPort c0.
Proof.
  intros [He Hh Hq Hb Hp] Hvalid.
  destruct (isHeaderCompleted_valid d hdr payload info Hvalid) as [Hd Hf].
  intros c'. subst c'.
  rewrite run_first_readable by done. rewrite Hq. simpl app.
  remember (set_isReadable true
              (set_history (Some [readable])
                 (set_readQueue [hdr ++ payload] c0))) as c1 eqn:Hc1.
  assert (buf c1 = [] /\ protocolError c1 = false /\ props c1 = props c0
          /\ readQueue c1 = [hdr ++ payload] /\ peerAddress c1 = peerAddress c0
          /\ peerPort c1 = peerPort c0) as (Hb1 & Hp1 & Hpr1 & Hq1 & Ha1 & Hport1)
    by (by subst c1).
  rewrite (onReadable_handOver d options c1 (hdr ++ payload) [] true
             (Some info) payload);
    rewrite ?Hb1, ?Hp1; simpl app;
    [|done|by rewrite Hf|done|done|by rewrite andb_false_r].
  destruct (decided_frame c1 (hdr ++ payload) [])
    as (Ft & Fb & Fq & Fp & _ & _ & Fa & Fport & Fpe).
  rewrite Hb1, Hp1 in *. simpl app in *. rewrite Hf in Fpe.
  destruct (handOver_spec d options (Some info) payload
              (removeListeners (decided c1 (hdr ++ payload) [])))
    as (Hprops & _ & _ & _ & _ & _ & _ & Haddr & Hport & _).
  cbn [props_after protocolError removeListeners props peerAddress peerPort]
    in Hprops, Haddr, Hport.
  rewrite Fpe in Hprops. cbn [negb] in Hprops.
  rewrite Hprops, Haddr, Hport, Fp, Fa, Fport, Hpr1, Ha1, Hport1. done.
Qed.

(** X12. On a TLS socket over a raw socket whose first chunk was a valid
    header, a 'secureConnection' listener reads the header's client and
    proxy addresses and ports; remoteAddress and remotePort are the client's
    with [overrideRemote], the physical peer's without. *)
Theorem tls_socket_reports_client
    (self_timeout socket_timeout : option Z) (peer : string * Z)
    (ondata onend : bool) (hdr payload : Buffer) (info : ProxyHeaders)
    (tlsSocket : TLSSocket) :
  ValidHeader d hdr payload info ->
  createSecureConnectionListener
    (fun socket =>
       (tls_socket_get socket "clientAddress", tls_socket_get socket "clientPort",
        tls_socket_get socket "proxyAddress", tls_socket_get socket "proxyPort",
        tls_socket_get socket "remoteAddress", tls_socket_get socket "remotePort"))
    (set_parent
       (run d options
          (connectionListener options self_timeout socket_timeout peer ondata onend)
          [Arrive (hdr ++ payload); Emit readable])
       tlsSocket)
  = (VString (remoteAddress info), VNumber (remotePort info),
     VString (localAddress info), VNumber (localPort info),
     if overrideRemote options then VString (remoteAddress info) else VString peer.1,
     if overrideRemote options then VNumber (remotePort info) else VNumber peer.2).
Proof.
  intros Hvalid.
  destruct (valid_header_socket
              (connectionListener options self_timeout socket_timeout peer ondata onend)
              hdr payload info
              (connectionListener_pristine options _ _ _ _ _) Hvalid)
    as (Hp & Ha & Hport).
  destruct (connectionListener_counters options self_timeout socket_timeout peer
              ondata onend) as (_ & _ & Hp0).
  rewrite Hp0 in Hp.
  remember (run d options
              (connectionListener options self_timeout socket_timeout peer ondata onend)
              [Arrive (hdr ++ payload); Emit readable]) as raw eqn:Hraw.
  clear Hraw. unfold createSecureConnectionListener.
  destruct (defineTLSSocketProperties_spec proxyProtocolFields
              (set_parent raw tlsSocket)) as (H1 & H2 & H3).
  assert (forall name, bool_decide (name ∈ proxyProtocolFields) = true ->
            tls_socket_get
              (defineTLSSocketProperties (set_parent raw tlsSocket) proxyProtocolFields)
              name
            = socket_get raw name) as Hget.
  { intros name Hin. unfold tls_socket_get.
    rewrite H3, Hin. cbn [g_get call_getter]. by rewrite H1. }
  rewrite !Hget by reflexivity.
  destruct (defineSocketProperties_derived ∅ info (overrideRemote options))
    as (D1 & D2 & D3 & D4 & D5 & D6).
  unfold socket_get. rewrite Hp, D1, D2, D3, D4, D5, D6, Ha, Hport.
  cbn [get]. destruct (overrideRemote options); [done|].
  by rewrite !lookup_empty.
Qed.

End TLSClient.

Lemma tls_socket_reports_client_witness :
  createSecureConnectionListener
    (fun socket =>
       (tls_socket_get socket "clientAddress", tls_socket_get socket "clientPort",
        tls_socket_get socket "proxyAddress", tls_socket_get socket "proxyPort",
        tls_socket_get socket "remoteAddress", tls_socket_get socket "remotePort"))
    (set_parent
       (run reference_decoder defaults
          (connectionListener defaults None None peer0 false false)
          [Arrive (v1_line "192.168.0.254" "192.168.0.1" 3350 443 ++ request_body);
           Emit readable])
       (mkTLSSocket (accepted defaults) (fun _ => VUndefined) ∅))
  = (VString "192.168.0.254", VNumber 3350, VString "192.168.0.1", VNumber 443,
     VString "192.168.0.254", VNumber 3350).
Proof.
  exact (tls_socket_reports_client reference_decoder defaults None None peer0
           false false (v1_line "192.168.0.254" "192.168.0.1" 3350 443) request_body
           (mkProxyHeaders "192.168.0.254" 3350 "192.168.0.1" 443)
           (mkTLSSocket (accepted defaults) (fun _ => VUndefined) ∅)
           valid_v1_sample).
Defined.

(** ** The server: listeners and registry *)

Lemma listeners_addListener (ev ev' : string) (l : Listener) (s : Server) :
  listeners (addListener ev l s) ev'
  = if decide (ev = ev') then listeners s ev ++ [l] else listeners s ev'.
Proof.
  unfold listeners, addListener. cbn [handlers].
  destruct (decide (ev = ev')) as [->|Hne].
  - by rewrite lookup_insert_eq.
  - by rewrite lookup_insert_ne.
Qed.

Lemma listeners_removeAllListeners (ev ev' : string) (s : Server) :
  listeners (removeAllListeners ev s) ev'
  = if decide (ev = ev') then [] else listeners s ev'.
Proof.
  unfold listeners, removeAllListeners. cbn [handlers].
  destruct (decide (ev = ev')) as [->|Hne].
  - by rewrite lookup_delete_eq.
  - by rewrite lookup_delete_ne.
Qed.

Lemma listeners_foldl_addListener (f : Listener -> Listener) (ev ev' : string)
    (ls : list Listener) (s : Server) :
  listeners (foldl (fun s l => addListener ev (f l) s) s ls) ev'
  = if decide (ev = ev') then listeners s ev ++ map f ls else listeners s ev'.
Proof.
  revert s. induction ls as [|l ls IH]; intros s; cbn [foldl map].
  - case_decide; subst; by rewrite ?app_nil_r.
  - rewrite IH, !listeners_addListener.
    rewrite (decide_True (P := ev = ev)) by done.
    case_decide; [|done]. by rewrite <- app_assoc.
Qed.

Lemma proxyOptions_foldl_addListener (f : Listener -> Listener) (ev : string)
    (ls : list Listener) (s : Server) :
  proxyOptions (foldl (fun s l => addListener ev (f l) s) s ls) = proxyOptions s.
Proof. revert s. induction ls as [|l ls IH]; intros s; [done|]. cbn [foldl]. by rewrite IH. Qed.

Lemma replaceListeners_listeners (server : Server) (event : string) :
  listeners (replaceListeners server) event
  = if decide (event = "connection") then [TheConnectionListener; TrackSocket]
    else if decide (event = "proxiedConnection") then
      listeners server "proxiedConnection" ++ listeners server "connection"
      ++ [FilterSocket]
    else if decide (event = "secureConnection") then
      map SecureConnectionListener (listeners server "secureConnection")
    else if decide (event = "close") then listeners server "close" ++ [CloseSockets]
    else listeners server event.
Proof.
  unfold replaceListeners.
  rewrite !listeners_addListener, !listeners_foldl_addListener,
    !listeners_removeAllListeners,
    !(listeners_foldl_addListener (fun l => l)),
    !listeners_addListener, !listeners_removeAllListeners.
  rewrite map_id.
  repeat (case_decide; simplify_eq; try done).
  by rewrite <- app_assoc.
Qed.

Lemma replaceListeners_proxyOptions (server : Server) :
  proxyOptions (replaceListeners server) = proxyOptions server.
Proof.
  unfold replaceListeners.
  assert (forall ev l s, proxyOptions (addListener ev l s) = proxyOptions s) as Ha
    by done.
  assert (forall ev s, proxyOptions (removeAllListeners ev s) = proxyOptions s) as Hr
    by done.
  by rewrite !Ha, proxyOptions_foldl_addListener, Hr,
    (proxyOptions_foldl_addListener (fun l => l)), Ha, Hr.
Qed.

(** X13. A server created through the wrapper carries the options and has
    its listeners rearranged: 'connection' has [connectionListener] and the
    listener that tracks the socket, and nothing else; on
    'proxiedConnection' the listeners it had on 'connection' follow those it
    had on 'proxiedConnection', in their order, before [filterSocket]; each
    'secureConnection' listener is wrapped, in order; 'close' gains the
    listener that closes the tracked sockets; any other event keeps its
    listeners. *)
Theorem wrapped_server_listeners (options : ProxyOptions) (server : Server)
    (event : string) :
  proxyOptions (wrapped_create options server) = Some options /\
  listeners (wrapped_create options server) event
  = if decide (event = "connection") then [TheConnectionListener; TrackSocket]
    else if decide (event = "proxiedConnection") then
      listeners server "proxiedConnection" ++ listeners server "connection"
      ++ [FilterSocket]
    else if decide (event = "secureConnection") then
      map SecureConnectionListener (listeners server "secureConnection")
    else if decide (event = "close") then listeners server "close" ++ [CloseSockets]
    else listeners server event.
Proof.
  unfold wrapped_create. split.
  - by rewrite replaceListeners_proxyOptions.
  - by rewrite replaceListeners_listeners.
Qed.

(** Calling listeners in order. *)
Lemma call_attached (ids : list nat) (arg : option nat) (st : ServerState) :
  foldl (fun st l => call_listener l arg st) st (map Attached ids)
  = mkServerState (sockets st) (effects st ++ map (fun id => Call id arg) ids).
Proof.
  revert st. induction ids as [|id ids IH]; intros st; cbn [map foldl].
  - rewrite app_nil_r. by destruct st.
  - rewrite IH. cbn. by rewrite <- app_assoc.
Qed.

Lemma call_secure (ids : list nat) (socket : nat) (st : ServerState) :
  foldl (fun st l => call_listener l (Some socket) st) st
        (map SecureConnectionListener (map Attached ids))
  = mkServerState (sockets st)
      (effects st
       ++ concat (map (fun id => [DefineTLS socket; Call id (Some socket)]) ids)).
Proof.
  revert st. induction ids as [|id ids IH]; intros st; cbn [map foldl concat].
  - rewrite app_nil_r. by destruct st.
  - rewrite IH. cbn. by rewrite <- !app_assoc.
Qed.

Lemma call_close_sockets (l : list nat) (st : ServerState) :
  foldl (fun st socket =>
           record_effect (DestroySocket socket) (record_effect (EndSocket socket) st))
        st l
  = mkServerState (sockets st)
      (effects st ++ concat (map (fun s => [EndSocket s; DestroySocket s]) l)).
Proof.
  revert st. induction l as [|s l IH]; intros st; cbn [map foldl concat].
  - rewrite app_nil_r. by destruct st.
  - rewrite IH. cbn. by rewrite <- !app_assoc.
Qed.

Section Dispatch.
Context (options : ProxyOptions) (server : Server).
Context (connectionIds proxiedIds secureIds closeIds : list nat).
Hypothesis Hconnection : listeners server "connection" = map Attached connectionIds.
Hypothesis Hproxied : listeners server "proxiedConnection" = map Attached proxiedIds.
Hypothesis Hsecure : listeners server "secureConnection" = map Attached secureIds.
Hypothesis Hclose : listeners server "close" = map Attached closeIds.

Lemma emit_connection (socket : nat) (st : ServerState) :
  server_emit (wrapped_create options server) "connection" (Some socket) st
  = mkServerState (sockets st ++ [socket]) (effects st ++ [Intercept socket]).
Proof.
  unfold server_emit, wrapped_create. by rewrite replaceListeners_listeners.
Qed.

Lemma emit_proxiedConnection (socket : nat) (st : ServerState) :
  server_emit (wrapped_create options server) "proxiedConnection" (Some socket) st
  = mkServerState (filter (fun s => s <> socket) (sockets st))
      (effects st
       ++ map (fun id => Call id (Some socket)) (proxiedIds ++ connectionIds)).
Proof.
  unfold server_emit, wrapped_create. rewrite replaceListeners_listeners.
  cbn [decide_rel]. rewrite decide_False by done. rewrite decide_True by done.
  unfold listeners at 1 2. cbn [handlers]. fold (listeners server "proxiedConnection").
  fold (listeners server "connection").
  rewrite Hconnection, Hproxied, app_assoc, <- map_app, foldl_app, call_attached.
  done.
Qed.

Lemma emit_secureConnection (socket : nat) (st : ServerState) :
  server_emit (wrapped_create options server) "secureConnection" (Some socket) st
  = mkServerState (sockets st)
      (effects st
       ++ concat (map (fun id => [DefineTLS socket; Call id (Some socket)]) secureIds)).
Proof.
  unfold server_emit, wrapped_create. rewrite replaceListeners_listeners.
  rewrite decide_False by done. rewrite decide_False by done.
  rewrite decide_True by done.
  unfold listeners. cbn [handlers]. fold (listeners server "secureConnection").
  by rewrite Hsecure, call_secure.
Qed.

Lemma emit_close (st : ServerState) :
  server_emit (wrapped_create options server) "close" None st
  = mkServerState (sockets st)
      (effects st ++ map (fun id => Call id None) closeIds
       ++ concat (map (fun s => [EndSocket s; DestroySocket s]) (sockets st))).
Proof.
  unfold server_emit, wrapped_create. rewrite replaceListeners_listeners.
  rewrite decide_False by done. rewrite decide_False by done.
  rewrite decide_False by done. rewrite decide_True by done.
  unfold listeners. cbn [handlers]. fold (listeners server "close").
  rewrite Hclose, foldl_app, call_attached. cbn [foldl call_listener].
  rewrite call_close_sockets. cbn. by rewrite <- app_assoc.
Qed.

End Dispatch.

(** X14. On a wrapped server whose listeners were attached by the module or
    its user: a 'connection' runs [connectionListener] and tracks the
    socket, and calls none of the original listeners; a 'proxiedConnection'
    calls the original 'connection' listeners, in order, with the socket and
    takes the socket off the registry; a 'secureConnection' defines the TLS
    properties before each original listener is called; a 'close' calls the
    original listeners, then ends and destroys each tracked socket, in the
    order they were accepted, and leaves the registry as it is. *)
Theorem wrapped_server_dispatch (options : ProxyOptions) (server : Server)
    (connectionIds proxiedIds secureIds closeIds : list nat)
    (socket : nat) (st : ServerState) :
  listeners server "connection" = map Attached connectionIds ->
  listeners server "proxiedConnection" = map Attached proxiedIds ->
  listeners server "secureConnection" = map Attached secureIds ->
  listeners server "close" = map Attached closeIds ->
  server_emit (wrapped_create options server) "connection" (Some socket) st
  = mkServerState (sockets st ++ [socket]) (effects st ++ [Intercept socket]) /\
  server_emit (wrapped_create options server) "proxiedConnection" (Some socket) st
  = mkServerState (filter (fun s => s <> socket) (sockets st))
      (effects st
       ++ map (fun id => Call id (Some socket)) (proxiedIds ++ connectionIds)) /\
  server_emit (wrapped_create options server) "secureConnection" (Some socket) st
  = mkServerState (sockets st)
      (effects st
       ++ concat (map (fun id => [DefineTLS socket; Call id (Some socket)]) secureIds)) /\
  server_emit (wrapped_create options server) "close" None st
  = mkServerState (sockets st)
      (effects st ++ map (fun id => Call id None) closeIds
       ++ concat (map (fun s => [EndSocket s; DestroySocket s]) (sockets st))).
Proof.
  intros Hc Hp Hs Hx. split; [|split; [|split]].
  - apply emit_connection.
  - by apply emit_proxiedConnection.
  - by apply emit_secureConnection.
  - by apply emit_close.
Qed.

Lemma wrapped_server_dispatch_witness :
  server_emit (wrapped_create defaults sample_server) "connection" (Some 7%nat)
    (mkServerState [] [])
  = mkServerState [7%nat] [Intercept 7%nat] /\
  server_emit (wrapped_create defaults sample_server) "proxiedConnection" (Some 7%nat)
    (mkServerState [7%nat] [Intercept 7%nat])
  = mkServerState [] [Intercept 7%nat; Call 1%nat (Some 7%nat)].
Proof.
  destruct (wrapped_server_dispatch defaults sample_server [1%nat] [] [2%nat] []
              7%nat (mkServerState [] []) eq_refl eq_refl eq_refl eq_refl)
    as (H1 & _).
  destruct (wrapped_server_dispatch defaults sample_server [1%nat] [] [2%nat] []
              7%nat (mkServerState [7%nat] [Intercept 7%nat])
              eq_refl eq_refl eq_refl eq_refl)
    as (_ & H2 & _).
  split; [exact H1|exact H2].
Defined.

Lemma plain_attached (ls : list Listener) :
  Forall (fun l => plain l = true) ls -> exists ids, ls = map Attached ids.
Proof.
  induction 1 as [|l ls Hl _ [ids ->]]; [by exists []|].
  destruct l; try done. by exists (id :: ids).
Qed.

Lemma snoc_split {A : Type} (l pre post : list A) (x y : A) :
  l ++ [x] = pre ++ y :: post ->
  (post = [] /\ pre = l /\ y = x) \/
  (exists post', post = post' ++ [x] /\ l = pre ++ y :: post').
Proof.
  destruct post as [|z post' _] using rev_ind; intros H.
  - apply app_inj_tail in H as [-> ->]. by left.
  - right. exists post'.
    change (pre ++ y :: post' ++ [z]) with (pre ++ (y :: post') ++ [z]) in H.
    rewrite app_assoc in H. apply app_inj_tail in H as [-> ->]. done.
Qed.

Lemma sample_server_plain (event : string) :
  Forall (fun l => plain l = true) (listeners sample_server event).
Proof.
  unfold listeners, sample_server. cbn [handlers].
  destruct (decide (event = "connection")) as [->|H1].
  { rewrite lookup_insert_eq. by repeat constructor. }
  rewrite lookup_insert_ne by done.
  destruct (decide (event = "secureConnection")) as [->|H2].
  { rewrite lookup_insert_eq. by repeat constructor. }
  rewrite lookup_insert_ne by done. rewrite lookup_empty. constructor.
Qed.

Lemma serve_sockets (options : ProxyOptions) (st : ServerState) (ev : ServerEvent) :
  match event_server ev with
  | Some server => wrapped_plain options server
  | None => True
  end ->
  sockets (serve st ev)
  = match ev with
    | Accepted _ socket => sockets st ++ [socket]
    | Proxied _ socket | CloseListener socket =>
        filter (fun s => s <> socket) (sockets st)
    | ServerClosed _ => sockets st
    end.
Proof.
  destruct ev as [server socket|server socket|socket|server]; cbn [event_server serve];
    [| |done|].
  all: intros (made & -> & Hplain).
  all: destruct (plain_attached _ (Hplain "connection")) as [cids Hc].
  all: destruct (plain_attached _ (Hplain "proxiedConnection")) as [pids Hp].
  all: destruct (plain_attached _ (Hplain "close")) as [xids Hx].
  - by rewrite emit_connection.
  - by rewrite (emit_proxiedConnection options made cids pids).
  - by rewrite (emit_close options made xids).
Qed.

Lemma close_is_recorded (d : Decoder) (options : ProxyOptions) (c : Conn)
    (h : list Event) (args : list JsVal) :
  emitIsReal c = false -> history c = Some h ->
  socket_emit d options (mkEvent "close" args) c
  = set_history (Some (h ++ [mkEvent "close" args])) c.
Proof.
  intros He Hh. unfold socket_emit. rewrite He. unfold emit_override. by rewrite Hh.
Qed.

Lemma close_is_delivered (d : Decoder) (options : ProxyOptions) (c : Conn)
    (args : list JsVal) :
  emitIsReal c = true ->
  socket_emit d options (mkEvent "close" args) c = log (RealEmit (mkEvent "close" args)) c.
Proof. intros He. unfold socket_emit. by rewrite He. Qed.

(** X15. The registry [sockets], which the servers of one wrapper share,
    holds a socket exactly when one of the servers accepted it and since
    then no 'proxiedConnection' was emitted with it and its 'close' listener
    has not run. The registry is a subsequence of the accepted sockets, and
    holds no socket twice when none was accepted twice. The 'close' listener
    runs when 'close' reaches the original emit of the socket: while
    [socket.emit] is overridden a 'close' is only recorded, so that a socket
    that closes under interception stays in the registry. *)
Theorem registry_holds_sockets_under_interception (options : ProxyOptions)
    (events : list ServerEvent) (socket : nat) :
  Forall (fun ev => match event_server ev with
                    | Some server => wrapped_plain options server
                    | None => True
                    end) events ->
  let st := foldl serve (mkServerState [] []) events in
  (socket ∈ sockets st <->
   exists pre server post,
     events = pre ++ Accepted server socket :: post /\
     (forall server', Proxied server' socket ∉ post) /\
     (CloseListener socket ∉ post)) /\
  (sockets st) `sublist_of` (accepts events) /\
  (NoDup (accepts events) -> NoDup (sockets st)) /\
  (forall (d : Decoder) (c : Conn) (h : list Event) (args : list JsVal),
     emitIsReal c = false -> history c = Some h ->
     socket_emit d options (mkEvent "close" args) c
     = set_history (Some (h ++ [mkEvent "close" args])) c) /\
  (forall (d : Decoder) (c : Conn) (args : list JsVal),
     emitIsReal c = true ->
     socket_emit d options (mkEvent "close" args) c
     = log (RealEmit (mkEvent "close" args)) c).
Proof.
  intros Hw st. subst st.
  assert ((sockets (foldl serve (mkServerState [] []) events))
            `sublist_of` (accepts events)) as Hsub.
  { induction events as [|ev events IH] using rev_ind; [done|].
    apply Forall_app in Hw as [Hw Hev]. rewrite Forall_singleton in Hev.
    rewrite foldl_app. cbn [foldl]. rewrite (serve_sockets options) by done.
    unfold accepts in *. rewrite omap_app. cbn [omap].
    destruct ev as [server s|server s|s|server]; cbn.
    - apply sublist_app; [by apply IH|done].
    - rewrite app_nil_r. etrans; [apply sublist_filter|by apply IH].
    - rewrite app_nil_r. etrans; [apply sublist_filter|by apply IH].
    - rewrite app_nil_r. by apply IH. }
  split; [|split; [done|split; [intros Hnd; by eapply sublist_NoDup|]]].
  2: { split; intros; [by apply close_is_recorded|by apply close_is_delivered]. }
  clear Hsub.
  induction events as [|ev events IH] using rev_ind.
  { cbn. split; [by intros ?%elem_of_nil|].
    intros (pre & server & post & H & _). by destruct pre. }
  apply Forall_app in Hw as [Hw Hev]. rewrite Forall_singleton in Hev.
  specialize (IH Hw).
  rewrite foldl_app. cbn [foldl]. rewrite (serve_sockets options) by done.
  destruct ev as [server s|server s|s|server].
  - rewrite elem_of_app, list_elem_of_singleton, IH. split.
    + intros [(pre & sv & post & -> & Hp & Hc)| ->].
      * exists pre, sv, (post ++ [Accepted server s]). rewrite <- app_assoc.
        split; [done|]. split; [intros server'|];
          rewrite elem_of_app, list_elem_of_singleton; intros [?|?]; try done.
        by eapply Hp.
      * exists events, server, []. split; [done|].
        split; [intros server'|]; apply not_elem_of_nil.
    + intros (pre & sv & post & H & Hp & Hc).
      apply snoc_split in H as [(-> & -> & [= -> ->])|(post' & -> & ->)]; [by right|].
      left. exists pre, sv, post'. split; [done|].
      split; [intros server' ?; apply (Hp server')|intros ?; apply Hc];
        rewrite elem_of_app; by left.
  - rewrite list_elem_of_filter, IH. split.
    + intros [Hne (pre & sv & post & -> & Hp & Hc)].
      exists pre, sv, (post ++ [Proxied server s]). rewrite <- app_assoc.
      split; [done|]. split; [intros server'|];
        rewrite elem_of_app, list_elem_of_singleton; intros [?|?];
        simplify_eq; try done. by eapply Hp.
    + intros (pre & sv & post & H & Hp & Hc).
      apply snoc_split in H as [(-> & -> & [=])|(post' & -> & ->)].
      split.
      * intros ->. apply (Hp server).
        rewrite elem_of_app, list_elem_of_singleton. by right.
      * exists pre, sv, post'. split; [done|].
        split; [intros server' ?; apply (Hp server')|intros ?; apply Hc];
          rewrite elem_of_app; by left.
  - rewrite list_elem_of_filter, IH. split.
    + intros [Hne (pre & sv & post & -> & Hp & Hc)].
      exists pre, sv, (post ++ [CloseListener s]). rewrite <- app_assoc.
      split; [done|]. split; [intros server'|];
        rewrite elem_of_app, list_elem_of_singleton; intros [?|?];
        simplify_eq; try done. by eapply Hp.
    + intros (pre & sv & post & H & Hp & Hc).
      apply snoc_split in H as [(-> & -> & [=])|(post' & -> & ->)].
      split.
      * intros ->. apply Hc. rewrite elem_of_app, list_elem_of_singleton. by right.
      * exists pre, sv, post'. split; [done|].
        split; [intros server' ?; apply (Hp server')|intros ?; apply Hc];
          rewrite elem_of_app; by left.
  - rewrite IH. split.
    + intros (pre & sv & post & -> & Hp & Hc).
      exists pre, sv, (post ++ [ServerClosed server]). rewrite <- app_assoc.
      split; [done|]. split; [intros server'|];
        rewrite elem_of_app, list_elem_of_singleton; intros [?|?]; try done.
      by eapply Hp.
    + intros (pre & sv & post & H & Hp & Hc).
      apply snoc_split in H as [(-> & -> & [=])|(post' & -> & ->)].
      exists pre, sv, post'. split; [done|].
      split; [intros server' ?; apply (Hp server')|intros ?; apply Hc];
        rewrite elem_of_app; by left.
Qed.

Lemma sample_server_wrapped : wrapped_plain defaults (wrapped_create defaults sample_server).
Proof. exists sample_server. split; [reflexivity|]. apply sample_server_plain. Qed.

Lemma registry_holds_sockets_under_interception_witness :
  2%nat ∈ sockets
    (foldl serve (mkServerState [] [])
       [Accepted (wrapped_create defaults sample_server) 1%nat;
        Accepted (wrapped_create defaults sample_server) 2%nat;
        Proxied (wrapped_create defaults sample_server) 1%nat;
        ServerClosed (wrapped_create defaults sample_server)]).
Proof.
  destruct (registry_holds_sockets_under_interception defaults
              [Accepted (wrapped_create defaults sample_server) 1%nat;
               Accepted (wrapped_create defaults sample_server) 2%nat;
               Proxied (wrapped_create defaults sample_server) 1%nat;
               ServerClosed (wrapped_create defaults sample_server)] 2%nat)
    as (H & _).
  - repeat constructor; apply sample_server_wrapped.
  - apply H.
    exists [Accepted (wrapped_create defaults sample_server) 1%nat],
           (wrapped_create defaults sample_server),
           [Proxied (wrapped_create defaults sample_server) 1%nat;
            ServerClosed (wrapped_create defaults sample_server)].
    split; [reflexivity|].
    split; [intros server'|]; intros Hin;
      repeat (apply elem_of_cons in Hin as [Hin|Hin]; [discriminate Hin|]);
      by apply elem_of_nil in Hin.
Defined.

(** ** The default export *)

Lemma copy_lookup_list (l : list (string * ModuleValue)) (e : gmap string Export)
    (k : string) :
  NoDup l.*1 ->
  foldl (fun e kv => <[kv.1 := Copied kv.2]> e) e l !! k
  = match (list_to_map l : gmap string ModuleValue) !! k with
    | Some v => Some (Copied v)
    | None => e !! k
    end.
Proof.
  revert e. induction l as [|[k1 v1] l IH]; intros e Hnd; [done|].
  rewrite fmap_cons in Hnd. apply NoDup_cons in Hnd as [Hk Hnd].
  cbn [foldl fst snd] in *. rewrite list_to_map_cons.
  rewrite IH by done. destruct (decide (k = k1)) as [->|Hne].
  - rewrite !lookup_insert_eq.
    by rewrite (not_elem_of_list_to_map_1 (M := gmap string) l k1 Hk).
  - by rewrite !lookup_insert_ne.
Qed.

Lemma copy_lookup (iface : gmap string ModuleValue) (e : gmap string Export)
    (k : string) :
  foldl (fun e kv => <[kv.1 := Copied kv.2]> e) e (map_to_list iface) !! k
  = match iface !! k with
    | Some v => Some (Copied v)
    | None => e !! k
    end.
Proof.
  rewrite copy_lookup_list by apply NoDup_fst_map_to_list.
  by rewrite list_to_map_to_list.
Qed.

Lemma wrap_lookup (ms : list string) (e : gmap string Export) (k : string) :
  foldl (fun e method => <[method := Wrapper method]> e) e ms !! k
  = if bool_decide (k ∈ ms) then Some (Wrapper k) else e !! k.
Proof.
  revert e. induction ms as [|m ms IH]; intros e; [done|].
  cbn [foldl]. rewrite IH. destruct (decide (k = m)) as [->|Hne].
  - rewrite lookup_insert_eq.
    rewrite (bool_decide_eq_true_2 (m ∈ m :: ms)) by apply list_elem_of_here.
    by case_bool_decide.
  - rewrite lookup_insert_ne by done.
    case_bool_decide as H4.
    + by rewrite bool_decide_eq_true_2 by (by apply list_elem_of_further).
    + rewrite bool_decide_eq_false_2; [done|].
      intros [?|?]%elem_of_cons; done.
Qed.

(** X16. The default export throws when [iface] is missing. Otherwise the
    object it returns holds, under each key of [iface], the module's own
    value, except that [createServer] and [createSecureServer] are replaced
    by the wrapper when the module has a truthy value for them (a missing or
    falsy method is not wrapped); [options] holds the merged options unless
    the module exports an [options] of its own, which then wins; no other
    key is present. *)
Theorem proxy_exports (_options : option PartialProxyOptions) :
  proxy None _options = None /\
  forall iface : gmap string ModuleValue,
    exists exports : gmap string Export,
      proxy (Some iface) _options = Some exports /\
      forall k : string,
        exports !! k
        = if bool_decide (k ∈ ["createServer"; "createSecureServer"])
             && truthy (iface !! k)
          then Some (Wrapper k)
          else match iface !! k with
               | Some v => Some (Copied v)
               | None =>
                   if bool_decide (k = "options")
                   then Some (TheOptions (merge_options _options))
                   else None
               end.
Proof.
  split; [done|]. intros iface. eexists. split; [done|]. intros k.
  rewrite wrap_lookup, copy_lookup.
  assert (bool_decide
            (k ∈ filter (fun method => truthy (iface !! method) = true)
                   ["createServer"; "createSecureServer"])
          = bool_decide (k ∈ ["createServer"; "createSecureServer"])
            && truthy (iface !! k)) as ->.
  { apply eq_true_iff_eq. rewrite andb_true_iff, !bool_decide_eq_true.
    rewrite list_elem_of_filter. tauto. }
  destruct (_ && _); [done|]. destruct (iface !! k); [done|].
  case_bool_decide as Hk.
  - subst k. by rewrite lookup_insert_eq.
  - by rewrite lookup_insert_ne.
Qed.
